(** * Sunrise Migration Copilot: the Solidity source analyzer

    A shallow embedding of [src/utils/solidityParser.ts] (the analyzer),
    of the rule generator [applyMappingRules], of the mapping count and
    the gas estimate of [src/utils/costCalculator.ts] and of the name
    helpers and the skeleton record of [src/utils/anchorGenerator.ts],
    together with the properties the specification states about them
    and further properties of the code.

    JavaScript strings are modelled as lists of 8-bit code units
    (Latin-1); the regular expressions of the source are transcribed as
    values of [regex] and run by a backtracking matcher that follows the
    ECMAScript semantics (greedy quantifiers, leftmost alternative first,
    capture groups, [^] under the [m] flag, [\b]). *)

From Stdlib Require Import String Ascii DecimalString.
From Stdlib Require Import Bool Arith Lia ZArith NArith List.
From Stdlib Require DecimalNat.
Import ListNotations.

Local Open Scope list_scope.

(** ** JavaScript strings *)

Definition jsstring := list ascii.

(** A string literal of the source. *)
Definition str (s : string) : jsstring := list_ascii_of_string s.

Definition code (c : ascii) : N := N_of_ascii c.

Definition in_range (lo hi : N) (c : ascii) : bool :=
  (lo <=? code c)%N && (code c <=? hi)%N.

(** [\d], [\w] and [\s] of ECMAScript, restricted to code units below 256. *)
Definition isDigit (c : ascii) : bool := in_range 48 57 c.

Definition isWord (c : ascii) : bool :=
  in_range 97 122 c || in_range 65 90 c || isDigit c || (code c =? 95)%N.

Definition isSpace (c : ascii) : bool :=
  in_range 9 13 c || (code c =? 32)%N || (code c =? 160)%N.

Definition isLineTerminator (c : ascii) : bool :=
  (code c =? 10)%N || (code c =? 13)%N.

Fixpoint jseq (a b : jsstring) : bool :=
  match a, b with
  | [], [] => true
  | x :: a', y :: b' => Ascii.eqb x y && jseq a' b'
  | _, _ => false
  end.

(** [String.prototype.toLowerCase] on Latin-1 code units. *)
Definition lowerChar (c : ascii) : ascii :=
  if in_range 65 90 c || in_range 192 214 c || in_range 216 222 c
  then ascii_of_N (code c + 32) else c.

Definition toLowerCase (s : jsstring) : jsstring := map lowerChar s.

Fixpoint startsWith (s prefix : jsstring) : bool :=
  match prefix, s with
  | [], _ => true
  | p :: prefix', c :: s' => Ascii.eqb c p && startsWith s' prefix'
  | _ :: _, [] => false
  end.

(** [String.prototype.includes]: substring search. *)
Fixpoint includes (s needle : jsstring) : bool :=
  startsWith s needle ||
  match s with
  | [] => false
  | _ :: s' => includes s' needle
  end.

(** [String.prototype.slice] for [0 <= from]; an end before the start
    gives the empty string. *)
Definition slice (s : jsstring) (from to : nat) : jsstring :=
  firstn (to - from) (skipn from s).

Fixpoint dropSpaces (s : jsstring) : jsstring :=
  match s with
  | c :: s' => if isSpace c then dropSpaces s' else s
  | [] => []
  end.

(** [String.prototype.trim]. *)
Definition trim (s : jsstring) : jsstring :=
  rev (dropSpaces (rev (dropSpaces s))).

(** [String.prototype.split] with a one-character separator string. *)
Fixpoint splitOn (sep : ascii) (s : jsstring) : list jsstring :=
  match s with
  | [] => [[]]
  | c :: s' =>
      if Ascii.eqb c sep then [] :: splitOn sep s'
      else match splitOn sep s' with
           | w :: ws => (c :: w) :: ws
           | [] => [[c]]
           end
  end.

(** [Array.prototype.filter(Boolean)] on strings: the empty string is falsy. *)
Definition truthy (s : jsstring) : bool :=
  match s with [] => false | _ :: _ => true end.

Definition filterBoolean (l : list jsstring) : list jsstring := filter truthy l.

(** [a || b] on strings. *)
Definition orElse (a : option jsstring) (b : jsstring) : jsstring :=
  match a with
  | Some (c :: s) => c :: s
  | _ => b
  end.

(** ** Regular expressions *)

Inductive cset : Type :=
| CChr (c : ascii)       (* a literal character of a class *)
| CWord                  (* \w *)
| CSpace                 (* \s *)
| CDigit.                (* \d *)

Inductive regex : Type :=
| Eps
| Chr (c : ascii)
| Class (neg : bool) (items : list cset)   (* [...] and [^...] *)
| Seq (r1 r2 : regex)
| Alt (r1 r2 : regex)
| Star (r : regex)                         (* greedy r* *)
| Group (n : nat) (r : regex)              (* capture group number n *)
| Bol                                      (* ^ under the m flag *)
| WordBoundary.                            (* \b *)

Definition Plus (r : regex) : regex := Seq r (Star r).
Definition Opt (r : regex) : regex := Alt r Eps.

Fixpoint Lit (s : jsstring) : regex :=
  match s with
  | [] => Eps
  | c :: s' => Seq (Chr c) (Lit s')
  end.

Fixpoint Alts (rs : list regex) (last : regex) : regex :=
  match rs with
  | [] => last
  | r :: rs' => Alt r (Alts rs' last)
  end.

Definition L (s : string) : regex := Lit (str s).

Definition Seqs (rs : list regex) : regex := fold_right Seq Eps rs.

Definition inItem (c : ascii) (i : cset) : bool :=
  match i with
  | CChr x => Ascii.eqb c x
  | CWord => isWord c
  | CSpace => isSpace c
  | CDigit => isDigit c
  end.

Definition inClass (neg : bool) (items : list cset) (c : ascii) : bool :=
  xorb neg (existsb (inItem c) items).

(** The matcher walks a zipper: the text before the current position
    (reversed) and the text after it. *)
Record mstate : Type := MState {
  before : list ascii;
  after : list ascii;
  caps : list (nat * jsstring)
}.

Definition position (st : mstate) : nat := length (before st).

Definition step1 (st : mstate) (ok : ascii -> bool) : option mstate :=
  match after st with
  | c :: rest => if ok c then Some (MState (c :: before st) rest (caps st)) else None
  | [] => None
  end.

Definition atLineStart (st : mstate) : bool :=
  match before st with
  | [] => true
  | c :: _ => isLineTerminator c
  end.

Definition wordSide (l : list ascii) : bool :=
  match l with
  | c :: _ => isWord c
  | [] => false
  end.

Definition atWordBoundary (st : mstate) : bool :=
  xorb (wordSide (before st)) (wordSide (after st)).

(** Text consumed between two states of one run of the matcher. *)
Definition consumed (st st' : mstate) : jsstring :=
  rev (firstn (position st' - position st) (before st')).

Definition setCap (n : nat) (s : jsstring) (st : mstate) : mstate :=
  MState (before st) (after st) ((n, s) :: caps st).

(** The iterations of a greedy star over a matcher [body]: one more
    iteration is tried first, the continuation [k] otherwise.  An
    iteration that consumes nothing is rejected, as in ECMAScript; the
    iteration count is therefore bounded by the length of the remaining
    text. *)
Fixpoint starLoop (body : (mstate -> option mstate) -> mstate -> option mstate)
    (k : mstate -> option mstate) (fuel : nat) (st : mstate) {struct fuel}
  : option mstate :=
  match fuel with
  | 0 => k st
  | S fuel' =>
      match body (fun st' =>
                    if length (after st') <? length (after st)
                    then starLoop body k fuel' st' else None) st with
      | Some x => Some x
      | None => k st
      end
  end.

(** Backtracking matcher in continuation-passing style. *)
Fixpoint mt (r : regex) (k : mstate -> option mstate) (st : mstate)
  {struct r} : option mstate :=
  match r with
  | Eps => k st
  | Chr c =>
      match step1 st (Ascii.eqb c) with
      | Some st' => k st'
      | None => None
      end
  | Class neg items =>
      match step1 st (inClass neg items) with
      | Some st' => k st'
      | None => None
      end
  | Seq r1 r2 => mt r1 (mt r2 k) st
  | Alt r1 r2 =>
      match mt r1 k st with
      | Some x => Some x
      | None => mt r2 k st
      end
  | Star r1 => starLoop (mt r1) k (length (after st)) st
  | Group n r1 => mt r1 (fun st' => k (setCap n (consumed st st') st')) st
  | Bol => if atLineStart st then k st else None
  | WordBoundary => if atWordBoundary st then k st else None
  end.

(** A successful match: [m.index], [m[0]], the capture groups, and the
    zipper at the end of the match. *)
Record rmatch : Type := RMatch {
  m_index : nat;
  m_text : jsstring;
  m_caps : list (nat * jsstring);
  m_before : list ascii;
  m_after : list ascii
}.

Fixpoint lookupCap (n : nat) (l : list (nat * jsstring)) : option jsstring :=
  match l with
  | [] => None
  | (k, s) :: l' => if k =? n then Some s else lookupCap n l'
  end.

(** [m[n]] for [n >= 1]; [None] is [undefined]. *)
Definition group (m : rmatch) (n : nat) : option jsstring := lookupCap n (m_caps m).

(** [m[n]] where the group is known to take part in every match. *)
Definition group' (m : rmatch) (n : nat) : jsstring :=
  match group m n with
  | Some s => s
  | None => []
  end.

Definition matchAt (r : regex) (bef aft : list ascii) : option rmatch :=
  let st := MState bef aft [] in
  match mt r (fun st' => Some st') st with
  | Some st' =>
      Some (RMatch (position st) (consumed st st') (caps st') (before st') (after st'))
  | None => None
  end.

(** [RegExp.prototype.exec] from a given position: the leftmost start
    at which the pattern matches. *)
Fixpoint search (r : regex) (bef aft : list ascii) {struct aft} : option rmatch :=
  match matchAt r bef aft with
  | Some m => Some m
  | None =>
      match aft with
      | [] => None
      | c :: aft' => search r (c :: bef) aft'
      end
  end.

(** [s.match(r)] for a pattern without the [g] flag. *)
Definition jsmatch (r : regex) (s : jsstring) : option rmatch := search r [] s.

(** [s.matchAll(r)] for a pattern with the [g] flag: the search resumes
    at the end of the previous match, one code unit further when that
    match was empty.  Every round moves forward in the text, so a fuel
    above its length is never used up ([matchAllFrom_fuel]). *)
Fixpoint matchAllFrom (fuel : nat) (r : regex) (bef aft : list ascii) : list rmatch :=
  match fuel with
  | 0 => []
  | S fuel' =>
      match search r bef aft with
      | None => []
      | Some m =>
          m ::
          match m_text m, m_after m with
          | _ :: _, _ => matchAllFrom fuel' r (m_before m) (m_after m)
          | [], c :: aft' => matchAllFrom fuel' r (c :: m_before m) aft'
          | [], [] => []
          end
      end
  end.

Definition matchAll (r : regex) (s : jsstring) : list rmatch :=
  matchAllFrom (S (length s)) r [] s.

(** [s.split(r)] with a regular expression separator (no capture groups
    in the separator). [part] holds, reversed, the text since the end of
    the previous separator; a match that is empty and starts where the
    previous separator ended does not split. *)
Fixpoint splitReFrom (fuel : nat) (r : regex) (part bef aft : list ascii)
  : list jsstring :=
  match fuel with
  | 0 => [rev part ++ aft]
  | S fuel' =>
      match aft with
      | [] => [rev part]
      | c :: aft' =>
          match matchAt r bef aft with
          | Some m =>
              match m_text m, part with
              | [], [] => splitReFrom fuel' r (c :: part) (c :: bef) aft'
              | _, _ => rev part :: splitReFrom fuel' r [] (m_before m) (m_after m)
              end
          | None => splitReFrom fuel' r (c :: part) (c :: bef) aft'
          end
      end
  end.

Definition splitRe (r : regex) (s : jsstring) : list jsstring :=
  match s with
  | [] => match matchAt r [] [] with Some _ => [] | None => [[]] end
  | _ :: _ => splitReFrom (2 * length s) r [] [] s
  end.

(** ** Data model of the analyzer *)

Record Param : Type := mkParam {
  p_name : jsstring;
  p_typeName : jsstring
}.

Record EventParam : Type := mkEventParam {
  ep_name : jsstring;
  ep_typeName : jsstring;
  ep_indexed : bool
}.

Record StateVariable : Type := mkStateVariable {
  sv_name : jsstring;
  sv_typeName : jsstring;
  sv_visibility : jsstring;
  sv_constant : bool;
  sv_immutable : bool
}.

Record FunctionDef : Type := mkFunctionDef {
  fn_name : jsstring;
  fn_visibility : jsstring;
  fn_stateMutability : jsstring;
  fn_parameters : list Param;
  fn_returnParameters : list Param;
  isConstructor : bool;
  isModifier : bool
}.

Record EventDef : Type := mkEventDef {
  ev_name : jsstring;
  ev_parameters : list EventParam
}.

Inductive ContractKind : Type := KContract | KInterface | KLibrary.

Record ContractDef : Type := mkContractDef {
  c_name : jsstring;
  c_kind : ContractKind;
  baseContracts : list jsstring;
  stateVariables : list StateVariable;
  functions : list FunctionDef;
  events : list EventDef
}.

Inductive Complexity : Type := Low | Medium | High.

Record ParsedContract : Type := mkParsedContract {
  contracts : list ContractDef;
  pragmaVersion : jsstring;
  imports : list jsstring;
  isERC20 : bool;
  isERC721 : bool;
  hasOwnable : bool;
  hasAccessControl : bool;
  hasMappings : bool;
  hasEvents : bool;
  complexity : Complexity;
  lineCount : nat;
  errors : list jsstring
}.

(** ** The patterns of [regexFallbackParser] *)

Definition nl : ascii := "010"%char.
Definition dquote : ascii := "034"%char.
Definition squote : ascii := "039"%char.

Definition ws : regex := Class false [CSpace].        (* \s *)
Definition wordc : regex := Class false [CWord].      (* \w *)
Definition digit : regex := Class false [CDigit].     (* \d *)
Definition notc (c : ascii) : regex := Class true [CChr c].

(** [/pragma\s+solidity\s+([^;]+);/] *)
Definition pragmaRe : regex :=
  Seqs [L "pragma"; Plus ws; L "solidity"; Plus ws;
        Group 1 (Plus (notc ";")); Chr ";"].

(** [/import\s+[Q']([^Q']+)[Q']/g], where Q stands for the double quote *)
Definition importRe : regex :=
  Seqs [L "import"; Plus ws; Class false [CChr dquote; CChr squote];
        Group 1 (Plus (Class true [CChr dquote; CChr squote]));
        Class false [CChr dquote; CChr squote]].

(** [/(?:^|\n)\s*(contract|interface|library)\s+(\w+)(?:\s+is\s+([\w\s,]+))?\s*\{/gm] *)
Definition contractRe : regex :=
  Seqs [Alt Bol (Chr nl); Star ws;
        Group 1 (Alts [L "contract"; L "interface"] (L "library"));
        Plus ws; Group 2 (Plus wordc);
        Opt (Seqs [Plus ws; L "is"; Plus ws;
                   Group 3 (Plus (Class false [CWord; CSpace; CChr ","]))]);
        Star ws; Chr "{"].

(** [/(?:^|\n)\s*((?:mapping|address|uint\d*|int\d*|bool|bytes\d*|string|[\w.]+)(?:\[\])?)\s+(?:public\s+|private\s+|internal\s+|constant\s+|immutable\s+){0,}(\w+)\s*[;=]/gm],
    the star after the group of modifiers written [{0,}] here *)
Definition stateVarRe : regex :=
  Seqs [Alt Bol (Chr nl); Star ws;
        Group 1 (Seqs [Alts [L "mapping"; L "address";
                             Seq (L "uint") (Star digit);
                             Seq (L "int") (Star digit);
                             L "bool";
                             Seq (L "bytes") (Star digit);
                             L "string"]
                            (Plus (Class false [CWord; CChr "."]));
                       Opt (L "[]")]);
        Plus ws;
        Star (Alts [Seq (L "public") (Plus ws);
                    Seq (L "private") (Plus ws);
                    Seq (L "internal") (Plus ws);
                    Seq (L "constant") (Plus ws)]
                   (Seq (L "immutable") (Plus ws)));
        Group 2 (Plus wordc); Star ws;
        Class false [CChr ";"; CChr "="]].

(** [/function\s+(\w+)\s*\(([^)]{0,})\)\s*(?:public|private|internal|external)?[^{]*/gm],
    the star after the class [[^)]] written [{0,}] here *)
Definition functionRe : regex :=
  Seqs [L "function"; Plus ws; Group 1 (Plus wordc); Star ws; Chr "(";
        Group 2 (Star (notc ")")); Chr ")"; Star ws;
        Opt (Alts [L "public"; L "private"; L "internal"] (L "external"));
        Star (notc "{")].

(** [/event\s+(\w+)\s*\(([^)]{0,})\)/gm], same convention *)
Definition eventRe : regex :=
  Seqs [L "event"; Plus ws; Group 1 (Plus wordc); Star ws; Chr "(";
        Group 2 (Star (notc ")")); Chr ")"].

(** [/constructor\s*\(([^)]{0,})\)/], same convention *)
Definition constructorRe : regex :=
  Seqs [L "constructor"; Star ws; Chr "("; Group 1 (Star (notc ")")); Chr ")"].

(** [/\b(public|private|internal|external)\b/] *)
Definition visibilityRe : regex :=
  Seqs [WordBoundary;
        Group 1 (Alts [L "public"; L "private"; L "internal"] (L "external"));
        WordBoundary].

(** [/\b(pure|view|payable)\b/] *)
Definition mutabilityRe : regex :=
  Seqs [WordBoundary; Group 1 (Alts [L "pure"; L "view"] (L "payable"));
        WordBoundary].

(** The text of a captured type name read as a pattern, as
    [new RegExp] does: the type name is made of word characters, of [.]
    (any character but a line terminator) and of a closing [[]] (the
    empty class, which matches nothing). *)
Fixpoint typeNamePattern (t : jsstring) : regex :=
  match t with
  | [] => Eps
  | "["%char :: "]"%char :: t' => Seq (Class false []) (typeNamePattern t')
  | c :: t' =>
      Seq (if Ascii.eqb c "." then Class true [CChr nl; CChr "013"] else Chr c)
          (typeNamePattern t')
  end.

(** [new RegExp(`${t}[^;]*\\b(public|private|internal)\\b`)] *)
Definition varVisibilityRe (t : jsstring) : regex :=
  Seqs [typeNamePattern t; Star (notc ";"); WordBoundary;
        Group 1 (Alts [L "public"; L "private"] (L "internal"));
        WordBoundary].

(** ** The regex fallback parser *)

(** Lines 222-229 and 266-273: one parameter token, split on runs of
    white space. *)
Definition parseParam (p : jsstring) : Param :=
  let parts := splitRe (Plus ws) p in
  {| p_typeName := orElse (nth_error parts 0) (str "unknown");
     p_name := orElse (nth_error parts (length parts - 1)) [] |}.

Definition paramTokens (s : jsstring) : list jsstring :=
  filterBoolean (map trim (splitOn "," s)).

Definition parseParams (s : jsstring) : list Param :=
  map parseParam (paramTokens s).

(** Lines 245-256: the parameters of an event. *)
Definition parseEventParam (p : jsstring) : EventParam :=
  let parts := splitRe (Plus ws) p in
  {| ep_typeName := orElse (nth_error parts 0) (str "unknown");
     ep_name := orElse (nth_error parts (length parts - 1)) [];
     ep_indexed := includes p (str "indexed") |}.

Definition parseEventParams (s : jsstring) : list EventParam :=
  map parseEventParam (paramTokens s).

(** Lines 187-193: the brace counter. [rest] is the text from index [i]
    on; the result is the value of [i] when the loop ends. *)
Fixpoint scanBraces (rest : list ascii) (depth : Z) (i : nat) : nat :=
  match rest with
  | [] => i
  | c :: rest' =>
      if (depth >? 0)%Z then
        scanBraces rest'
          (if Ascii.eqb c "{" then depth + 1
           else if Ascii.eqb c "}" then depth - 1 else depth)%Z
          (S i)
      else i
  end.

(** Lines 186-194. *)
Definition extractBody (source : jsstring) (startIdx : nat) : jsstring :=
  let i := scanBraces (skipn startIdx source) 1 startIdx in
  slice source startIdx (i - 1).

Definition kindOfText (s : jsstring) : ContractKind :=
  if jseq s (str "interface") then KInterface
  else if jseq s (str "library") then KLibrary
  else KContract.

(** Lines 202-209. *)
Definition stateVariableOfMatch (body : jsstring) (v : rmatch) : StateVariable :=
  let t := group' v 1 in
  {| sv_name := group' v 2;
     sv_typeName := t;
     sv_visibility :=
       orElse (match jsmatch (varVisibilityRe t) body with
               | Some m => group m 1
               | None => None
               end) (str "internal");
     sv_constant := includes body (t ++ str " constant")
                    || includes body (str "constant " ++ t);
     sv_immutable := includes body (t ++ str " immutable")
                     || includes body (str "immutable " ++ t) |}.

(** Lines 217-239. *)
Definition functionOfMatch (f : rmatch) : FunctionDef :=
  {| fn_name := group' f 1;
     fn_visibility :=
       orElse (match jsmatch visibilityRe (m_text f) with
               | Some m => group m 1
               | None => None
               end) (str "public");
     fn_stateMutability :=
       orElse (match jsmatch mutabilityRe (m_text f) with
               | Some m => group m 1
               | None => None
               end) (str "nonpayable");
     fn_parameters := parseParams (group' f 2);
     fn_returnParameters := [];
     isConstructor := false;
     isModifier := false |}.

(** Lines 243-257. *)
Definition eventOfMatch (e : rmatch) : EventDef :=
  {| ev_name := group' e 1;
     ev_parameters := parseEventParams (group' e 2) |}.

(** Lines 262-277: the record pushed to the front for the constructor. *)
Definition constructorOfMatch (ctorMatch : rmatch) : FunctionDef :=
  {| fn_name := str "constructor";
     fn_visibility := str "public";
     fn_stateMutability := str "nonpayable";
     fn_parameters := parseParams (group' ctorMatch 1);
     fn_returnParameters := [];
     isConstructor := true;
     isModifier := false |}.

(** Lines 212-239 and 260-278: the functions of a body. *)
Definition extractFunctions (body : jsstring) : list FunctionDef :=
  let functions := map functionOfMatch (matchAll functionRe body) in
  match jsmatch constructorRe body with
  | Some ctorMatch => constructorOfMatch ctorMatch :: functions
  | None => functions
  end.

(** Lines 179-183. *)
Definition basesOfMatch (m : rmatch) : list jsstring :=
  match group m 3 with
  | Some (c :: s) => filterBoolean (map trim (splitOn "," (c :: s)))
  | _ => []
  end.

Definition startIdxOf (m : rmatch) : nat := m_index m + length (m_text m).

(** Lines 178-280: the body of the loop over the contract matches. *)
Definition contractOfMatch (source : jsstring) (m : rmatch) : ContractDef :=
  let body := extractBody source (startIdxOf m) in
  {| c_name := group' m 2;
     c_kind := kindOfText (group' m 1);
     baseContracts := basesOfMatch m;
     stateVariables := map (stateVariableOfMatch body) (matchAll stateVarRe body);
     functions := extractFunctions body;
     events := map eventOfMatch (matchAll eventRe body) |}.

(** Lines 287-329. *)
Definition buildResult (contracts : list ContractDef) (pragmaVersion : jsstring)
    (imports : list jsstring) (source : jsstring) (errors : list jsstring)
  : ParsedContract :=
  let allBases := flat_map (fun c => map toLowerCase (baseContracts c)) contracts in
  let allFns := flat_map (fun c => map (fun f => toLowerCase (fn_name f)) (functions c))
                         contracts in
  let srcLower := toLowerCase source in
  let has := fun (l : list jsstring) (x : jsstring) => existsb (jseq x) l in
  let isERC20 := has allFns (str "transfer") && has allFns (str "approve")
                 && has allFns (str "transferfrom") in
  let isERC721 := has allFns (str "safetransferfrom")
                  || includes srcLower (str "erc721") in
  let hasOwnable := existsb (fun b => includes b (str "ownable")) allBases
                    || includes srcLower (str "ownable") in
  let hasAccessControl := includes srcLower (str "accesscontrol")
                          || includes srcLower (str "roles") in
  let hasMappings := includes source (str "mapping(") in
  let hasEvents := existsb (fun c => 0 <? length (events c)) contracts in
  let totalFns := fold_left (fun s c => s + length (functions c)) contracts 0 in
  let totalVars := fold_left (fun s c => s + length (stateVariables c)) contracts 0 in
  let complexity :=
    if (15 <? totalFns) || (10 <? totalVars) then High
    else if 6 <? totalFns then Medium else Low in
  {| contracts := contracts;
     pragmaVersion := pragmaVersion;
     imports := imports;
     isERC20 := isERC20;
     isERC721 := isERC721;
     hasOwnable := hasOwnable;
     hasAccessControl := hasAccessControl;
     hasMappings := hasMappings;
     hasEvents := hasEvents;
     complexity := complexity;
     lineCount := length (splitOn nl source);
     errors := errors |}.

(** Lines 159-284. *)
Definition regexFallbackParser (source : jsstring) : ParsedContract :=
  let errors : list jsstring := [] in
  let pragmaVersion :=
    match jsmatch pragmaRe source with
    | Some pragmaMatch => trim (group' pragmaMatch 1)
    | None => str "unknown"
    end in
  let imports := map (fun m => group' m 1) (matchAll importRe source) in
  let contractMatches := matchAll contractRe source in
  let contracts := map (contractOfMatch source) contractMatches in
  buildResult contracts pragmaVersion imports source errors.

(** ** The AST path of [parseSolidity] *)

(** The nodes of the external parser's tree, with the fields the source
    reads.  A field that may be absent is an [option]; an absent list is
    the empty list. *)
Inductive TypeNode : Type :=
| NoTypeNode                                   (* null or undefined *)
| ElementaryTypeName (name : jsstring)
| UserDefinedTypeName (namePath : jsstring)
| ArrayTypeName (baseTypeName : TypeNode)
| Mapping (keyType valueType : TypeNode)
| OtherTypeName (name : option jsstring).

Record AstParam : Type := mkAstParam {
  ap_name : option jsstring;
  ap_typeName : TypeNode;
  ap_isIndexed : bool
}.

Record AstVariable : Type := mkAstVariable {
  av_name : jsstring;
  av_typeName : TypeNode;
  av_visibility : option jsstring;
  av_isDeclaredConst : bool;
  av_isImmutable : bool
}.

Inductive SubNode : Type :=
| StateVariableDeclaration (variables : list AstVariable)
| FunctionDefinition (name : option jsstring) (isCtor : bool)
    (visibility stateMutability : option jsstring)
    (parameters returnParameters : list AstParam)
| EventDefinition (name : jsstring) (parameters : list AstParam)
| OtherSubNode.

Inductive AstChild : Type :=
| PragmaDirective (value : option jsstring)
| ImportDirective (path : jsstring)
| ContractDefinition (name : jsstring) (kind : option ContractKind)
    (bases : list (option jsstring)) (subNodes : list SubNode)
| OtherChild.

Definition Ast : Type := list AstChild.

(** What the [try] block of [parseSolidity] does with an installed
    parser: [parser.parse(source, ...)] returns a tree that the block
    walks, or an exception is thrown and caught. *)
Inductive ParseOutcome : Type :=
| Threw (message : jsstring)
| Parsed (ast : Ast).

Definition Parser : Type := jsstring -> ParseOutcome.

(** Lines 52-61. *)
Fixpoint getTypeName (typeNode : TypeNode) : jsstring :=
  match typeNode with
  | NoTypeNode => str "unknown"
  | ElementaryTypeName name => name
  | UserDefinedTypeName namePath => namePath
  | ArrayTypeName b => getTypeName b ++ str "[]"
  | Mapping k v =>
      str "mapping(" ++ getTypeName k ++ str " => " ++ getTypeName v ++ str ")"
  | OtherTypeName name => orElse name (str "unknown")
  end.

(** Lines 63-65. *)
Definition getParams (params : list AstParam) : list Param :=
  map (fun p => {| p_name := orElse (ap_name p) [];
                   p_typeName := getTypeName (ap_typeName p) |}) params.

(** Lines 108-139: one sub-node of a contract definition. *)
Definition addSubNode (acc : list StateVariable * list FunctionDef * list EventDef)
    (node : SubNode) : list StateVariable * list FunctionDef * list EventDef :=
  let '(stateVariables, functions, events) := acc in
  match node with
  | StateVariableDeclaration variables =>
      (stateVariables ++
       map (fun v => {| sv_name := av_name v;
                        sv_typeName := getTypeName (av_typeName v);
                        sv_visibility := orElse (av_visibility v) (str "internal");
                        sv_constant := av_isDeclaredConst v;
                        sv_immutable := av_isImmutable v |}) variables,
       functions, events)
  | FunctionDefinition name isCtor visibility stateMutability parameters returnParameters =>
      (stateVariables,
       functions ++
       [{| fn_name := orElse name (if isCtor then str "constructor" else str "fallback");
           fn_visibility := orElse visibility (str "public");
           fn_stateMutability := orElse stateMutability (str "nonpayable");
           fn_parameters := getParams parameters;
           fn_returnParameters := getParams returnParameters;
           isConstructor := isCtor;
           isModifier := false |}],
       events)
  | EventDefinition name parameters =>
      (stateVariables, functions,
       events ++
       [{| ev_name := name;
           ev_parameters :=
             map (fun p => {| ep_name := orElse (ap_name p) [];
                              ep_typeName := getTypeName (ap_typeName p);
                              ep_indexed := ap_isIndexed p |}) parameters |}])
  | OtherSubNode => acc
  end.

(** Lines 101-149. *)
Definition contractsOfAst (ast : Ast) : list ContractDef :=
  flat_map (fun n =>
    match n with
    | ContractDefinition name kind bases subNodes =>
        let '(stateVariables, functions, events) :=
          fold_left addSubNode subNodes ([], [], []) in
        [{| c_name := name;
            c_kind := match kind with Some k => k | None => KContract end;
            baseContracts := map (fun b => orElse b []) bases;
            stateVariables := stateVariables;
            functions := functions;
            events := events |}]
    | _ => []
    end) ast.

(** Lines 92-93. *)
Definition pragmaOfAst (ast : Ast) : jsstring :=
  match find (fun n => match n with PragmaDirective _ => true | _ => false end) ast with
  | Some (PragmaDirective value) => orElse value (str "unknown")
  | _ => str "unknown"
  end.

(** Lines 96-98. *)
Definition importsOfAst (ast : Ast) : list jsstring :=
  flat_map (fun n => match n with ImportDirective path => [path] | _ => [] end) ast.

(** Lines 68-156.  The first argument is the value of the global
    [window.__solidityParser] when the function is called: [None] when
    it is absent or falsy. *)
Definition parseSolidity (hook : option Parser) (source : jsstring) : ParsedContract :=
  let errors : list jsstring := [] in
  match hook with
  | None => regexFallbackParser source
  | Some parser =>
      match parser source with
      | Parsed ast =>
          buildResult (contractsOfAst ast) (pragmaOfAst ast) (importsOfAst ast)
                      source errors
      | Threw message =>
          let errors := errors ++ [str "AST parse error: " ++ message] in
          regexFallbackParser source
      end
  end.

(** ** The mapping-rule engine and the mapping count of the cost estimator *)

Inductive MappingCategory : Type :=
| CatState | CatToken | CatAccess | CatEvent | CatPattern | CatStorage.

Definition category_eqb (a b : MappingCategory) : bool :=
  match a, b with
  | CatState, CatState | CatToken, CatToken | CatAccess, CatAccess
  | CatEvent, CatEvent | CatPattern, CatPattern | CatStorage, CatStorage => true
  | _, _ => false
  end.

(** A [MappingRule] with the fields that [applyMappingRules] reads or
    that tell the rules apart; the free texts ([evmDetail],
    [solanaDetail], [rationale], [anchor_snippet], [docs_link], the two
    type hints) are left out: no branch depends on them. *)
Record MappingRule : Type := mkRule {
  id : jsstring;
  category : MappingCategory;
  evmConcept : jsstring;
  solanaConcept : jsstring;
  rule_complexity : Complexity
}.

(** An entry of the catalogue has no id yet. *)
Definition entry (cat : MappingCategory) (evm sol : jsstring) (c : Complexity)
  : MappingRule := mkRule [] cat evm sol c.

Definition STATIC_RULES : list MappingRule :=
  [ entry CatState (str "contract storage") (str "#[account] struct") Medium;
    entry CatStorage (str "mapping(K => V)") (str "PDA per key") High;
    entry CatAccess (str "address owner (Ownable)")
          (str "authority: Pubkey + Signer constraint") Low;
    entry CatAccess (str "AccessControl (roles)")
          (str "RoleGrant PDA per (role, user)") High;
    entry CatToken (str "ERC-20 token") (str "SPL Token program") Low;
    entry CatToken (str "ERC-721 NFT") (str "SPL Token (supply=1) + Metaplex") Medium;
    entry CatEvent (str "Solidity event / emit") (str "Anchor #[event] + emit!()") Low;
    entry CatPattern (str "constructor()") (str "initialize instruction") Low;
    entry CatPattern
          (str "require(condition, " ++ [dquote] ++ str "msg" ++ [dquote] ++ str ")")
          (str "require!(condition, ErrorCode::Variant)") Low;
    entry CatPattern (str "block.timestamp") (str "Clock::get()?.unix_timestamp") Low;
    (* the dash of the source text, U+2014, is given by its UTF-8 bytes *)
    entry CatPattern (str "ReentrancyGuard / nonReentrant")
          (str "Largely not needed " ++ ["226"; "128"; "148"]%char
           ++ str " Solana runtime prevents most reentrancy") Low;
    entry CatPattern (str "payable / msg.value")
          (str "SOL transfer via SystemProgram::transfer") Medium ].

(** [STATIC_RULES.find(p)!]; spreading a missing entry would add no field. *)
Definition findRule (p : MappingRule -> bool) : MappingRule :=
  match find p STATIC_RULES with
  | Some r => r
  | None => entry CatState [] [] Low
  end.

Definition byConcept (c : string) : MappingRule :=
  findRule (fun r => jseq (evmConcept r) (str c)).

Definition showNat (n : nat) : jsstring :=
  str (NilEmpty.string_of_uint (Nat.to_uint n)).

(** The rules pushed so far and the counter behind [nextId]. *)
Definition RuleState : Type := (nat * list MappingRule)%type.

(** [rules.push({ id: nextId(), ...r })] *)
Definition push (r : MappingRule) (st : RuleState) : RuleState :=
  let counter := S (fst st) in
  (counter,
   snd st ++ [mkRule (str "rule-" ++ showNat counter) (category r) (evmConcept r)
                     (solanaConcept r) (rule_complexity r)]).

Definition withConcept (r : MappingRule) (evm : jsstring) : MappingRule :=
  mkRule (id r) (category r) evm (solanaConcept r) (rule_complexity r).

Definition isMappingVar (v : StateVariable) : bool :=
  startsWith (sv_typeName v) (str "mapping").

(** Lines 277-310 of the rule engine: the rule of one state variable. *)
Definition ruleOfStateVariable (v : StateVariable) : MappingRule :=
  if isMappingVar v then
    withConcept (byConcept "mapping(K => V)") (str "mapping: " ++ sv_name v)
  else if includes (toLowerCase (sv_name v)) (str "owner")
          && jseq (sv_typeName v) (str "address") then
    byConcept "address owner (Ownable)"
  else
    entry CatState (sv_typeName v ++ str " " ++ sv_name v) (str "Account field") Low.

Definition isPublicFn (f : FunctionDef) : bool :=
  negb (isConstructor f)
  && (jseq (fn_visibility f) (str "public") || jseq (fn_visibility f) (str "external")).

Definition kind_is_contract (c : ContractDef) : bool :=
  match c_kind c with KContract => true | _ => false end.

(** [parsed.contracts.find((c) => c.kind === "contract") ?? parsed.contracts[0]] *)
Definition mainContractOf (parsed : ParsedContract) : option ContractDef :=
  match find kind_is_contract (contracts parsed) with
  | Some c => Some c
  | None => nth_error (contracts parsed) 0
  end.

(** Steps 1 to 4: the rules of the main contract. *)
Definition contractRules (mainContract : ContractDef) (st : RuleState) : RuleState :=
  let st := push (withConcept (byConcept "contract storage")
                    (str "contract " ++ c_name mainContract ++ str " storage")) st in
  let st := fold_left (fun st v => push (ruleOfStateVariable v) st)
                      (stateVariables mainContract) st in
  let publicFns := filter isPublicFn (functions mainContract) in
  let st :=
    if 0 <? length publicFns then
      push (mkRule [] (category (byConcept "constructor()"))
              (showNat (length publicFns) ++ str " public/external functions")
              (str "Anchor instructions")
              (rule_complexity (byConcept "constructor()"))) st
    else st in
  if 0 <? length (events mainContract) then
    push (withConcept (findRule (fun r => category_eqb (category r) CatEvent))
            (showNat (length (events mainContract)) ++ str " events")) st
  else st.

(** Lines 267-383 of the rule engine. *)
Definition applyMappingRules (parsed : ParsedContract) : list MappingRule :=
  let st : RuleState := (0, []) in
  let st := match mainContractOf parsed with
            | Some mainContract => contractRules mainContract st
            | None => st
            end in
  let st := if isERC20 parsed then push (byConcept "ERC-20 token") st else st in
  let st := if isERC721 parsed then push (byConcept "ERC-721 NFT") st else st in
  let st :=
    if hasOwnable parsed
       && negb (existsb (fun r => includes (evmConcept r) (str "owner")) (snd st))
    then push (byConcept "address owner (Ownable)") st else st in
  let st := if hasAccessControl parsed
            then push (byConcept "AccessControl (roles)") st else st in
  let patterns :=
    filter (fun r => category_eqb (category r) CatPattern
                     && negb (existsb (fun x => jseq (evmConcept x) (evmConcept r))
                                      (snd st)))
           STATIC_RULES in
  snd (fold_left (fun st rule => push rule st) patterns st).

(** A rule that turns a mapping into one PDA per key. *)
Definition isPdaRule (r : MappingRule) : bool :=
  jseq (solanaConcept r) (str "PDA per key").

Definition pdaRuleCount (rules : list MappingRule) : nat :=
  length (filter isPdaRule rules).

(** The count of PDA rules among the rules pushed so far. *)
Definition pdaOf (st : RuleState) : nat := pdaRuleCount (snd st).

(** [mappingCount] of [estimateCosts] (lines 46-48 of the cost estimator). *)
Definition mappingCount (parsed : ParsedContract) : nat :=
  length (filter isMappingVar (flat_map stateVariables (contracts parsed))).

(** ** Definitions that follow the words of the specification *)

(** "Total function count summed across all contracts". *)
Definition totalFunctions (cs : list ContractDef) : nat :=
  list_sum (map (fun c => length (functions c)) cs).

(** "Total state-variable count". *)
Definition totalStateVariables (cs : list ContractDef) : nat :=
  list_sum (map (fun c => length (stateVariables c)) cs).

(** "The union of all contracts' function names (case-insensitive)
    contains [n]". *)
Definition hasFunctionNamed (cs : list ContractDef) (n : jsstring) : Prop :=
  exists c f, In c cs /\ In f (functions c) /\ toLowerCase (fn_name f) = n.

(** "Its truly matching closing brace": a scan that knows the comments
    and the string literals of Solidity, and counts only the braces
    outside them. *)
Inductive lexMode : Type :=
| InCode
| InLineComment
| InCommentOpen                  (* between the two characters that open a block comment *)
| InBlockComment
| InCommentClose                 (* between the two characters that close it *)
| InString (quote : ascii)
| InEscape (quote : ascii).      (* after a backslash in a string literal *)

Definition nextIs (c : ascii) (rest : list ascii) : bool :=
  match rest with
  | x :: _ => Ascii.eqb x c
  | [] => false
  end.

(** The index of the brace that closes the body whose text starts at
    index [i] with [rest]; [depth] counts the braces opened inside it. *)
Fixpoint matchingBrace_spec (rest : list ascii) (mode : lexMode) (depth i : nat)
  : option nat :=
  match rest with
  | [] => None
  | c :: rest' =>
      match mode with
      | InCode =>
          if Ascii.eqb c "{" then matchingBrace_spec rest' InCode (S depth) (S i)
          else if Ascii.eqb c "}" then
            match depth with
            | 0 => Some i
            | S d => matchingBrace_spec rest' InCode d (S i)
            end
          else if Ascii.eqb c dquote || Ascii.eqb c squote then
            matchingBrace_spec rest' (InString c) depth (S i)
          else if Ascii.eqb c "/" && nextIs "/" rest' then
            matchingBrace_spec rest' InLineComment depth (S i)
          else if Ascii.eqb c "/" && nextIs "*" rest' then
            matchingBrace_spec rest' InCommentOpen depth (S i)
          else matchingBrace_spec rest' InCode depth (S i)
      | InLineComment =>
          matchingBrace_spec rest'
            (if isLineTerminator c then InCode else InLineComment) depth (S i)
      | InCommentOpen => matchingBrace_spec rest' InBlockComment depth (S i)
      | InBlockComment =>
          matchingBrace_spec rest'
            (if Ascii.eqb c "*" && nextIs "/" rest' then InCommentClose
             else InBlockComment) depth (S i)
      | InCommentClose => matchingBrace_spec rest' InCode depth (S i)
      | InString q =>
          matchingBrace_spec rest'
            (if Ascii.eqb c "\" then InEscape q
             else if Ascii.eqb c q then InCode else InString q) depth (S i)
      | InEscape q => matchingBrace_spec rest' (InString q) depth (S i)
      end
  end.

(** The body span the specification asks for: the text between the
    opening brace and its truly matching closing brace. *)
Definition bodySpan_spec (source : jsstring) (startIdx : nat) : option jsstring :=
  match matchingBrace_spec (skipn startIdx source) InCode 0 startIdx with
  | Some j => Some (slice source startIdx j)
  | None => None
  end.

(** The leading word of a text. *)
Fixpoint takeWord (s : list ascii) : list ascii :=
  match s with
  | c :: s' => if isSpace c then [] else c :: takeWord s'
  | [] => []
  end.

(** The text after the leading word. *)
Fixpoint dropWord (s : list ascii) : list ascii :=
  match s with
  | c :: s' => if isSpace c then s else dropWord s'
  | [] => []
  end.

(** The last word of a text that ends with a word. *)
Definition lastWord (token : list ascii) : list ascii := rev (takeWord (rev token)).

(** The parameter rule in the words of the specification: the last
    word is the name and everything before it is the type; a token of one
    word is a type with an empty name. *)
Definition parseParam_spec (token : jsstring) : Param :=
  let beforeIt := trim (rev (dropWord (rev token))) in
  match beforeIt with
  | [] => {| p_name := []; p_typeName := token |}
  | _ :: _ => {| p_name := lastWord token; p_typeName := beforeIt |}
  end.

(** "The count of [hasMappings]-triggering entries": the occurrences of
    the text that sets [hasMappings]. *)
Fixpoint countOccurrences (s needle : jsstring) : nat :=
  (if startsWith s needle then 1 else 0)
  + match s with
    | [] => 0
    | _ :: s' => countOccurrences s' needle
    end.

(** ** Notions used to state the properties *)


(** The count kept by the brace counter: opening minus closing braces
    of a text, wherever they stand. *)
Fixpoint braceDepth (s : list ascii) : Z :=
  match s with
  | [] => 0
  | c :: s' =>
      (if Ascii.eqb c "{" then 1 else if Ascii.eqb c "}" then -1 else 0)
      + braceDepth s'
  end%Z.

(** Within [s], the text after an opening brace, no closing brace brings
    the count of open braces back to zero. *)
Definition staysOpen (s : list ascii) : Prop :=
  forall p q, s = p ++ q -> (0 <= braceDepth p)%Z.

(** [staysOpen] by computation, for concrete texts. *)
Definition staysOpenb (s : list ascii) : bool :=
  forallb (fun n => (0 <=? braceDepth (firstn n s))%Z) (seq 0 (S (length s))).



(** A word: a non-empty text without white space. *)
Definition isWordText (w : list ascii) : Prop :=
  w <> [] /\ Forall (fun c => isSpace c = false) w.

(** A text that starts with white space. *)
Definition startsWithSpace (s : list ascii) : Prop :=
  exists c s', s = c :: s' /\ isSpace c = true.

(** The leading white space of a text. *)
Fixpoint takeSpaces (s : list ascii) : list ascii :=
  match s with
  | c :: s' => if isSpace c then c :: takeSpaces s' else []
  | [] => []
  end.

(** The parts of a text between its runs of white space: what
    [split(/\s+/)] returns.  [inSep] tells that the scan is inside a
    run; [part] holds, reversed, the current part. *)
Fixpoint splitWords (inSep : bool) (part : list ascii) (s : list ascii)
  : list jsstring :=
  match s with
  | [] => [rev part]
  | c :: s' =>
      if isSpace c then
        if inSep then splitWords true [] s'
        else rev part :: splitWords true [] s'
      else splitWords false (c :: part) s'
  end.

(** [st'] is reached from [st] by consuming [mid]. *)
Definition advances (st st' : mstate) (mid : list ascii) : Prop :=
  before st' = rev mid ++ before st /\ after st = mid ++ after st'.

(** ** Sources of the scenarios *)

(** Scenario 1: a minimal ERC-20. *)
Definition scenario1 : jsstring :=
  str "contract T { function transfer(address,uint256) public returns(bool){} function approve(address,uint256) public returns(bool){} function transferFrom(address,address,uint256) public returns(bool){} }".

(** The tree a grammar-based parser returns for [scenario1]. *)
Definition scenario1Ast : Ast :=
  let unnamed (t : string) := mkAstParam None (ElementaryTypeName (str t)) false in
  let fn (name : string) (params : list string) :=
    FunctionDefinition (Some (str name)) false (Some (str "public")) None
                       (map unnamed params) [unnamed "bool"%string] in
  [ContractDefinition (str "T") (Some KContract) []
     [fn "transfer" ["address"; "uint256"];
      fn "approve" ["address"; "uint256"];
      fn "transferFrom" ["address"; "address"; "uint256"]]%string].

(** Scenario 3: one mapping. *)
Definition scenario3 : jsstring :=
  str "contract M { mapping(address => uint256) public balances; }".

(** Scenario 4: a function declared before the constructor. *)
Definition scenario4 : jsstring :=
  str "contract K { function foo() public {} constructor(address a) { owner = a; } }".

(** Scenario 5: sixteen functions and no state variable. *)
Definition scenario5 : jsstring :=
  str "contract S { function f1() public {} function f2() public {} function f3() public {} function f4() public {} function f5() public {} function f6() public {} function f7() public {} function f8() public {} function f9() public {} function f10() public {} function f11() public {} function f12() public {} function f13() public {} function f14() public {} function f15() public {} function f16() public {} }".

(** A contract whose body holds a closing brace in a string literal. *)
Definition braceInString : jsstring :=
  str "contract B { string s = " ++ [dquote] ++ str "}" ++ [dquote]
  ++ str "; uint y; }".

(** A terminated contract followed by one whose brace is never closed. *)
Definition unterminatedSource : jsstring :=
  str "contract A { uint x; }" ++ [nl] ++ str "contract C { uint z;".

(** A file with two contracts, each with one mapping, and its tree. *)
Definition twoMappings : jsstring :=
  str "contract A { mapping(address => uint256) public balances; }" ++ [nl]
  ++ str "contract B { mapping(address => bool) public frozen; }".

Definition twoMappingsAst : Ast :=
  let mappingVar (name value : string) :=
    StateVariableDeclaration
      [mkAstVariable (str name)
         (Mapping (ElementaryTypeName (str "address")) (ElementaryTypeName (str value)))
         (Some (str "public")) false false] in
  [ContractDefinition (str "A") (Some KContract) [] [mappingVar "balances" "uint256"]%string;
   ContractDefinition (str "B") (Some KContract) [] [mappingVar "frozen" "bool"]%string].


(** ** Notions used to state further properties *)

(** The numbers of the capture groups of a pattern. *)
Fixpoint groupsOf (r : regex) : list nat :=
  match r with
  | Seq r1 r2 | Alt r1 r2 => groupsOf r1 ++ groupsOf r2
  | Star r1 => groupsOf r1
  | Group n r1 => n :: groupsOf r1
  | _ => []
  end.

(** [m1] starts before [m2], which starts at or after the end of [m1]. *)
Definition matchBefore (m1 m2 : rmatch) : Prop :=
  m_index m1 < m_index m2 /\ startIdxOf m1 <= m_index m2.

(** A non-empty text of word characters. *)
Definition isIdentifier (w : jsstring) : Prop :=
  w <> [] /\ Forall (fun c => isWord c = true) w.

(** The rank of a complexity tier. *)
Definition tierRank (c : Complexity) : nat :=
  match c with Low => 0 | Medium => 1 | High => 2 end.

(** The number of occurrences of a character in a text. *)
Fixpoint occurrencesOf (c : ascii) (s : list ascii) : nat :=
  match s with
  | [] => 0
  | x :: s' => (if Ascii.eqb x c then 1 else 0) + occurrencesOf c s'
  end.


(** The texts a pattern can consume, whatever surrounds them. *)
Inductive lang : regex -> list ascii -> Prop :=
| lang_Eps : lang Eps []
| lang_Chr c : lang (Chr c) [c]
| lang_Class neg items c : inClass neg items c = true -> lang (Class neg items) [c]
| lang_Seq r1 r2 s1 s2 : lang r1 s1 -> lang r2 s2 -> lang (Seq r1 r2) (s1 ++ s2)
| lang_AltL r1 r2 s : lang r1 s -> lang (Alt r1 r2) s
| lang_AltR r1 r2 s : lang r2 s -> lang (Alt r1 r2) s
| lang_StarNil r : lang (Star r) []
| lang_StarCons r s1 s2 : lang r s1 -> lang (Star r) s2 -> lang (Star r) (s1 ++ s2)
| lang_Group n r s : lang r s -> lang (Group n r) s
| lang_Bol : lang Bol []
| lang_WordBoundary : lang WordBoundary [].

(** The type part of the state variable pattern (group 1). *)
Definition typeRe : regex :=
  Seqs [Alts [L "mapping"; L "address";
              Seq (L "uint") (Star digit);
              Seq (L "int") (Star digit);
              L "bool";
              Seq (L "bytes") (Star digit);
              L "string"]
             (Plus (Class false [CWord; CChr "."]));
        Opt (L "[]")].

(** A character of a type name: a word character or a dot. *)
Definition isTypeChar (c : ascii) : bool := isWord c || Ascii.eqb c ".".


(** A contract with an array, declared public, and an address. *)
Definition arraySource : jsstring :=
  str "contract A {" ++ [nl] ++ str "  uint[] public values;" ++ [nl]
  ++ str "  address private owner;" ++ [nl] ++ str "}".


(** A contract with an event whose second parameter has a name that
    holds the word indexed. *)
Definition eventSource : jsstring :=
  str "contract E { event Sent(address indexed to, uint indexedAmount); }".


(** The capture groups of a pattern, each with the pattern it encloses. *)
Fixpoint groupBodies (r : regex) : list (nat * regex) :=
  match r with
  | Seq r1 r2 | Alt r1 r2 => groupBodies r1 ++ groupBodies r2
  | Star r1 => groupBodies r1
  | Group n r1 => (n, r1) :: groupBodies r1
  | _ => []
  end.

(** [b] stands somewhere in [s]. *)
Definition factorOf (b s : list ascii) : Prop := exists pre post, s = pre ++ b ++ post.

(** A contract with two base contracts. *)
Definition ownedSource : jsstring :=
  str "contract Vault is Ownable, Pausable {" ++ [nl] ++ str "  uint total;" ++ [nl]
  ++ str "}".


(** The id of the [n]-th rule. *)
Definition ruleId (n : nat) : jsstring := str "rule-" ++ showNat n.

(** The EVM concepts of the common patterns of the catalogue. *)
Definition patternConcepts : list jsstring :=
  map evmConcept (filter (fun r => category_eqb (category r) CatPattern) STATIC_RULES).


(** The counter is the number of rules pushed, and the ids are the
    successive numbers from 1 on. *)
Definition numbered (st : RuleState) : Prop :=
  fst st = length (snd st) /\ map id (snd st) = map ruleId (seq 1 (fst st)).


(** ** The Anchor skeleton generator

    [src/utils/anchorGenerator.ts]: the name helpers and
    [generateAnchorSkeleton]. The content of a generated file, a text
    template, is left out of [AnchorFile]. *)

(** [/([A-Z])/] *)
Definition upperRe : regex :=
  Group 1 (Class false (map CChr (str "ABCDEFGHIJKLMNOPQRSTUVWXYZ"))).

(** [s.replace(r, ...)] for a pattern with the [g] flag: the text
    between two matches is kept and each match is replaced by
    [replacement m]; the search resumes as in [matchAllFrom]. *)
Fixpoint replaceAllFrom (fuel : nat) (r : regex) (replacement : rmatch -> jsstring)
    (bef aft : list ascii) : jsstring :=
  match fuel with
  | 0 => aft
  | S fuel' =>
      match search r bef aft with
      | None => aft
      | Some m =>
          firstn (m_index m - length bef) aft ++ replacement m ++
          match m_text m, m_after m with
          | _ :: _, _ => replaceAllFrom fuel' r replacement (m_before m) (m_after m)
          | [], c :: aft' => c :: replaceAllFrom fuel' r replacement (c :: m_before m) aft'
          | [], [] => []
          end
      end
  end.

Definition replaceAll (r : regex) (replacement : rmatch -> jsstring) (s : jsstring)
  : jsstring :=
  replaceAllFrom (S (length s)) r replacement [] s.

(** Lines 376-381.  The replacement text [_$1] is an underscore and
    group 1.  The last pattern, [^_] without the [m] flag, can match at
    index 0 only: the search is one attempt there. *)
Definition toSnakeCase (s : jsstring) : jsstring :=
  let s1 := replaceAll upperRe (fun m => "_"%char :: group' m 1) s in
  let s2 := toLowerCase s1 in
  match matchAt (Chr "_") [] s2 with
  | Some m => m_after m
  | None => s2
  end.

Inductive Language : Type := Rust | Toml | Typescript.

Record AnchorFile : Type := mkAnchorFile {
  filename : jsstring;
  language : Language
}.

Record AnchorSkeleton : Type := mkAnchorSkeleton {
  programName : jsstring;
  files : list AnchorFile;
  instructions : list jsstring;
  accountStructs : list jsstring;
  warnings : list jsstring
}.

(** The dash of the warnings, U+2014, given by its UTF-8 bytes. *)
Definition emDash : jsstring := ["226"; "128"; "148"]%char.

Section AnchorGenerator.

(** [String.prototype.toUpperCase], which takes some Latin-1 code units
    out of Latin-1 and is therefore not defined here: the generator is
    read for any such function. *)
Variable toUpperCase : jsstring -> jsstring.

(** Lines 383-385. *)
Definition capitalize (s : jsstring) : jsstring :=
  toUpperCase (firstn 1 s) ++ skipn 1 s.

(** Lines 387-393. *)
Definition buildAccountStructNames (contract : ContractDef) : list jsstring :=
  (c_name contract ++ str "State")
  :: map (fun v => capitalize (toSnakeCase (sv_name v)) ++ str "Entry")
         (filter isMappingVar (stateVariables contract)).

(** Lines 21-56. *)
Definition generateAnchorSkeleton (parsed : ParsedContract) : AnchorSkeleton :=
  match mainContractOf parsed with
  | None =>
      {| programName := str "migration_example";
         files := [];
         instructions := [];
         accountStructs := [];
         warnings := [str "No contract found."] |}
  | Some mainContract =>
      let programName := toSnakeCase (c_name mainContract) in
      let warnings : list jsstring := [] in
      let warnings :=
        if isERC20 parsed
        then warnings ++ [str "ERC-20 detected " ++ emDash
                          ++ str " consider using SPL Token instead of reimplementing."]
        else warnings in
      let warnings :=
        if isERC721 parsed
        then warnings ++ [str "ERC-721 detected " ++ emDash
                          ++ str " consider Metaplex Token Metadata program."]
        else warnings in
      let warnings :=
        match complexity parsed with
        | High => warnings ++ [str "High complexity contract " ++ emDash
                               ++ str " manual review of account sizing required."]
        | _ => warnings
        end in
      let instructions :=
        map (fun f => toSnakeCase (fn_name f))
            (filter isPublicFn (functions mainContract)) in
      let accountStructs := buildAccountStructNames mainContract in
      {| programName := programName;
         instructions := instructions;
         accountStructs := accountStructs;
         warnings := warnings;
         files :=
           [ mkAnchorFile (str "programs/" ++ programName ++ str "/src/lib.rs") Rust;
             mkAnchorFile (str "Anchor.toml") Toml;
             mkAnchorFile (str "programs/" ++ programName ++ str "/Cargo.toml") Toml;
             mkAnchorFile (str "tests/" ++ programName ++ str ".ts") Typescript ] |}
  end.

End AnchorGenerator.

(** ** The gas estimate of the cost estimator

    [src/utils/costCalculator.ts], lines 41-57: the quantities that are
    integers.  They stay far below 2^53 for any text, so that the
    floating-point arithmetic of the source is exact on them. *)

Definition sourceLines (source : jsstring) : N := N.of_nat (length (splitOn nl source)).

Definition fnCount (parsed : ParsedContract) : N :=
  fold_left (fun sum c => sum + N.of_nat (length (functions c)))%N (contracts parsed) 0%N.

Definition stateVarCount (parsed : ParsedContract) : N :=
  fold_left (fun sum c => sum + N.of_nat (length (stateVariables c)))%N
            (contracts parsed) 0%N.

Definition estimatedBytecode (source : jsstring) : N :=
  N.min (sourceLines source * 200) 24576.

Definition deployGas (source : jsstring) (parsed : ParsedContract) : N :=
  (21000 + estimatedBytecode source * 200 + fnCount parsed * 15000
   + stateVarCount parsed * 5000)%N.

Definition perTxGas (parsed : ParsedContract) : N :=
  (21000 + 30000 + fnCount parsed * 2000)%N.

(** The transformation of [toSnakeCase], character by character. *)
Definition isUpperAscii (c : ascii) : bool := in_range 65 90 c.

Definition snakeChars (s : jsstring) : jsstring :=
  flat_map (fun c => if isUpperAscii c then ["_"%char; lowerChar c] else [lowerChar c]) s.

Definition dropUnderscore (s : jsstring) : jsstring :=
  match s with
  | c :: t => if Ascii.eqb c "_" then t else s
  | [] => []
  end.

(** [toUpperCase] on the letters a to z, for texts of ASCII characters. *)
Definition upperAscii (s : jsstring) : jsstring :=
  map (fun c => if in_range 97 122 c then ascii_of_N (code c - 32) else c) s.

(** An interface with three function declarations and no function body. *)
Definition interfaceSource : jsstring :=
  str "interface IToken {" ++ [nl]
  ++ str "  function transfer(address to, uint256 amount) external returns (bool);" ++ [nl]
  ++ str "  function approve(address spender, uint256 amount) external returns (bool);"
  ++ [nl]
  ++ str "  function transferFrom(address a, address b, uint256 n) external returns (bool);"
  ++ [nl] ++ str "}".



(** The EVM and Solana concepts of the rules of a category, in the
    order of the list. *)
Definition rulesOfCategory (cat : MappingCategory) (rules : list MappingRule)
  : list (jsstring * jsstring) :=
  map (fun r => (evmConcept r, solanaConcept r))
      (filter (fun r => category_eqb (category r) cat) rules).


(** * Properties *)

(** ** Strings and lists *)

Lemma jseq_eq (a b : jsstring) : jseq a b = true <-> a = b.
Proof.
  revert b; induction a as [|x a IH]; intros [|y b]; simpl; split;
    try congruence; try reflexivity.
  - intros H. apply andb_prop in H as [Hx Hab].
    apply Ascii.eqb_eq in Hx. apply IH in Hab. now subst.
  - intros H. injection H as -> ->.
    rewrite Ascii.eqb_refl. simpl. now apply IH.
Qed.

Lemma jseq_refl (a : jsstring) : jseq a a = true.
Proof. now apply jseq_eq. Qed.

Lemma existsb_jseq (l : list jsstring) (x : jsstring) :
  existsb (jseq x) l = true <-> In x l.
Proof.
  rewrite existsb_exists. split.
  - intros (y & Hy & E). apply jseq_eq in E. now subst.
  - intros H. exists x. split; [assumption | apply jseq_refl].
Qed.

Lemma firstn_length_app {A} (l rest : list A) : firstn (length l) (l ++ rest) = l.
Proof. induction l as [|a l IH]; simpl; [reflexivity | now rewrite IH]. Qed.

Lemma last_cons_nonempty {A} (a : A) (l : list A) (d : A) :
  l <> [] -> last (a :: l) d = last l d.
Proof. destruct l; [contradiction | reflexivity]. Qed.

Lemma nth_error_last {A} (l : list A) (d : A) :
  l <> [] -> nth_error l (length l - 1) = Some (last l d).
Proof.
  induction l as [|a l IH]; intros H; [contradiction|].
  destruct l as [|b l]; [reflexivity|].
  specialize (IH ltac:(discriminate)).
  cbn [length] in *. replace (S (S (length l)) - 1) with (S (S (length l) - 1)) by lia.
  exact IH.
Qed.

Lemma orElse_nonempty (w d : jsstring) : w <> [] -> orElse (Some w) d = w.
Proof. destruct w; [contradiction | reflexivity]. Qed.

Lemma existsb_rev {A} (p : A -> bool) (l : list A) : existsb p (rev l) = existsb p l.
Proof.
  induction l as [|a l IH]; [reflexivity|].
  cbn [rev existsb]. rewrite existsb_app, IH. cbn [existsb].
  rewrite orb_false_r. apply orb_comm.
Qed.

Lemma filter_flat_map_le {A B} (p : B -> bool) (f : A -> list B) (l : list A) (a : A) :
  In a l -> length (filter p (f a)) <= length (filter p (flat_map f l)).
Proof.
  induction l as [|x l IH]; intros H; [destruct H|].
  simpl. rewrite filter_app, length_app.
  destruct H as [-> | H]; [lia | specialize (IH H); lia].
Qed.

Lemma fold_left_add_length {A B} (f : A -> list B) (l : list A) (n : nat) :
  fold_left (fun s c => s + length (f c)) l n
  = n + list_sum (map (fun c => length (f c)) l).
Proof.
  revert n; induction l as [|a l IH]; intros n; simpl.
  - lia.
  - rewrite IH. lia.
Qed.

Lemma includes_countOccurrences (s needle : jsstring) :
  includes s needle = true <-> 0 < countOccurrences s needle.
Proof.
  induction s as [|c s IH]; cbn [includes countOccurrences].
  - destruct (startsWith [] needle); simpl; split; intros H;
      first [reflexivity | discriminate H | lia].
  - destruct (startsWith (c :: s) needle); cbn [orb].
    + split; intros; [lia | reflexivity].
    + exact IH.
Qed.

(** ** Invariants of the matcher *)

Lemma advances_refl (st : mstate) : advances st st [].
Proof. split; reflexivity. Qed.

Lemma advances_trans (st1 st2 st3 : mstate) (m1 m2 : list ascii) :
  advances st1 st2 m1 -> advances st2 st3 m2 -> advances st1 st3 (m1 ++ m2).
Proof.
  intros [B1 A1] [B2 A2]. split.
  - rewrite B2, B1, rev_app_distr. now rewrite app_assoc.
  - rewrite A1, A2. now rewrite app_assoc.
Qed.

Lemma step1_advances (st st' : mstate) (ok : ascii -> bool) :
  step1 st ok = Some st' -> exists c, ok c = true /\ advances st st' [c].
Proof.
  unfold step1. destruct (after st) as [|c rest] eqn:E; [discriminate|].
  destruct (ok c) eqn:Hc; [|discriminate].
  intros H. injection H as <-. exists c. split; [exact Hc|].
  split; [reflexivity | exact E].
Qed.

(** A successful run of the matcher hands to its continuation a state
    reached by consuming a piece of the text. *)
Lemma mt_sound (r : regex) : forall (k : mstate -> option mstate) (st res : mstate),
  mt r k st = Some res ->
  exists st' mid, advances st st' mid /\ k st' = Some res.
Proof.
  induction r as [| c | neg items | r1 IH1 r2 IH2 | r1 IH1 r2 IH2 | r1 IH1
                  | n r1 IH1 | | ]; intros k st res H; cbn [mt] in H.
  - exists st, []. split; [apply advances_refl | exact H].
  - destruct (step1 st (Ascii.eqb c)) as [st'|] eqn:E; [|discriminate].
    apply step1_advances in E as (x & _ & Hx). now exists st', [x].
  - destruct (step1 st (inClass neg items)) as [st'|] eqn:E; [|discriminate].
    apply step1_advances in E as (x & _ & Hx). now exists st', [x].
  - apply IH1 in H as (st1 & m1 & A1 & H).
    apply IH2 in H as (st2 & m2 & A2 & H).
    exists st2, (m1 ++ m2). split; [now apply (advances_trans _ _ _ _ _ A1) | exact H].
  - destruct (mt r1 k st) eqn:E.
    + injection H as ->. now apply IH1 in E.
    + now apply IH2 in H.
  - remember (length (after st)) as fuel eqn:Ef. clear Ef.
    revert st H. induction fuel as [|fuel IHf]; intros st H; cbn [starLoop] in H.
    + exists st, []. split; [apply advances_refl | exact H].
    + match type of H with
      | match ?x with _ => _ end = _ => destruct x eqn:E
      end.
      * injection H as ->. apply IH1 in E as (st1 & m1 & A1 & E).
        destruct (length (after st1) <? length (after st)); [|discriminate].
        apply IHf in E as (st2 & m2 & A2 & E).
        exists st2, (m1 ++ m2). split; [now apply (advances_trans _ _ _ _ _ A1) | exact E].
      * exists st, []. split; [apply advances_refl | exact H].
  - apply IH1 in H as (st1 & m1 & A1 & H).
    exists (setCap n (consumed st st1) st1), m1. split; [exact A1 | exact H].
  - destruct (atLineStart st); [|discriminate].
    exists st, []. split; [apply advances_refl | exact H].
  - destruct (atWordBoundary st); [|discriminate].
    exists st, []. split; [apply advances_refl | exact H].
Qed.

(** What a match records: its index, its text, and the zipper at its end. *)
Lemma matchAt_sound (r : regex) (bef aft : list ascii) (m : rmatch) :
  matchAt r bef aft = Some m ->
  m_index m = length bef
  /\ m_before m = rev (m_text m) ++ bef
  /\ aft = m_text m ++ m_after m.
Proof.
  unfold matchAt. destruct (mt r _ _) as [st'|] eqn:E; [|discriminate].
  intros H. injection H as <-. cbn [m_index m_text m_before m_after].
  apply mt_sound in E as (st1 & mid & [B A] & E). injection E as ->.
  cbn [before after] in *.
  assert (Hc : consumed (MState bef aft []) st' = mid).
  { unfold consumed, position; cbn [before]. rewrite B, length_app, length_rev.
    replace (length mid + length bef - length bef) with (length (rev mid))
      by (rewrite length_rev; lia).
    now rewrite firstn_length_app, rev_involutive. }
  rewrite Hc. repeat split; assumption.
Qed.

(** [search] returns the match at the leftmost position where the
    pattern matches. *)
Lemma search_leftmost (r : regex) : forall (aft bef : list ascii) (m : rmatch),
  search r bef aft = Some m ->
  exists pre rest,
    aft = pre ++ rest
    /\ matchAt r (rev pre ++ bef) rest = Some m
    /\ forall p q, aft = p ++ q -> length p < length pre ->
                   matchAt r (rev p ++ bef) q = None.
Proof.
  induction aft as [|c aft IH]; intros bef m H; simpl in H.
  - destruct (matchAt r bef []) eqn:E; [|discriminate].
    injection H as <-. exists [], []. repeat split; try assumption.
    intros p q _ Hl. simpl in Hl. lia.
  - destruct (matchAt r bef (c :: aft)) eqn:E.
    + injection H as <-. exists [], (c :: aft). repeat split; try assumption.
      intros p q _ Hl. simpl in Hl. lia.
    + apply IH in H as (pre & rest & Ea & Hm & Hn).
      exists (c :: pre), rest. split; [now rewrite Ea|]. split.
      * simpl. now rewrite <- app_assoc.
      * intros [|x p] q Ep Hl.
        -- simpl in Ep. subst q. exact E.
        -- simpl in Ep. injection Ep as <- Ep. simpl.
           rewrite <- app_assoc. apply Hn; [assumption | simpl in Hl; lia].
Qed.


Lemma search_sound (r : regex) : forall (aft bef : list ascii) (m : rmatch),
  search r bef aft = Some m ->
  exists pre,
    aft = pre ++ m_text m ++ m_after m
    /\ m_before m = rev (m_text m) ++ rev pre ++ bef
    /\ m_index m = length bef + length pre
    /\ matchAt r (rev pre ++ bef) (m_text m ++ m_after m) = Some m.
Proof.
  intros aft bef m H.
  apply search_leftmost in H as (pre & rest & E & Hm & _).
  pose proof (matchAt_sound _ _ _ _ Hm) as (Hi & Hb & Ha).
  exists pre. subst rest.
  repeat split; try assumption.
  rewrite Hi, length_app, length_rev. lia.
Qed.

(** Every match of [matchAll] is a match of the pattern at some position
    of the text. *)
Lemma matchAllFrom_sound (r : regex) : forall (fuel : nat) (bef aft : list ascii) (m : rmatch),
  In m (matchAllFrom fuel r bef aft) ->
  exists bef' aft',
    rev bef' ++ aft' = rev bef ++ aft /\ matchAt r bef' aft' = Some m.
Proof.
  induction fuel as [|fuel IH]; intros bef aft m H; [destruct H|].
  cbn [matchAllFrom] in H.
  destruct (search r bef aft) as [m0|] eqn:E; [|destruct H].
  apply search_sound in E as (pre & Ea & Eb & Ei & Em).
  assert (Z : rev (m_before m0) ++ m_after m0 = rev bef ++ aft).
  { rewrite Eb, Ea, !rev_app_distr, !rev_involutive, <- !app_assoc. reflexivity. }
  destruct H as [<- | H].
  - exists (rev pre ++ bef), (m_text m0 ++ m_after m0). split; [|exact Em].
    rewrite Ea, rev_app_distr, rev_involutive, <- app_assoc. reflexivity.
  - destruct (m_text m0) as [|x t] eqn:Et.
    + destruct (m_after m0) as [|c aft'] eqn:Eaft; [destruct H|].
      apply IH in H as (bef' & aft'' & Hz & Hm).
      exists bef', aft''. split; [|exact Hm].
      rewrite Hz, <- Z. cbn [rev]. now rewrite <- app_assoc.
    + apply IH in H as (bef' & aft'' & Hz & Hm).
      exists bef', aft''. split; [|exact Hm]. now rewrite Hz.
Qed.

(** The fuel of [matchAll] is enough: more fuel gives the same matches. *)
Lemma matchAllFrom_fuel (r : regex) : forall (fuel extra : nat) (bef aft : list ascii),
  length aft < fuel ->
  matchAllFrom (fuel + extra) r bef aft = matchAllFrom fuel r bef aft.
Proof.
  induction fuel as [|fuel IH]; intros extra bef aft Hl; [lia|].
  cbn [Nat.add matchAllFrom].
  destruct (search r bef aft) as [m|] eqn:E; [|reflexivity].
  apply search_sound in E as (pre & Ea & _).
  apply (f_equal (@length ascii)) in Ea. rewrite !length_app in Ea.
  f_equal. destruct (m_text m) as [|x t].
  - destruct (m_after m) as [|c aft']; [reflexivity|].
    apply IH. simpl in Ea. lia.
  - apply IH. simpl in Ea. lia.
Qed.

(** The result of the matcher depends on its continuation pointwise. *)
Lemma mt_ext (r : regex) : forall (k1 k2 : mstate -> option mstate) (st : mstate),
  (forall st', k1 st' = k2 st') -> mt r k1 st = mt r k2 st.
Proof.
  induction r as [| c | neg items | r1 IH1 r2 IH2 | r1 IH1 r2 IH2 | r1 IH1
                  | n r1 IH1 | | ]; intros k1 k2 st H; cbn [mt].
  - apply H.
  - destruct (step1 st (Ascii.eqb c)); [apply H | reflexivity].
  - destruct (step1 st (inClass neg items)); [apply H | reflexivity].
  - apply IH1. intros st'. now apply IH2.
  - rewrite (IH1 k1 k2 st H), (IH2 k1 k2 st H). reflexivity.
  - generalize (length (after st)) as fuel. intros fuel. revert st.
    induction fuel as [|fuel IHf]; intros st; cbn [starLoop]; [apply H|].
    rewrite H.
    rewrite (IH1 _ (fun st' => if length (after st') <? length (after st)
                               then starLoop (mt r1) k2 fuel st' else None) st).
    + reflexivity.
    + intros st'. destruct (length (after st') <? length (after st));
        [apply IHf | reflexivity].
  - apply IH1. intros st'. apply H.
  - destruct (atLineStart st); [apply H | reflexivity].
  - destruct (atWordBoundary st); [apply H | reflexivity].
Qed.

Lemma mt_no_continuation (r : regex) (st : mstate) : mt r (fun _ => None) st = None.
Proof.
  destruct (mt r (fun _ => None) st) as [res|] eqn:E; [|reflexivity].
  apply mt_sound in E as (st' & mid & _ & E). discriminate.
Qed.

(** The fuel of a star is enough: more fuel gives the same result. *)
Lemma starLoop_fuel (r : regex) (k : mstate -> option mstate) :
  forall (fuel extra : nat) (st : mstate),
    length (after st) <= fuel ->
    starLoop (mt r) k (fuel + extra) st = starLoop (mt r) k fuel st.
Proof.
  induction fuel as [|fuel IH]; intros extra st Hl.
  - destruct extra as [|extra]; [reflexivity|].
    cbn [Nat.add starLoop].
    rewrite (mt_ext r _ (fun _ => None) st), mt_no_continuation; [reflexivity|].
    intros st'. replace (length (after st') <? length (after st)) with false;
      [reflexivity|]. symmetry. apply Nat.ltb_ge. lia.
  - cbn [Nat.add starLoop].
    rewrite (mt_ext r _ (fun st' => if length (after st') <? length (after st)
                                    then starLoop (mt r) k fuel st' else None) st).
    + reflexivity.
    + intros st'. destruct (length (after st') <? length (after st)) eqn:E;
        [|reflexivity].
      apply IH. apply Nat.ltb_lt in E. lia.
Qed.

(** The fuel of [split] is enough as well. *)
Lemma splitReFrom_fuel (r : regex) : forall (fuel extra : nat) (part bef aft : list ascii),
  2 * length aft + (match part with [] => 0 | _ => 1 end) <= fuel ->
  splitReFrom (fuel + extra) r part bef aft = splitReFrom fuel r part bef aft.
Proof.
  induction fuel as [|fuel IH]; intros extra part bef aft Hl.
  - destruct aft; [|simpl in Hl; lia].
    destruct extra; cbn [Nat.add splitReFrom]; now rewrite ?app_nil_r.
  - cbn [Nat.add splitReFrom]. destruct aft as [|c aft]; [reflexivity|].
    cbn [length] in Hl.
    destruct (matchAt r bef (c :: aft)) as [m|] eqn:E.
    + apply matchAt_sound in E as (_ & _ & Ea).
      apply (f_equal (@length ascii)) in Ea. rewrite length_app in Ea.
      cbn [length] in Ea.
      destruct (m_text m) as [|x t]; [destruct part as [|y part]|].
      * apply IH. cbn [length]. lia.
      * f_equal. apply IH. cbn [length] in *. lia.
      * f_equal. apply IH. cbn [length] in *. lia.
    + apply IH. cbn [length]. lia.
Qed.

(** ** The matcher on literals and on classes *)

Lemma mt_Lit (l : jsstring) (k : mstate -> option mstate) :
  forall (bef rest : list ascii) (cs : list (nat * jsstring)),
    mt (Lit l) k (MState bef (l ++ rest) cs) = k (MState (rev l ++ bef) rest cs).
Proof.
  induction l as [|c l IH]; intros bef rest cs; [reflexivity|].
  cbn [Lit mt app]. unfold step1; cbn [after before caps].
  rewrite Ascii.eqb_refl, IH. cbn [rev]. now rewrite <- app_assoc.
Qed.

Lemma mt_Seq (r1 r2 : regex) (k : mstate -> option mstate) (st : mstate) :
  mt (Seq r1 r2) k st = mt r1 (mt r2 k) st.
Proof. reflexivity. Qed.

Lemma mt_Group (n : nat) (r : regex) (k : mstate -> option mstate) (st : mstate) :
  mt (Group n r) k st = mt r (fun st' => k (setCap n (consumed st st') st')) st.
Proof. reflexivity. Qed.

Lemma mt_Chr (c : ascii) (k : mstate -> option mstate)
    (bef rest : list ascii) (cs : list (nat * jsstring)) :
  mt (Chr c) k (MState bef (c :: rest) cs) = k (MState (c :: bef) rest cs).
Proof. cbn [mt]. unfold step1; cbn [after before caps]. now rewrite Ascii.eqb_refl. Qed.

(** A greedy star over a class finds a match whenever the continuation
    accepts the text after some run of characters of the class. *)
Lemma mt_Star_Class_some (neg : bool) (items : list cset)
    (k : mstate -> option mstate) (rest : list ascii) (cs : list (nat * jsstring)) :
  forall (run bef : list ascii),
    Forall (fun c => inClass neg items c = true) run ->
    k (MState (rev run ++ bef) rest cs) <> None ->
    mt (Star (Class neg items)) k (MState bef (run ++ rest) cs) <> None.
Proof.
  induction run as [|c run IH]; intros bef Hrun Hk.
  - cbn [mt after app]. destruct (length rest) as [|fuel]; cbn [starLoop].
    + exact Hk.
    + match goal with
      | |- match ?x with _ => _ end <> None => destruct x; [discriminate | exact Hk]
      end.
  - inversion Hrun as [|? ? Hc Hrun']; subst.
    specialize (IH (c :: bef) Hrun').
    cbn [rev] in Hk. rewrite <- app_assoc in Hk. specialize (IH Hk).
    cbn [mt after app length starLoop] in *.
    unfold step1 at 1; cbn [after before caps]. rewrite Hc.
    cbn [after].
    replace (length (run ++ rest) <? S (length (run ++ rest))) with true
      by (symmetry; apply Nat.ltb_lt; lia).
    match goal with
    | |- match ?x with _ => _ end <> None =>
        destruct x; [discriminate | exfalso; now apply IH]
    end.
Qed.

Lemma search_some (r : regex) : forall (pre bef aft : list ascii),
  matchAt r (rev pre ++ bef) aft <> None -> search r bef (pre ++ aft) <> None.
Proof.
  induction pre as [|c pre IH]; intros bef aft H.
  - destruct aft; simpl in *; destruct (matchAt r bef _); congruence.
  - cbn [app search]. destruct (matchAt r bef (c :: pre ++ aft)); [discriminate|].
    apply IH. cbn [rev] in H. now rewrite <- app_assoc in H.
Qed.

(** The constructor pattern matches a text that holds the word
    [constructor], white space, and a parenthesised list. *)
Lemma constructorRe_matches (pre gap params post : list ascii) :
  Forall (fun c => isSpace c = true) gap ->
  Forall (fun c => c <> ")"%char) params ->
  jsmatch constructorRe
          (pre ++ str "constructor" ++ gap ++ "("%char :: params ++ ")"%char :: post)
  <> None.
Proof.
  intros Hgap Hparams. unfold jsmatch.
  apply search_some. unfold matchAt.
  match goal with
  | |- match ?m with _ => _ end <> None =>
      assert (H : m <> None); [|destruct m; [discriminate | contradiction]]
  end.
  unfold constructorRe, Seqs, L; cbn [fold_right].
  rewrite mt_Seq, mt_Lit, mt_Seq.
  apply mt_Star_Class_some.
  { eapply Forall_impl; [|exact Hgap]. intros c Hc.
    unfold inClass; cbn. now rewrite Hc. }
  rewrite mt_Seq, mt_Chr, mt_Seq, mt_Group.
  apply mt_Star_Class_some.
  { eapply Forall_impl; [|exact Hparams]. intros c Hc.
    unfold inClass; cbn. rewrite orb_false_r.
    destruct (Ascii.eqb c ")") eqn:E; [|reflexivity].
    apply Ascii.eqb_eq in E. contradiction. }
  unfold setCap; cbn [before after caps].
  rewrite mt_Seq, mt_Chr. discriminate.
Qed.

(** A match of the contract pattern ends with the opening brace of the
    declaration: the body starts just after it. *)
Lemma contractRe_opening_brace (source : jsstring) (m : rmatch) :
  In m (matchAll contractRe source) ->
  exists decl,
    firstn (startIdxOf m) source = decl ++ ["{"%char]
    /\ skipn (startIdxOf m) source = m_after m.
Proof.
  intros H. apply matchAllFrom_sound in H as (bef & aft & Z & Hm).
  cbn [rev app] in Z.
  pose proof (matchAt_sound _ _ _ _ Hm) as (Hi & Hb & Ha).
  assert (Hs : source = rev (m_before m) ++ m_after m).
  { rewrite Hb, rev_app_distr, rev_involutive, <- app_assoc, <- Ha. now symmetry. }
  assert (Hl : startIdxOf m = length (rev (m_before m))).
  { unfold startIdxOf. rewrite Hi, length_rev, Hb, length_app, length_rev. lia. }
  assert (Hbrace : exists b, m_before m = "{"%char :: b).
  { unfold matchAt in Hm. destruct (mt contractRe _ _) as [st'|] eqn:E; [|discriminate].
    injection Hm as <-. cbn [m_before].
    unfold contractRe, Seqs in E; cbn [fold_right] in E.
    do 7 (rewrite mt_Seq in E; apply mt_sound in E as (? & ? & _ & E)).
    cbn [mt] in E.
    match type of E with
    | match step1 ?s _ with _ => _ end = _ => destruct (step1 s _) as [st1|] eqn:E1
    end; [|discriminate].
    injection E as <-. unfold step1 in E1.
    destruct (after _) as [|c rest]; [discriminate|].
    destruct (Ascii.eqb "{" c) eqn:Ec; [|discriminate].
    apply Ascii.eqb_eq in Ec. subst c. injection E1 as <-. now eexists. }
  destruct Hbrace as (b & Hbr).
  exists (rev b). rewrite Hl. clear Hl. rewrite Hs.
  rewrite firstn_length_app, skipn_app, skipn_all, Nat.sub_diag. cbn [skipn app].
  split; [|reflexivity]. rewrite Hbr. reflexivity.
Qed.

(** ** The matcher on small texts *)

(** [/a*/g] on "baa": an empty match at 0, "aa" at 1, an empty match at 3. *)
Example matchAll_star :
  map (fun m => (m_index m, m_text m)) (matchAll (Star (Chr "a")) (str "baa"))
  = [(0, []); (1, str "aa"); (3, [])].
Proof. vm_compute. reflexivity. Qed.

(** [/(?:^|\n)\s*x/gm] finds an [x] at the start of each line. *)
Example matchAll_line_starts :
  map m_index
      (matchAll (Seqs [Alt Bol (Chr nl); Star ws; Chr "x"])
                (str "x y" ++ [nl] ++ str "  x" ++ [nl] ++ str "yx"))
  = [0; 3].
Proof. vm_compute. reflexivity. Qed.

(** [\b] keeps [view] from matching inside [preview]. *)
Example match_word_boundary :
  option_map m_index (jsmatch mutabilityRe (str "preview() view")) = Some 10.
Proof. vm_compute. reflexivity. Qed.

(** The group of an optional part that takes no part in the match is
    undefined. *)
Example match_optional_group :
  option_map (fun m => (group m 2, group m 3))
             (jsmatch contractRe (str "contract island {"))
  = Some (Some (str "island"), None).
Proof. vm_compute. reflexivity. Qed.

(** A greedy class gives back what the rest of the pattern needs. *)
Example match_backtracks :
  option_map (fun m => group m 1)
             (jsmatch (varVisibilityRe (str "uint"))
                      (str "uint public a; uint private b;"))
  = Some (Some (str "public")).
Proof. vm_compute. reflexivity. Qed.

(** [split(/\s+/)] on a text with leading and repeated white space. *)
Example split_spaces :
  splitRe (Plus ws) (str " a  b") = [[]; str "a"; str "b"].
Proof. vm_compute. reflexivity. Qed.

(** ** Splitting on white space *)

Lemma inClass_space (c : ascii) : inClass false [CSpace] c = isSpace c.
Proof. unfold inClass; cbn. now rewrite orb_false_r. Qed.

Lemma dropSpaces_length (s : list ascii) : length (dropSpaces s) <= length s.
Proof.
  induction s as [|c s IH]; simpl; [lia|].
  destruct (isSpace c); simpl; lia.
Qed.

(** With a continuation that accepts everything, the greedy star over
    [\s] consumes the whole run of white space. *)
Lemma starLoop_ws : forall (fuel : nat) (aft bef : list ascii) (cs : list (nat * jsstring)),
  length aft <= fuel ->
  starLoop (mt ws) (fun st => Some st) fuel (MState bef aft cs)
  = Some (MState (rev (takeSpaces aft) ++ bef) (dropSpaces aft) cs).
Proof.
  induction fuel as [|fuel IH]; intros aft bef cs Hl.
  - destruct aft; [reflexivity | simpl in Hl; lia].
  - cbn [starLoop]. unfold ws at 1. cbn [mt].
    unfold step1; cbn [after before caps].
    destruct aft as [|c aft]; [reflexivity|].
    rewrite inClass_space. cbn [takeSpaces dropSpaces].
    destruct (isSpace c); [|reflexivity].
    cbn [after length].
    replace (length aft <? S (length aft)) with true
      by (symmetry; apply Nat.ltb_lt; lia).
    rewrite IH by (simpl in Hl; lia).
    cbn [rev]. now rewrite <- app_assoc.
Qed.

Lemma matchAt_spaces (bef aft : list ascii) :
  matchAt (Plus ws) bef aft
  = match aft with
    | c :: aft' =>
        if isSpace c
        then Some (RMatch (length bef) (c :: takeSpaces aft') []
                          (rev (takeSpaces aft') ++ c :: bef) (dropSpaces aft'))
        else None
    | [] => None
    end.
Proof.
  unfold matchAt, Plus. rewrite mt_Seq. unfold ws at 1. cbn [mt].
  unfold step1; cbn [after before caps].
  destruct aft as [|c aft]; [reflexivity|].
  rewrite inClass_space. destruct (isSpace c); [|reflexivity].
  cbn [after]. rewrite starLoop_ws by lia.
  unfold consumed, position; cbn [before after caps].
  f_equal. f_equal.
  rewrite length_app, length_rev. cbn [length].
  replace (length (takeSpaces aft) + S (length bef) - length bef)
    with (length (rev (takeSpaces aft) ++ [c]))
    by (rewrite length_app, length_rev; simpl; lia).
  replace (rev (takeSpaces aft) ++ c :: bef)
    with ((rev (takeSpaces aft) ++ [c]) ++ bef)
    by (now rewrite <- app_assoc).
  rewrite firstn_length_app, rev_app_distr, rev_involutive. reflexivity.
Qed.

Lemma splitWords_dropSpaces (s : list ascii) :
  splitWords true [] s = splitWords false [] (dropSpaces s).
Proof.
  induction s as [|c s IH]; [reflexivity|].
  cbn [splitWords dropSpaces]. destruct (isSpace c) eqn:E; [exact IH|].
  cbn [splitWords]. now rewrite E.
Qed.

Lemma splitReFrom_spaces : forall (fuel : nat) (aft part bef : list ascii),
  length aft <= fuel ->
  splitReFrom fuel (Plus ws) part bef aft = splitWords false part aft.
Proof.
  induction fuel as [|fuel IH]; intros aft part bef Hl.
  - destruct aft; [|simpl in Hl; lia]. simpl. now rewrite app_nil_r.
  - destruct aft as [|c aft]; [reflexivity|].
    cbn [splitReFrom splitWords]. rewrite matchAt_spaces.
    simpl in Hl. destruct (isSpace c).
    + cbn [m_text m_before m_after].
      rewrite IH by (pose proof (dropSpaces_length aft); lia).
      now rewrite splitWords_dropSpaces.
    + apply IH. lia.
Qed.

(** [split(/\s+/)] returns the parts between the runs of white space. *)
Lemma splitRe_spaces (s : jsstring) : splitRe (Plus ws) s = splitWords false [] s.
Proof.
  destruct s as [|c s]; [reflexivity|].
  unfold splitRe. apply splitReFrom_spaces. simpl. lia.
Qed.

Lemma splitWords_nonempty (s : list ascii) : forall inSep part,
  splitWords inSep part s <> [].
Proof.
  induction s as [|c s IH]; intros inSep part; cbn [splitWords]; [discriminate|].
  destruct (isSpace c); [destruct inSep|]; try apply IH; discriminate.
Qed.

(** The first part is the leading word. *)
Lemma splitWords_head (w : list ascii) : forall (part rest : list ascii),
  Forall (fun c => isSpace c = false) w ->
  rest = [] \/ startsWithSpace rest ->
  exists tl, splitWords false part (w ++ rest) = (rev part ++ w) :: tl.
Proof.
  induction w as [|c w IH]; intros part rest Hw Hr.
  - rewrite app_nil_r. destruct Hr as [-> | (c & s' & -> & Hc)].
    + now exists [].
    + cbn [app splitWords]. rewrite Hc. now eexists.
  - inversion Hw as [|? ? Hc Hw']; subst.
    cbn [app splitWords]. rewrite Hc.
    destruct (IH (c :: part) rest Hw' Hr) as (tl & E).
    exists tl. rewrite E. cbn [rev]. now rewrite <- app_assoc.
Qed.

Lemma splitWords_word (w : list ascii) (part : list ascii) :
  Forall (fun c => isSpace c = false) w ->
  splitWords false part w = [rev part ++ w].
Proof.
  revert part. induction w as [|c w IH]; intros part Hw.
  - now rewrite app_nil_r.
  - inversion Hw as [|? ? Hc Hw']; subst.
    cbn [splitWords]. rewrite Hc, IH by assumption.
    cbn [rev]. now rewrite <- app_assoc.
Qed.

(** The last part is the trailing word. *)
Lemma splitWords_last (c : ascii) (w : list ascii) :
  isSpace c = true -> isWordText w ->
  forall (pre : list ascii) (inSep : bool) (part : list ascii),
    last (splitWords inSep part (pre ++ c :: w)) [] = w.
Proof.
  intros Hc [Hne Hw].
  assert (Hword : splitWords true [] w = [w]).
  { destruct w as [|x w]; [contradiction|].
    inversion Hw as [|? ? Hx Hw']; subst.
    cbn [splitWords]. rewrite Hx. now rewrite splitWords_word. }
  induction pre as [|x pre IH]; intros inSep part.
  - cbn [app splitWords]. rewrite Hc, Hword. now destruct inSep.
  - cbn [app splitWords]. destruct (isSpace x); [destruct inSep|]; try apply IH.
    rewrite last_cons_nonempty by apply splitWords_nonempty. apply IH.
Qed.

(** The type of a parameter token is its first word. *)
Lemma parts_first (token w rest : list ascii) (d : jsstring) :
  token = w ++ rest -> isWordText w -> rest = [] \/ startsWithSpace rest ->
  orElse (nth_error (splitRe (Plus ws) token) 0) d = w.
Proof.
  intros -> [Hne Hw] Hr. rewrite splitRe_spaces.
  destruct (splitWords_head w [] rest Hw Hr) as (tl & ->).
  cbn [nth_error rev app]. now apply orElse_nonempty.
Qed.

(** The name of a parameter token of several words is its last word. *)
Lemma parts_last (token pre : list ascii) (c : ascii) (w : list ascii) (d : jsstring) :
  token = pre ++ c :: w -> isSpace c = true -> isWordText w ->
  let parts := splitRe (Plus ws) token in
  orElse (nth_error parts (length parts - 1)) d = w.
Proof.
  intros -> Hc Hw parts. subst parts. rewrite splitRe_spaces.
  rewrite (nth_error_last (A:=jsstring) _ []) by apply splitWords_nonempty.
  rewrite splitWords_last by assumption.
  apply orElse_nonempty, Hw.
Qed.

(** ** The shape of a parameter token *)

Lemma dropSpaces_head (s : list ascii) :
  dropSpaces s = [] \/ exists c s', dropSpaces s = c :: s' /\ isSpace c = false.
Proof.
  induction s as [|c s IH]; [now left|].
  cbn [dropSpaces]. destruct (isSpace c) eqn:E; [exact IH|].
  right. now exists c, s.
Qed.

Lemma takeSpaces_dropSpaces (s : list ascii) : takeSpaces s ++ dropSpaces s = s.
Proof.
  induction s as [|c s IH]; [reflexivity|].
  cbn [takeSpaces dropSpaces]. destruct (isSpace c); [|reflexivity].
  cbn [app]. now rewrite IH.
Qed.

(** A trimmed text that is not empty starts and ends with a character
    that is not white space. *)
Lemma trim_shape (s : jsstring) :
  trim s <> [] ->
  (exists c t, trim s = c :: t /\ isSpace c = false)
  /\ (exists t c, trim s = t ++ [c] /\ isSpace c = false).
Proof.
  unfold trim. intros Hne.
  destruct (dropSpaces_head (rev (dropSpaces s))) as [E | (c' & z & E & Hc')].
  { rewrite E in Hne. contradiction. }
  rewrite E. cbn [rev]. split; [|now exists (rev z), c'].
  pose proof (takeSpaces_dropSpaces (rev (dropSpaces s))) as Hs.
  rewrite E in Hs. apply (f_equal (@rev ascii)) in Hs.
  rewrite rev_involutive, rev_app_distr in Hs. cbn [rev] in Hs.
  destruct (dropSpaces_head s) as [E0 | (c0 & t0 & E0 & Hc0)].
  { rewrite E0 in E. discriminate. }
  rewrite E0 in Hs.
  destruct (rev z) as [|x t] eqn:Ez; cbn [app] in *.
  - injection Hs as -> _. now exists c0, [].
  - injection Hs as -> _. now exists c0, (t ++ [c']).
Qed.

Lemma takeWord_dropWord (s : list ascii) : takeWord s ++ dropWord s = s.
Proof.
  induction s as [|c s IH]; [reflexivity|].
  cbn [takeWord dropWord]. destruct (isSpace c); [reflexivity|].
  cbn [app]. now rewrite IH.
Qed.

Lemma takeWord_noSpace (s : list ascii) : Forall (fun c => isSpace c = false) (takeWord s).
Proof.
  induction s as [|c s IH]; [constructor|].
  cbn [takeWord]. destruct (isSpace c) eqn:E; constructor; assumption.
Qed.

Lemma dropWord_head (s : list ascii) : dropWord s = [] \/ startsWithSpace (dropWord s).
Proof.
  induction s as [|c s IH]; [now left|].
  cbn [dropWord]. destruct (isSpace c) eqn:E; [|exact IH].
  right. now exists c, s.
Qed.

Lemma dropWord_nil (s : list ascii) : dropWord s = [] -> existsb isSpace s = false.
Proof.
  induction s as [|c s IH]; [reflexivity|].
  cbn [dropWord existsb]. destruct (isSpace c); [discriminate | exact IH].
Qed.

(** A token that starts with a word is that word and a rest. *)
Lemma token_first_word (token : list ascii) (c : ascii) (t : list ascii) :
  token = c :: t -> isSpace c = false ->
  isWordText (takeWord token)
  /\ (dropWord token = [] \/ startsWithSpace (dropWord token)).
Proof.
  intros -> Hc. split; [split|].
  - cbn [takeWord]. rewrite Hc. discriminate.
  - apply takeWord_noSpace.
  - apply dropWord_head.
Qed.

(** A token of several words that ends with a word is a text, a white
    space and that word. *)
Lemma token_last_word (token t : list ascii) (c : ascii) :
  token = t ++ [c] -> isSpace c = false -> existsb isSpace token = true ->
  exists pre x, token = pre ++ x :: lastWord token
                /\ isSpace x = true /\ isWordText (lastWord token).
Proof.
  intros E Hc Hs. unfold lastWord.
  assert (Er : rev token = c :: rev t) by (rewrite E, rev_app_distr; reflexivity).
  destruct (dropWord_head (rev token)) as [Hd | (x & r & Hd & Hx)].
  { apply dropWord_nil in Hd. rewrite existsb_rev in Hd. congruence. }
  exists (rev r), x. split; [|split; [exact Hx|split]].
  - pose proof (takeWord_dropWord (rev token)) as H. rewrite Hd in H.
    apply (f_equal (@rev ascii)) in H.
    rewrite rev_involutive, rev_app_distr in H. cbn [rev] in H.
    rewrite <- app_assoc in H. now symmetry.
  - rewrite Er. cbn [takeWord]. rewrite Hc. cbn [rev].
    intros H. now apply app_eq_nil in H as [_ H].
  - apply Forall_rev, takeWord_noSpace.
Qed.

Lemma paramTokens_trimmed (params token : jsstring) :
  In token (paramTokens params) ->
  (exists c t, token = c :: t /\ isSpace c = false)
  /\ (exists t c, token = t ++ [c] /\ isSpace c = false).
Proof.
  unfold paramTokens, filterBoolean. intros H.
  apply filter_In in H as [Hin Ht]. apply in_map_iff in Hin as (x & <- & _).
  apply trim_shape. destruct (trim x); [discriminate | discriminate].
Qed.

(** ** The brace counter *)

Lemma scanBraces_closed (rest : list ascii) (d : Z) (i : nat) :
  (d <= 0)%Z -> scanBraces rest d i = i.
Proof.
  intros Hd. destruct rest as [|c rest]; simpl; [reflexivity|].
  destruct (d >? 0)%Z eqn:E; [|reflexivity].
  apply Z.gtb_lt in E. lia.
Qed.

Lemma braceDepth_app (p q : list ascii) :
  braceDepth (p ++ q) = (braceDepth p + braceDepth q)%Z.
Proof. induction p as [|c p IH]; simpl; [reflexivity | rewrite IH; lia]. Qed.

(** The step of the counter on one character. *)
Lemma scanBraces_cons (c : ascii) (rest : list ascii) (d : Z) (i : nat) :
  (0 < d)%Z ->
  scanBraces (c :: rest) d i = scanBraces rest (d + braceDepth [c]) (S i).
Proof.
  intros Hd. simpl. destruct (d >? 0)%Z eqn:E.
  - f_equal. destruct (Ascii.eqb c "{"); [lia|].
    destruct (Ascii.eqb c "}"); lia.
  - rewrite Z.gtb_ltb, Z.ltb_ge in E. lia.
Qed.

(** While the count stays positive the counter walks to the end. *)
Lemma scanBraces_open (rest : list ascii) : forall (d : Z) (i : nat),
  (0 < d)%Z ->
  (forall p q, rest = p ++ q -> (0 < d + braceDepth p)%Z) ->
  scanBraces rest d i = i + length rest.
Proof.
  induction rest as [|c rest IH]; intros d i Hd Hp.
  - simpl. lia.
  - rewrite scanBraces_cons by assumption. rewrite IH.
    + simpl. lia.
    + specialize (Hp [c] rest eq_refl). lia.
    + intros p q E. specialize (Hp (c :: p) q). simpl in Hp.
      rewrite E in Hp. specialize (Hp eq_refl). simpl. lia.
Qed.

(** It stops just after the first closing brace that brings the count
    back to zero. *)
Lemma scanBraces_close (body post : list ascii) : forall (d : Z) (i : nat),
  (0 < d)%Z ->
  (forall p q, body = p ++ q -> (0 < d + braceDepth p)%Z) ->
  (d + braceDepth body = 1)%Z ->
  scanBraces (body ++ "}"%char :: post) d i = i + length body + 1.
Proof.
  induction body as [|c body IH]; intros d i Hd Hp Hb.
  - simpl in Hb. change ([] ++ "}"%char :: post) with ("}"%char :: post).
    rewrite scanBraces_cons by assumption.
    rewrite scanBraces_closed; simpl; lia.
  - change ((c :: body) ++ "}"%char :: post) with (c :: (body ++ "}"%char :: post)).
    rewrite scanBraces_cons by assumption. rewrite IH.
    + simpl. lia.
    + specialize (Hp [c] body eq_refl). lia.
    + intros p q E. specialize (Hp (c :: p) q). simpl in Hp.
      rewrite E in Hp. specialize (Hp eq_refl). simpl. lia.
    + simpl in Hb. simpl. lia.
Qed.

Lemma extractBody_closed (source : jsstring) (startIdx : nat) (body post : list ascii) :
  skipn startIdx source = body ++ "}"%char :: post ->
  staysOpen body -> braceDepth body = 0%Z ->
  extractBody source startIdx = body.
Proof.
  intros E Ho Hb. unfold extractBody, slice.
  rewrite E, scanBraces_close.
  - replace (startIdx + length body + 1 - 1 - startIdx) with (length body) by lia.
    apply firstn_length_app.
  - lia.
  - intros p q Ep. specialize (Ho p q Ep). lia.
  - lia.
Qed.

Lemma extractBody_open (source : jsstring) (startIdx : nat) :
  staysOpen (skipn startIdx source) ->
  extractBody source startIdx = removelast (skipn startIdx source).
Proof.
  intros Ho. unfold extractBody, slice.
  rewrite scanBraces_open.
  - replace (startIdx + length (skipn startIdx source) - 1 - startIdx)
      with (pred (length (skipn startIdx source))) by lia.
    symmetry. apply removelast_firstn_len.
  - lia.
  - intros p q E. specialize (Ho p q E). lia.
Qed.

Lemma staysOpenb_correct (s : list ascii) : staysOpenb s = true -> staysOpen s.
Proof.
  unfold staysOpenb, staysOpen. intros H p q E.
  rewrite forallb_forall in H.
  specialize (H (length p)). rewrite E, firstn_length_app in H.
  apply Z.leb_le, H, in_seq. rewrite length_app. lia.
Qed.

(** ** The functions of a contract *)



(** ** The result assembler and the parser hook *)

Lemma complexity_buildResult cs pv im src er :
  complexity (buildResult cs pv im src er)
  = if (15 <? totalFunctions cs) || (10 <? totalStateVariables cs) then High
    else if 6 <? totalFunctions cs then Medium else Low.
Proof.
  unfold buildResult, totalFunctions, totalStateVariables; cbn [complexity].
  now rewrite !fold_left_add_length.
Qed.

Lemma in_allFns (cs : list ContractDef) (n : jsstring) :
  In n (flat_map (fun c => map (fun f => toLowerCase (fn_name f)) (functions c)) cs)
  <-> hasFunctionNamed cs n.
Proof.
  unfold hasFunctionNamed. rewrite in_flat_map. split.
  - intros (c & Hc & Hn). apply in_map_iff in Hn as (f & E & Hf).
    now exists c, f.
  - intros (c & f & Hc & Hf & E). exists c. split; [assumption|].
    apply in_map_iff. now exists f.
Qed.

Lemma isERC20_buildResult cs pv im src er :
  isERC20 (buildResult cs pv im src er) = true
  <-> hasFunctionNamed cs (str "transfer")
      /\ hasFunctionNamed cs (str "approve")
      /\ hasFunctionNamed cs (str "transferfrom").
Proof.
  unfold buildResult; cbn [isERC20].
  rewrite !andb_true_iff, !existsb_jseq, !in_allFns. tauto.
Qed.

(** Every result of the analyzer is assembled by [buildResult] from its
    own contracts and the source text. *)
Lemma parseSolidity_assembled (hook : option Parser) (source : jsstring) :
  exists pv im er,
    parseSolidity hook source
    = buildResult (contracts (parseSolidity hook source)) pv im source er.
Proof.
  unfold parseSolidity.
  destruct hook as [parser|]; [destruct (parser source)|];
    unfold regexFallbackParser; eexists _, _, _; reflexivity.
Qed.


Lemma hasMappings_parseSolidity (hook : option Parser) (source : jsstring) :
  hasMappings (parseSolidity hook source) = includes source (str "mapping(").
Proof.
  unfold parseSolidity.
  destruct hook as [parser|]; [destruct (parser source)|]; reflexivity.
Qed.

(** ** The rules of the mapping-rule engine *)

Lemma pdaOf_push (r : MappingRule) (st : RuleState) :
  pdaOf (push r st) = pdaOf st + (if isPdaRule r then 1 else 0).
Proof.
  unfold pdaOf, pdaRuleCount, push; cbn [snd].
  rewrite filter_app, length_app. f_equal.
  unfold isPdaRule at 1; cbn [filter solanaConcept].
  fold (isPdaRule r). now destruct (isPdaRule r).
Qed.

Lemma pdaOf_push_other (r : MappingRule) (st : RuleState) :
  isPdaRule r = false -> pdaOf (push r st) = pdaOf st.
Proof. intros H. rewrite pdaOf_push, H. lia. Qed.

Lemma isPdaRule_ruleOfStateVariable (v : StateVariable) :
  isPdaRule (ruleOfStateVariable v) = isMappingVar v.
Proof.
  unfold ruleOfStateVariable. destruct (isMappingVar v); [reflexivity|].
  now destruct (includes (toLowerCase (sv_name v)) (str "owner")
                && jseq (sv_typeName v) (str "address")).
Qed.

Lemma pdaOf_stateVariables (vs : list StateVariable) : forall st : RuleState,
  pdaOf (fold_left (fun st v => push (ruleOfStateVariable v) st) vs st)
  = pdaOf st + length (filter isMappingVar vs).
Proof.
  induction vs as [|v vs IH]; intros st; simpl; [lia|].
  rewrite IH, pdaOf_push, isPdaRule_ruleOfStateVariable.
  destruct (isMappingVar v); simpl; lia.
Qed.

Lemma pdaOf_pushAll (l : list MappingRule) : forall st : RuleState,
  Forall (fun r => isPdaRule r = false) l ->
  pdaOf (fold_left (fun st rule => push rule st) l st) = pdaOf st.
Proof.
  induction l as [|r l IH]; intros st H; simpl; [reflexivity|].
  inversion H as [|? ? Hr Hl]; subst.
  rewrite IH by assumption. now apply pdaOf_push_other.
Qed.

Lemma pattern_rules_not_pda (p : MappingRule -> bool) :
  Forall (fun r => isPdaRule r = false)
         (filter (fun r => category_eqb (category r) CatPattern && p r) STATIC_RULES).
Proof.
  apply Forall_forall. intros r Hr. apply filter_In in Hr as [Hin Hc].
  apply andb_prop in Hc as [Hc _].
  assert (A : forallb (fun r => negb (category_eqb (category r) CatPattern)
                                || negb (isPdaRule r)) STATIC_RULES = true)
    by reflexivity.
  rewrite forallb_forall in A. specialize (A r Hin).
  rewrite Hc in A. simpl in A. now destruct (isPdaRule r).
Qed.

Lemma pdaOf_contractRules (c : ContractDef) (st : RuleState) :
  pdaOf (contractRules c st) = pdaOf st + length (filter isMappingVar (stateVariables c)).
Proof.
  unfold contractRules.
  set (st1 := push _ st).
  set (st2 := fold_left _ (stateVariables c) st1).
  assert (E2 : pdaOf st2 = pdaOf st + length (filter isMappingVar (stateVariables c))).
  { subst st2. rewrite pdaOf_stateVariables. subst st1.
    now rewrite pdaOf_push_other by reflexivity. }
  destruct (0 <? length (filter isPublicFn (functions c)));
    destruct (0 <? length (events c));
    rewrite ?pdaOf_push_other by reflexivity; exact E2.
Qed.

Lemma pdaRuleCount_applyMappingRules (parsed : ParsedContract) :
  pdaRuleCount (applyMappingRules parsed)
  = match mainContractOf parsed with
    | Some c => length (filter isMappingVar (stateVariables c))
    | None => 0
    end.
Proof.
  unfold applyMappingRules.
  set (st1 := match mainContractOf parsed with
              | Some c => contractRules c (0, [])
              | None => (0, [])
              end).
  assert (E1 : pdaOf st1 = match mainContractOf parsed with
                           | Some c => length (filter isMappingVar (stateVariables c))
                           | None => 0
                           end).
  { subst st1. destruct (mainContractOf parsed) as [c|]; [|reflexivity].
    now rewrite pdaOf_contractRules. }
  rewrite <- E1. clearbody st1.
  set (st2 := if isERC20 parsed then _ else st1).
  assert (E2 : pdaOf st2 = pdaOf st1).
  { subst st2. destruct (isERC20 parsed); [|reflexivity].
    now apply pdaOf_push_other. }
  rewrite <- E2. clearbody st2.
  set (st3 := if isERC721 parsed then _ else st2).
  assert (E3 : pdaOf st3 = pdaOf st2).
  { subst st3. destruct (isERC721 parsed); [|reflexivity].
    now apply pdaOf_push_other. }
  rewrite <- E3. clearbody st3.
  set (st4 := if hasOwnable parsed && _ then _ else st3).
  assert (E4 : pdaOf st4 = pdaOf st3).
  { subst st4. destruct (hasOwnable parsed && _); [|reflexivity].
    now apply pdaOf_push_other. }
  rewrite <- E4. clearbody st4.
  set (st5 := if hasAccessControl parsed then _ else st4).
  assert (E5 : pdaOf st5 = pdaOf st4).
  { subst st5. destruct (hasAccessControl parsed); [|reflexivity].
    now apply pdaOf_push_other. }
  rewrite <- E5. clearbody st5.
  apply (pdaOf_pushAll _ st5), pattern_rules_not_pda.
Qed.

Lemma mainContractOf_In (parsed : ParsedContract) (c : ContractDef) :
  mainContractOf parsed = Some c -> In c (contracts parsed).
Proof.
  unfold mainContractOf.
  destruct (find kind_is_contract (contracts parsed)) as [c'|] eqn:E.
  - intros H. injection H as <-. now apply find_some in E.
  - destruct (contracts parsed) as [|c0 cs]; simpl; [discriminate|].
    intros H. injection H as <-. now left.
Qed.

(** ** The properties stated by the specification *)

(** C1 (as the code has it): for every contract declaration the scanner
    finds, the body it yields starts just after the declaration's opening
    brace and is the text up to the first closing brace at which the count
    of all brace characters after the opening one is balanced, whether
    they stand in code, in a comment or in a string literal. *)
Theorem C1_body_span_by_brace_count :
  forall (source : jsstring) (m : rmatch) (body post : list ascii),
    In m (matchAll contractRe source) ->
    skipn (startIdxOf m) source = body ++ "}"%char :: post ->
    staysOpen body ->
    braceDepth body = 0%Z ->
    (exists decl, firstn (startIdxOf m) source = decl ++ ["{"%char])
    /\ extractBody source (startIdxOf m) = body.
Proof.
  intros source m body post Hm E Ho Hb. split.
  - destruct (contractRe_opening_brace source m Hm) as (decl & Hd & _).
    now exists decl.
  - exact (extractBody_closed source (startIdxOf m) body post E Ho Hb).
Qed.

Lemma C1_body_span_witness :
  let m := nth 0 (matchAll contractRe braceInString) (RMatch 0 [] [] [] []) in
  let body := str " string s = " ++ [dquote] in
  let post := dquote :: str "; uint y; }" in
  In m (matchAll contractRe braceInString)
  /\ skipn (startIdxOf m) braceInString = body ++ "}"%char :: post
  /\ staysOpen body
  /\ braceDepth body = 0%Z
  /\ extractBody braceInString (startIdxOf m) = body.
Proof.
  intros m body post.
  assert (Hm : In m (matchAll contractRe braceInString))
    by (vm_compute; left; reflexivity).
  assert (E : skipn (startIdxOf m) braceInString = body ++ "}"%char :: post)
    by (vm_compute; reflexivity).
  assert (Ho : staysOpen body) by (apply staysOpenb_correct; reflexivity).
  assert (Hb : braceDepth body = 0%Z) by reflexivity.
  split; [exact Hm|]. split; [exact E|]. split; [exact Ho|]. split; [exact Hb|].
  exact (proj2 (C1_body_span_by_brace_count braceInString m body post Hm E Ho Hb)).
Defined.

(** C1 as stated fails: the closing brace inside the string literal of
    [braceInString] ends the body the scanner yields, which is not the
    text up to the brace that truly closes the contract. *)
Lemma C1_brace_in_string_counterexample :
  exists m,
    matchAll contractRe braceInString = [m]
    /\ extractBody braceInString (startIdxOf m) = str " string s = " ++ [dquote]
    /\ bodySpan_spec braceInString (startIdxOf m)
       = Some (str " string s = " ++ [dquote] ++ str "}" ++ [dquote] ++ str "; uint y; ")
    /\ bodySpan_spec braceInString (startIdxOf m)
       <> Some (extractBody braceInString (startIdxOf m)).
Proof.
  eexists. split; [vm_compute; reflexivity|].
  split; [vm_compute; reflexivity|].
  split; [vm_compute; reflexivity|].
  vm_compute. discriminate.
Qed.




(** C3: when a contract body holds a constructor declaration (the word
    [constructor], optional white space, and a parenthesised parameter
    list), wherever it stands in the body, the extracted function sequence
    has at index 0 a record with name "constructor", [isConstructor] true
    and visibility "public"; the records after it are those of the
    function matches. *)
Theorem C3_constructor_first :
  forall (body pre gap params post : list ascii),
    body = pre ++ str "constructor" ++ gap ++ "("%char :: params ++ ")"%char :: post ->
    Forall (fun c => isSpace c = true) gap ->
    Forall (fun c => c <> ")"%char) params ->
    exists ctor rest,
      extractFunctions body = ctor :: rest
      /\ fn_name ctor = str "constructor"
      /\ isConstructor ctor = true
      /\ fn_visibility ctor = str "public"
      /\ rest = map functionOfMatch (matchAll functionRe body).
Proof.
  intros body pre gap params post -> Hgap Hparams.
  pose proof (constructorRe_matches pre gap params post Hgap Hparams) as H.
  unfold extractFunctions.
  destruct (jsmatch constructorRe _) as [ctorMatch|]; [|contradiction].
  exists (constructorOfMatch ctorMatch), (map functionOfMatch (matchAll functionRe
    (pre ++ str "constructor" ++ gap ++ "("%char :: params ++ ")"%char :: post))).
  repeat split.
Qed.

Lemma C3_constructor_first_witness :
  let body := extractBody scenario4 (length (str "contract K {")) in
  let pre := str " function foo() public {} " in
  let params := str "address a" in
  let post := str " { owner = a; } " in
  body = pre ++ str "constructor" ++ [] ++ "("%char :: params ++ ")"%char :: post
  /\ exists ctor rest,
       extractFunctions body = ctor :: rest
       /\ fn_name ctor = str "constructor"
       /\ isConstructor ctor = true
       /\ fn_visibility ctor = str "public"
       /\ rest = map functionOfMatch (matchAll functionRe body).
Proof.
  intros body pre params post.
  assert (E : body = pre ++ str "constructor" ++ [] ++ "("%char :: params
                     ++ ")"%char :: post) by (vm_compute; reflexivity).
  split; [exact E|].
  apply (C3_constructor_first body pre [] params post E).
  - constructor.
  - repeat constructor; discriminate.
Defined.

(** C4: [isERC20] holds exactly when the lower-cased function names of
    all contracts together contain "transfer", "approve" and
    "transferfrom"; on the source of Scenario 1 the result has exactly one
    contract, [isERC20] is true and [isERC721] is false. *)
Theorem C4_isERC20 :
  (forall hook source,
     let r := parseSolidity hook source in
     isERC20 r = true
     <-> hasFunctionNamed (contracts r) (str "transfer")
         /\ hasFunctionNamed (contracts r) (str "approve")
         /\ hasFunctionNamed (contracts r) (str "transferfrom"))
  /\ (let r := parseSolidity None scenario1 in
      length (contracts r) = 1 /\ isERC20 r = true /\ isERC721 r = false).
Proof.
  split.
  - intros hook source r.
    destruct (parseSolidity_assembled hook source) as (pv & im & er & E).
    fold r in E. rewrite E at 1. apply isERC20_buildResult.
  - vm_compute. repeat split; reflexivity.
Qed.

(** C5: the complexity of every analysis result is [High] exactly when
    the total function count exceeds 15 or the total state-variable count
    exceeds 10, [Medium] exactly when it is not high and the function
    count exceeds 6, and [Low] otherwise; a contract with exactly 16
    functions and no state variable is classified [High], and so is the
    source of Scenario 5. *)
Theorem C5_complexity_tiers :
  (forall hook source,
     let r := parseSolidity hook source in
     let fns := totalFunctions (contracts r) in
     let vars := totalStateVariables (contracts r) in
     (complexity r = High <-> 15 < fns \/ 10 < vars)
     /\ (complexity r = Medium <-> ~ (15 < fns \/ 10 < vars) /\ 6 < fns)
     /\ (complexity r = Low <-> ~ (15 < fns \/ 10 < vars) /\ ~ 6 < fns))
  /\ (forall c pv im src er,
        length (functions c) = 16 -> length (stateVariables c) = 0 ->
        complexity (buildResult [c] pv im src er) = High)
  /\ (let r := parseSolidity None scenario5 in
      map (fun c => (length (functions c), length (stateVariables c))) (contracts r)
      = [(16, 0)]
      /\ complexity r = High).
Proof.
  split; [|split].
  - intros hook source r fns vars.
    destruct (parseSolidity_assembled hook source) as (pv & im & er & E).
    fold r in E. rewrite E, complexity_buildResult. fold fns vars.
    destruct (15 <? fns) eqn:H15; destruct (10 <? vars) eqn:H10;
      destruct (6 <? fns) eqn:H6; simpl;
      rewrite ?Nat.ltb_lt, ?Nat.ltb_ge in *;
      repeat split; intros; try discriminate; try lia; try tauto.
  - intros c pv im src er Hf Hv. rewrite complexity_buildResult.
    unfold totalFunctions, totalStateVariables; simpl. rewrite Hf, Hv.
    reflexivity.
  - vm_compute. split; reflexivity.
Qed.

(** C6 (as the code has it): the parameter list is split on commas and
    every token is trimmed, the empty ones dropped; the i-th token gives
    the i-th parameter, of functions and of events alike; its type is the
    first white-space-separated word of the token, and when the token has
    several words its name is the last one; an event parameter is indexed
    when its token contains "indexed". *)
Theorem C6_parameter_split :
  forall (params : jsstring) (i : nat) (token : jsstring),
    nth_error (filterBoolean (map trim (splitOn "," params))) i = Some token ->
    exists p e,
      nth_error (parseParams params) i = Some p
      /\ nth_error (parseEventParams params) i = Some e
      /\ takeWord token <> []
      /\ p_typeName p = takeWord token
      /\ ep_typeName e = takeWord token
      /\ ep_indexed e = includes token (str "indexed")
      /\ (existsb isSpace token = true ->
          p_name p = lastWord token /\ ep_name e = lastWord token).
Proof.
  intros params i token Hi.
  fold (paramTokens params) in Hi.
  exists (parseParam token), (parseEventParam token).
  unfold parseParams, parseEventParams. rewrite !nth_error_map, Hi.
  split; [reflexivity|]. split; [reflexivity|].
  apply nth_error_In in Hi.
  destruct (paramTokens_trimmed params token Hi) as [(c & t & Ec & Hc) (t' & c' & Ec' & Hc')].
  destruct (token_first_word token c t Ec Hc) as [Hw Hrest].
  assert (Et : token = takeWord token ++ dropWord token)
    by (symmetry; apply takeWord_dropWord).
  split; [apply Hw|].
  split; [exact (parts_first token _ _ _ Et Hw Hrest)|].
  split; [exact (parts_first token _ _ _ Et Hw Hrest)|].
  split; [reflexivity|].
  intros Hs.
  destruct (token_last_word token t' c' Ec' Hc' Hs) as (pre & x & El & Hx & Hl).
  split; exact (parts_last token pre x _ _ El Hx Hl).
Qed.

Lemma C6_parameter_split_witness :
  let params := str "uint256 memory x, address" in
  let token := str "uint256 memory x" in
  nth_error (filterBoolean (map trim (splitOn "," params))) 0 = Some token
  /\ exists p e,
       nth_error (parseParams params) 0 = Some p
       /\ nth_error (parseEventParams params) 0 = Some e
       /\ takeWord token <> []
       /\ p_typeName p = takeWord token
       /\ ep_typeName e = takeWord token
       /\ ep_indexed e = includes token (str "indexed")
       /\ (existsb isSpace token = true ->
           p_name p = lastWord token /\ ep_name e = lastWord token).
Proof.
  intros params token.
  assert (H : nth_error (filterBoolean (map trim (splitOn "," params))) 0 = Some token)
    by reflexivity.
  split; [exact H|].
  exact (C6_parameter_split params 0 token H).
Defined.

(** C6 as stated fails: in a token of three words the type is the first
    word, not everything before the last one, and the name of a token of
    one word is that word, not the empty string. *)
Lemma C6_spec_rule_counterexample :
  let params := str "uint256 memory x, address" in
  parseParams params
  = [ {| p_name := str "x"; p_typeName := str "uint256" |};
      {| p_name := str "address"; p_typeName := str "address" |} ]
  /\ map parseParam_spec (paramTokens params)
     = [ {| p_name := str "x"; p_typeName := str "uint256 memory" |};
         {| p_name := []; p_typeName := str "address" |} ]
  /\ p_typeName (parseParam (str "uint256 memory x")) <> str "uint256 memory"
  /\ p_name (parseParam (str "address")) <> [].
Proof.
  intros params.
  split; [vm_compute; reflexivity|].
  split; [vm_compute; reflexivity|].
  split; vm_compute; discriminate.
Qed.

(** C7 (as the code has it): the rule engine emits one PDA rule per
    state variable of the main contract (the first record of kind
    contract, else the first record) whose type name starts with
    "mapping"; that number is at most the mapping count of the cost
    estimator, which ranges over all contracts, and equals it when the
    result has at most one contract; [hasMappings] is a flag, true exactly
    when the source text contains "mapping(" at least once. *)
Theorem C7_pda_rules_of_main_contract :
  forall (hook : option Parser) (source : jsstring),
    let r := parseSolidity hook source in
    let pda := pdaRuleCount (applyMappingRules r) in
    pda = match mainContractOf r with
          | Some c => length (filter isMappingVar (stateVariables c))
          | None => 0
          end
    /\ pda <= mappingCount r
    /\ (length (contracts r) <= 1 -> pda = mappingCount r)
    /\ (hasMappings r = true <-> 0 < countOccurrences source (str "mapping(")).
Proof.
  intros hook source r pda.
  assert (E : pda = match mainContractOf r with
                    | Some c => length (filter isMappingVar (stateVariables c))
                    | None => 0
                    end) by apply pdaRuleCount_applyMappingRules.
  split; [exact E|]. split; [|split].
  - rewrite E. destruct (mainContractOf r) as [c|] eqn:Em; [|lia].
    apply mainContractOf_In in Em. unfold mappingCount.
    now apply filter_flat_map_le.
  - intros Hl. rewrite E. unfold mappingCount, mainContractOf.
    destruct (contracts r) as [|c [|c' cs]]; simpl in *; [reflexivity| |lia].
    rewrite app_nil_r. now destruct (kind_is_contract c).
  - subst r. rewrite hasMappings_parseSolidity. apply includes_countOccurrences.
Qed.

(** C7 as stated fails.  On Scenario 3 the source holds one mapping
    declaration, which sets [hasMappings], but the regex path records no
    state variable for it; on a file of two contracts with one mapping
    each, analysed with a parser installed, two state variables have a
    mapping type and the rule engine emits one PDA rule. *)
Lemma C7_mapping_count_counterexample :
  (let r := parseSolidity None scenario3 in
   hasMappings r = true
   /\ countOccurrences scenario3 (str "mapping(") = 1
   /\ mappingCount r = 0)
  /\ (let r := parseSolidity (Some (fun _ => Parsed twoMappingsAst)) twoMappings in
      mappingCount r = 2
      /\ pdaRuleCount (applyMappingRules r) = 1).
Proof. vm_compute. repeat split; reflexivity. Qed.








(** C9: on the empty input the analysis returns a result whose contracts
    sequence is empty, whose pragma version is "unknown", whose imports
    sequence is empty and whose complexity is low; so does the regex
    parser itself, and so does the analysis when an installed parser
    throws or returns the empty tree. *)
Theorem C9_empty_input :
  let expected (r : ParsedContract) :=
    contracts r = [] /\ pragmaVersion r = str "unknown"
    /\ imports r = [] /\ complexity r = Low in
  expected (regexFallbackParser [])
  /\ expected (parseSolidity None [])
  /\ (forall parser message,
        parser [] = Threw message -> expected (parseSolidity (Some parser) []))
  /\ (forall parser,
        parser [] = Parsed [] -> expected (parseSolidity (Some parser) [])).
Proof.
  intros expected.
  assert (R : expected (regexFallbackParser [])).
  { unfold expected. vm_compute. repeat split; reflexivity. }
  split; [exact R|]. split; [exact R|]. split.
  - intros parser message E. unfold parseSolidity. rewrite E. exact R.
  - intros parser E. unfold parseSolidity. rewrite E.
    unfold expected. vm_compute. repeat split; reflexivity.
Qed.



(** * Further properties of the code *)

(** ** The body of a declaration *)

(** From any depth, the text after an opening brace either holds the
    closing brace that brings the count back to zero, or never does. *)
Lemma scan_cases (rest : list ascii) : forall d : Z,
  (0 < d)%Z ->
  (exists body post,
     rest = body ++ "}"%char :: post
     /\ (forall p q, body = p ++ q -> (0 < d + braceDepth p)%Z)
     /\ (d + braceDepth body = 1)%Z)
  \/ (forall p q, rest = p ++ q -> (0 < d + braceDepth p)%Z).
Proof.
  induction rest as [|c rest IH]; intros d Hd.
  - right. intros p q E. symmetry in E. apply app_eq_nil in E as [-> _]. simpl. lia.
  - destruct (Z.eq_dec (d + braceDepth [c]) 0) as [Hz | Hz].
    + left. exists [], rest.
      assert (Hc : c = "}"%char).
      { simpl in Hz. destruct (Ascii.eqb c "{"); [lia|].
        destruct (Ascii.eqb c "}") eqn:E; [now apply Ascii.eqb_eq in E | lia]. }
      subst c. split; [reflexivity|]. split.
      * intros p q E. symmetry in E. apply app_eq_nil in E as [-> _]. simpl. lia.
      * simpl in *. lia.
    + assert (Hd' : (0 < d + braceDepth [c])%Z).
      { simpl in *. destruct (Ascii.eqb c "{"); [lia|].
        destruct (Ascii.eqb c "}"); lia. }
      destruct (IH _ Hd') as [(body & post & E & Hp & Hb) | Ho].
      * left. exists (c :: body), post. split; [now rewrite E|]. split.
        -- intros [|x p] q Ep; [simpl; lia|].
           simpl in Ep. injection Ep as <- Ep.
           specialize (Hp p q Ep). simpl in *. lia.
        -- simpl in *. lia.
      * right. intros [|x p] q Ep; [simpl; lia|].
        simpl in Ep. injection Ep as <- Ep.
        specialize (Ho p q Ep). simpl in *. lia.
Qed.

Lemma staysOpen_removelast (rest : list ascii) :
  staysOpen rest -> staysOpen (removelast rest).
Proof.
  intros Ho p q E.
  destruct rest as [|c rest]; [simpl in E|].
  - symmetry in E. apply app_eq_nil in E as [-> _]. simpl. lia.
  - assert (Hne : c :: rest <> []) by discriminate.
    apply (Ho p (q ++ [last (c :: rest) c])).
    rewrite app_assoc, <- E. now apply app_removelast_last.
Qed.

(** X1: the body of a declaration is always a text none of whose
    prefixes closes more braces than it opens.  It is followed by the
    closing brace that balances it; or, when no brace balances the opening
    one, it is the rest of the source without its last character. *)
Theorem X1_extractBody_cases :
  forall (source : jsstring) (startIdx : nat),
    let rest := skipn startIdx source in
    let body := extractBody source startIdx in
    staysOpen body
    /\ ((exists post, rest = body ++ "}"%char :: post /\ braceDepth body = 0%Z)
        \/ (staysOpen rest /\ body = removelast rest)).
Proof.
  intros source startIdx rest body.
  destruct (scan_cases rest 1 ltac:(lia)) as [(b & post & E & Hp & Hb) | Ho].
  - assert (Hs : staysOpen b) by (intros p q Ep; specialize (Hp p q Ep); lia).
    assert (Hd : braceDepth b = 0%Z) by lia.
    assert (Eb : body = b) by (apply (extractBody_closed source startIdx b post E Hs Hd)).
    rewrite Eb. split; [exact Hs|]. left. now exists post.
  - assert (Hs : staysOpen rest) by (intros p q Ep; specialize (Ho p q Ep); lia).
    assert (Eb : body = removelast rest) by (now apply extractBody_open).
    rewrite Eb. split; [now apply staysOpen_removelast|]. right. now split.
Qed.

(** ** The order of the matches *)

Lemma matchAllFrom_ordered (r : regex) : forall (fuel : nat) (bef aft : list ascii),
  Forall (fun m => length bef <= m_index m) (matchAllFrom fuel r bef aft)
  /\ ForallOrdPairs matchBefore (matchAllFrom fuel r bef aft).
Proof.
  induction fuel as [|fuel IH]; intros bef aft; cbn [matchAllFrom].
  - split; constructor.
  - destruct (search r bef aft) as [m|] eqn:E; [|split; constructor].
    apply search_sound in E as (pre & _ & Eb & Ei & _).
    assert (Hl : length (m_before m) = startIdxOf m).
    { unfold startIdxOf. rewrite Eb, Ei, !length_app, !length_rev. lia. }
    assert (T : forall tail,
               Forall (fun x => m_index m < m_index x /\ startIdxOf m <= m_index x) tail ->
               ForallOrdPairs matchBefore tail ->
               Forall (fun x => length bef <= m_index x) (m :: tail)
               /\ ForallOrdPairs matchBefore (m :: tail)).
    { intros tail Ht Ho. split.
      - constructor; [lia|]. eapply Forall_impl; [|exact Ht].
        cbn beta. intros x [Hx _]. lia.
      - constructor; [exact Ht | exact Ho]. }
    destruct (m_text m) as [|x t] eqn:Et.
    + destruct (m_after m) as [|c aft'] eqn:Ea.
      * apply T; constructor.
      * destruct (IH (c :: m_before m) aft') as [Hf Ho]. apply T; [|exact Ho].
        eapply Forall_impl; [|exact Hf]. cbn beta. intros y Hy.
        cbn [length] in Hy. unfold startIdxOf in *. rewrite Et in *.
        cbn [length] in *. lia.
    + destruct (IH (m_before m) (m_after m)) as [Hf Ho]. apply T; [|exact Ho].
      eapply Forall_impl; [|exact Hf]. cbn beta. intros y Hy.
      unfold startIdxOf in *. rewrite Et in *. cbn [length] in *. lia.
Qed.

(** Where a match of [matchAll] ends in the text. *)
Lemma matchAll_end (r : regex) (s : jsstring) (m : rmatch) :
  In m (matchAll r s) ->
  startIdxOf m <= length s
  /\ firstn (startIdxOf m) s = rev (m_before m)
  /\ skipn (startIdxOf m) s = m_after m.
Proof.
  intros H. apply matchAllFrom_sound in H as (bef & aft & Z & Hm).
  cbn [rev app] in Z.
  pose proof (matchAt_sound _ _ _ _ Hm) as (Hi & Hb & Ha).
  assert (Hs : s = rev (m_before m) ++ m_after m).
  { rewrite Hb, rev_app_distr, rev_involutive, <- app_assoc, <- Ha. now symmetry. }
  assert (Hl : startIdxOf m = length (rev (m_before m))).
  { unfold startIdxOf. rewrite Hi, length_rev, Hb, length_app, length_rev. lia. }
  rewrite Hl. clear Hl Hi Hb Ha Hm Z.
  generalize dependent (rev (m_before m)). generalize (m_after m).
  intros A L ->. split; [|split].
  - rewrite length_app. lia.
  - apply firstn_length_app.
  - rewrite skipn_app, skipn_all, Nat.sub_diag. reflexivity.
Qed.

(** X2: the contract records are those of the declarations the scanner
    finds, in the order of the source: each declaration starts after the
    start of the previous one, at or after its opening brace, and the
    opening brace of each lies in the source. *)
Theorem X2_contracts_in_source_order :
  forall source : jsstring,
    let ms := matchAll contractRe source in
    contracts (regexFallbackParser source) = map (contractOfMatch source) ms
    /\ ForallOrdPairs matchBefore ms
    /\ Forall (fun m => 1 <= startIdxOf m <= length source
                        /\ nth_error source (startIdxOf m - 1) = Some "{"%char) ms.
Proof.
  intros source ms. split; [reflexivity|]. split.
  - apply (matchAllFrom_ordered contractRe).
  - apply Forall_forall. intros m Hm.
    destruct (contractRe_opening_brace source m Hm) as (decl & Hd & _).
    destruct (matchAll_end contractRe source m Hm) as (Hle & _ & _).
    assert (Hl : startIdxOf m = length decl + 1).
    { apply (f_equal (@length ascii)) in Hd.
      rewrite length_app, length_firstn in Hd. cbn [length] in Hd. lia. }
    split; [lia|].
    rewrite <- (firstn_skipn (startIdxOf m) source), Hd.
    rewrite nth_error_app1 by (rewrite length_app; cbn [length]; lia).
    rewrite nth_error_app2 by lia.
    replace (startIdxOf m - 1 - length decl) with 0 by lia. reflexivity.
Qed.

(** ** What the capture groups hold *)

Lemma lookupCap_setCap_other (n m : nat) (v : jsstring) (cs : list (nat * jsstring)) :
  n <> m -> lookupCap m ((n, v) :: cs) = lookupCap m cs.
Proof. intros H. cbn [lookupCap]. now apply Nat.eqb_neq in H as ->. Qed.

Lemma lookupCap_setCap_same (n : nat) (v : jsstring) (cs : list (nat * jsstring)) :
  lookupCap n ((n, v) :: cs) = Some v.
Proof. cbn [lookupCap]. now rewrite Nat.eqb_refl. Qed.

(** A run of the matcher changes only the groups of its pattern. *)
Lemma mt_caps (r : regex) : forall (k : mstate -> option mstate) (st res : mstate),
  mt r k st = Some res ->
  exists st' mid,
    advances st st' mid /\ k st' = Some res
    /\ forall n, ~ In n (groupsOf r) -> lookupCap n (caps st') = lookupCap n (caps st).
Proof.
  induction r as [| c | neg items | r1 IH1 r2 IH2 | r1 IH1 r2 IH2 | r1 IH1
                  | n r1 IH1 | | ]; intros k st res H; cbn [mt groupsOf] in *.
  - exists st, []. split; [apply advances_refl|]. now split.
  - unfold step1 in H. destruct (after st) as [|x rest] eqn:E; [discriminate|].
    destruct (Ascii.eqb c x); [|discriminate].
    exists (MState (x :: before st) rest (caps st)), [x].
    split; [split; [reflexivity | exact E]|]. now split.
  - unfold step1 in H. destruct (after st) as [|x rest] eqn:E; [discriminate|].
    destruct (inClass neg items x); [|discriminate].
    exists (MState (x :: before st) rest (caps st)), [x].
    split; [split; [reflexivity | exact E]|]. now split.
  - apply IH1 in H as (st1 & m1 & A1 & H & C1).
    apply IH2 in H as (st2 & m2 & A2 & H & C2).
    exists st2, (m1 ++ m2). split; [now apply (advances_trans _ _ _ _ _ A1)|].
    split; [exact H|]. intros n Hn. rewrite in_app_iff in Hn.
    rewrite C2, C1 by tauto. reflexivity.
  - destruct (mt r1 k st) eqn:E.
    + injection H as ->. apply IH1 in E as (st1 & m1 & A1 & E & C1).
      exists st1, m1. split; [exact A1|]. split; [exact E|].
      intros n Hn. rewrite in_app_iff in Hn. apply C1. tauto.
    + apply IH2 in H as (st1 & m1 & A1 & E' & C1).
      exists st1, m1. split; [exact A1|]. split; [exact E'|].
      intros n Hn. rewrite in_app_iff in Hn. apply C1. tauto.
  - remember (length (after st)) as fuel eqn:Ef. clear Ef.
    revert st H. induction fuel as [|fuel IHf]; intros st H; cbn [starLoop] in H.
    + exists st, []. split; [apply advances_refl|]. now split.
    + match type of H with
      | match ?x with _ => _ end = _ => destruct x eqn:E
      end.
      * injection H as ->. apply IH1 in E as (st1 & m1 & A1 & E & C1).
        destruct (length (after st1) <? length (after st)); [|discriminate].
        apply IHf in E as (st2 & m2 & A2 & E & C2).
        exists st2, (m1 ++ m2). split; [now apply (advances_trans _ _ _ _ _ A1)|].
        split; [exact E|]. intros n Hn. rewrite C2, C1 by assumption. reflexivity.
      * exists st, []. split; [apply advances_refl|]. now split.
  - apply IH1 in H as (st1 & m1 & A1 & H & C1).
    exists (setCap n (consumed st st1) st1), m1. split; [exact A1|].
    split; [exact H|]. intros m Hm. unfold setCap; cbn [caps].
    rewrite lookupCap_setCap_other by (intros ->; apply Hm; now left).
    apply C1. intros Hin. apply Hm. now right.
  - destruct (atLineStart st); [|discriminate].
    exists st, []. split; [apply advances_refl|]. now split.
  - destruct (atWordBoundary st); [|discriminate].
    exists st, []. split; [apply advances_refl|]. now split.
Qed.

(** The groups of a match are those of the state the matcher ends in. *)
Lemma matchAt_caps (r : regex) (bef aft : list ascii) (m : rmatch) :
  matchAt r bef aft = Some m ->
  exists st', mt r (fun st => Some st) (MState bef aft []) = Some st'
              /\ m_caps m = caps st'.
Proof.
  unfold matchAt. destruct (mt r _ _) as [st'|] eqn:E; [|discriminate].
  intros H. injection H as <-. now exists st'.
Qed.

Lemma mt_Lit_inv (l : jsstring) (k : mstate -> option mstate) :
  forall (st res : mstate),
    mt (Lit l) k st = Some res ->
    exists rest, after st = l ++ rest
                 /\ k (MState (rev l ++ before st) rest (caps st)) = Some res.
Proof.
  induction l as [|c l IH]; intros st res H; cbn [Lit mt] in H.
  - exists (after st). split; [reflexivity|]. now destruct st.
  - unfold step1 in H. destruct (after st) as [|x rest] eqn:E; [discriminate|].
    destruct (Ascii.eqb c x) eqn:Ec; [|discriminate].
    apply Ascii.eqb_eq in Ec. subst x.
    apply IH in H as (rest' & Ea & H). cbn [after before caps] in *.
    exists rest'. split; [now rewrite Ea|].
    cbn [rev]. now rewrite <- app_assoc.
Qed.

Lemma mt_Class_inv (neg : bool) (items : list cset) (k : mstate -> option mstate)
    (st res : mstate) :
  mt (Class neg items) k st = Some res ->
  exists c rest, after st = c :: rest /\ inClass neg items c = true
                 /\ k (MState (c :: before st) rest (caps st)) = Some res.
Proof.
  cbn [mt]. unfold step1. destruct (after st) as [|x rest]; [discriminate|].
  destruct (inClass neg items x) eqn:E; [|discriminate].
  intros H. now exists x, rest.
Qed.

Lemma mt_Star_Class_inv (neg : bool) (items : list cset) (k : mstate -> option mstate) :
  forall (st res : mstate),
    mt (Star (Class neg items)) k st = Some res ->
    exists run rest,
      after st = run ++ rest
      /\ Forall (fun c => inClass neg items c = true) run
      /\ k (MState (rev run ++ before st) rest (caps st)) = Some res.
Proof.
  intros st res H. cbn [mt] in H.
  remember (length (after st)) as fuel eqn:Ef. clear Ef.
  revert st H. induction fuel as [|fuel IH]; intros st H; cbn [starLoop] in H.
  - exists [], (after st). split; [reflexivity|]. split; [constructor|].
    now destruct st.
  - unfold step1 in H. destruct (after st) as [|x rest] eqn:E.
    + exists [], []. split; [reflexivity|]. split; [constructor|].
      destruct st; cbn in *. now subst.
    + destruct (inClass neg items x) eqn:Ex.
      * cbn [after] in H.
        destruct (length rest <? length (x :: rest)).
        -- match type of H with
           | match ?y with _ => _ end = _ => destruct y eqn:E1
           end.
           ++ injection H as ->. apply IH in E1 as (run & rest' & Ea & Hr & E1).
              cbn [after before caps] in *.
              exists (x :: run), rest'. split; [now rewrite Ea|].
              split; [now constructor|]. cbn [rev]. now rewrite <- app_assoc.
           ++ exists [], (x :: rest). split; [reflexivity|]. split; [constructor|].
              destruct st; cbn in *. now subst.
        -- exists [], (x :: rest). split; [reflexivity|]. split; [constructor|].
           destruct st; cbn in *. now subst.
      * exists [], (x :: rest). split; [reflexivity|]. split; [constructor|].
        destruct st; cbn in *. now subst.
Qed.

Lemma mt_Plus_Class_inv (neg : bool) (items : list cset) (k : mstate -> option mstate)
    (st res : mstate) :
  mt (Plus (Class neg items)) k st = Some res ->
  exists run rest,
    run <> [] /\ after st = run ++ rest
    /\ Forall (fun c => inClass neg items c = true) run
    /\ k (MState (rev run ++ before st) rest (caps st)) = Some res.
Proof.
  unfold Plus. rewrite mt_Seq. intros H.
  apply mt_Class_inv in H as (c & rest & Ea & Hc & H).
  apply mt_Star_Class_inv in H as (run & rest' & Ea' & Hr & H).
  cbn [after before caps] in *.
  exists (c :: run), rest'. split; [discriminate|]. split; [now rewrite Ea, Ea'|].
  split; [now constructor|]. cbn [rev]. now rewrite <- app_assoc.
Qed.

Lemma consumed_run (st : mstate) (run rest : list ascii) (cs : list (nat * jsstring)) :
  consumed st (MState (rev run ++ before st) rest cs) = run.
Proof.
  unfold consumed, position; cbn [before].
  replace (length (rev run ++ before st) - length (before st)) with (length (rev run))
    by (rewrite length_app; lia).
  now rewrite firstn_length_app, rev_involutive.
Qed.

(** A group over a repeated class holds the run it matched. *)
Lemma mt_Group_Plus_inv (n : nat) (neg : bool) (items : list cset)
    (k : mstate -> option mstate) (st res : mstate) :
  mt (Group n (Plus (Class neg items))) k st = Some res ->
  exists run rest,
    run <> [] /\ after st = run ++ rest
    /\ Forall (fun c => inClass neg items c = true) run
    /\ k (MState (rev run ++ before st) rest ((n, run) :: caps st)) = Some res.
Proof.
  rewrite mt_Group. intros H.
  apply mt_Plus_Class_inv in H as (run & rest & Hne & Ea & Hr & H).
  exists run, rest. repeat split; try assumption.
  unfold setCap in H; cbn [before after caps] in H. now rewrite consumed_run in H.
Qed.

Lemma mt_Group_Star_inv (n : nat) (neg : bool) (items : list cset)
    (k : mstate -> option mstate) (st res : mstate) :
  mt (Group n (Star (Class neg items))) k st = Some res ->
  exists run rest,
    after st = run ++ rest
    /\ Forall (fun c => inClass neg items c = true) run
    /\ k (MState (rev run ++ before st) rest ((n, run) :: caps st)) = Some res.
Proof.
  rewrite mt_Group. intros H.
  apply mt_Star_Class_inv in H as (run & rest & Ea & Hr & H).
  exists run, rest. repeat split; try assumption.
  unfold setCap in H; cbn [before after caps] in H. now rewrite consumed_run in H.
Qed.

(** A group over alternative words holds one of the words. *)
Lemma mt_Group_words_inv (n : nat) (words : list jsstring) (w0 : jsstring)
    (k : mstate -> option mstate) (st res : mstate) :
  mt (Group n (Alts (map Lit words) (Lit w0))) k st = Some res ->
  exists w rest,
    In w (words ++ [w0]) /\ after st = w ++ rest
    /\ k (MState (rev w ++ before st) rest ((n, w) :: caps st)) = Some res.
Proof.
  rewrite mt_Group. induction words as [|w words IH]; cbn [map Alts]; intros H.
  - apply mt_Lit_inv in H as (rest & Ea & H).
    exists w0, rest. split; [now left|]. split; [exact Ea|].
    unfold setCap in H; cbn [before after caps] in H. now rewrite consumed_run in H.
  - cbn [mt] in H.
    match type of H with
    | match ?y with _ => _ end = _ => destruct y eqn:E
    end.
    + injection H as ->. apply mt_Lit_inv in E as (rest & Ea & E).
      exists w, rest. split; [now left|]. split; [exact Ea|].
      unfold setCap in E; cbn [before after caps] in E. now rewrite consumed_run in E.
    + apply IH in H as (w' & rest & Hin & Ea & H).
      exists w', rest. split; [now right|]. now split.
Qed.

Lemma inClass_word (c : ascii) : inClass false [CWord] c = isWord c.
Proof. unfold inClass; cbn. now rewrite orb_false_r. Qed.

Lemma Forall_inClass_word (run : list ascii) :
  Forall (fun c => inClass false [CWord] c = true) run ->
  Forall (fun c => isWord c = true) run.
Proof. apply Forall_impl. intros c. now rewrite inClass_word. Qed.

Lemma Forall_inClass_space (run : list ascii) :
  Forall (fun c => inClass false [CSpace] c = true) run ->
  Forall (fun c => isSpace c = true) run.
Proof. apply Forall_impl. intros c. now rewrite inClass_space. Qed.

Lemma includes_app (a l b : jsstring) : includes (a ++ l ++ b) l = true.
Proof.
  assert (S : forall x y : jsstring, startsWith (x ++ y) x = true).
  { induction x as [|c x IH]; intros y; [now destruct y|].
    cbn [app startsWith]. now rewrite Ascii.eqb_refl, IH. }
  induction a as [|c a IH].
  - cbn [app]. destruct (l ++ b) eqn:E; cbn [includes]; rewrite <- ?E, S; reflexivity.
  - cbn [app includes]. rewrite IH. apply orb_true_r.
Qed.

(** What a match of the contract pattern holds: a keyword, white
    space and a name, kept in groups 1 and 2. *)
Lemma contractRe_groups (bef aft : list ascii) (m : rmatch) :
  matchAt contractRe bef aft = Some m ->
  exists pre kw gap name post,
    aft = pre ++ kw ++ gap ++ name ++ post
    /\ In kw [str "contract"; str "interface"; str "library"]
    /\ gap <> [] /\ Forall (fun c => isSpace c = true) gap
    /\ isIdentifier name
    /\ group m 1 = Some kw /\ group m 2 = Some name.
Proof.
  intros H. apply matchAt_caps in H as (st' & E & Hc).
  unfold group. rewrite Hc. clear Hc.
  unfold contractRe, Seqs in E; cbn [fold_right] in E.
  rewrite mt_Seq in E. apply mt_sound in E as (st1 & m1 & [_ A1] & E).
  rewrite mt_Seq in E. apply mt_sound in E as (st2 & m2 & [_ A2] & E).
  rewrite mt_Seq in E.
  apply (mt_Group_words_inv 1 [str "contract"; str "interface"] (str "library"))
    in E as (kw & r1 & Hkw & Ea1 & E).
  rewrite mt_Seq in E. unfold ws at 1 in E.
  apply mt_Plus_Class_inv in E as (gap & r2 & Hg & Ea2 & Hgap & E).
  rewrite mt_Seq in E. unfold wordc in E.
  apply mt_Group_Plus_inv in E as (name & r3 & Hn & Ea3 & Hname & E).
  apply mt_caps in E as (st5 & m5 & _ & E & C5). injection E as <-.
  cbn [after before caps] in *.
  exists (m1 ++ m2), kw, gap, name, r3.
  split; [rewrite A1, A2, Ea1, Ea2, Ea3, <- app_assoc; reflexivity|].
  split; [exact Hkw|]. split; [exact Hg|].
  split; [now apply Forall_inClass_space|].
  split; [split; [exact Hn | now apply Forall_inClass_word]|].
  split.
  - rewrite C5 by (cbn; lia).
    rewrite lookupCap_setCap_other by discriminate. apply lookupCap_setCap_same.
  - rewrite C5 by (cbn; lia).
    apply lookupCap_setCap_same.
Qed.

(** A pattern of the shape [\b(w1|...|wn)\b] keeps one of its words in
    group 1. *)
Lemma keywordRe_group (words : list jsstring) (w0 : jsstring) (s : jsstring) (m : rmatch) :
  jsmatch (Seqs [WordBoundary; Group 1 (Alts (map Lit words) (Lit w0)); WordBoundary]) s
  = Some m ->
  exists w, In w (words ++ [w0]) /\ group m 1 = Some w.
Proof.
  intros H. apply search_sound in H as (pre & _ & _ & _ & H).
  apply matchAt_caps in H as (st' & E & Hc).
  unfold group. rewrite Hc. clear Hc.
  unfold Seqs in E; cbn [fold_right] in E.
  rewrite mt_Seq in E. apply mt_sound in E as (st1 & m1 & _ & E).
  rewrite mt_Seq in E. apply mt_Group_words_inv in E as (w & r1 & Hw & _ & E).
  apply mt_caps in E as (st2 & m2 & _ & E & C2). injection E as <-.
  exists w. split; [exact Hw|].
  rewrite C2 by (cbn; tauto). apply lookupCap_setCap_same.
Qed.

(** The value of [m?.[1] || d] for such a pattern is one of its words
    or the default. *)
Lemma keyword_or_default (words : list jsstring) (w0 d : jsstring) (s : jsstring) :
  Forall (fun w => w <> []) (words ++ [w0]) ->
  In (orElse (match jsmatch (Seqs [WordBoundary;
                                   Group 1 (Alts (map Lit words) (Lit w0));
                                   WordBoundary]) s with
              | Some m => group m 1
              | None => None
              end) d)
     (words ++ [w0] ++ [d]).
Proof.
  intros Hne. destruct (jsmatch _ s) as [m|] eqn:E.
  - apply keywordRe_group in E as (w & Hw & ->).
    rewrite Forall_forall in Hne. rewrite orElse_nonempty by now apply Hne.
    rewrite app_assoc. apply in_or_app. now left.
  - cbn [orElse]. apply in_or_app. right. apply in_or_app. right. now left.
Qed.

(** What a match of the function pattern holds in group 1: a name. *)
Lemma functionRe_name (bef aft : list ascii) (m : rmatch) :
  matchAt functionRe bef aft = Some m ->
  exists name, isIdentifier name /\ group m 1 = Some name.
Proof.
  intros H. apply matchAt_caps in H as (st' & E & Hc).
  unfold group. rewrite Hc. clear Hc.
  unfold functionRe, Seqs in E; cbn [fold_right] in E.
  rewrite mt_Seq in E. apply mt_sound in E as (st1 & m1 & _ & E).
  rewrite mt_Seq in E. apply mt_sound in E as (st2 & m2 & _ & E).
  rewrite mt_Seq in E. unfold wordc in E.
  apply mt_Group_Plus_inv in E as (name & r3 & Hn & _ & Hname & E).
  apply mt_caps in E as (st5 & m5 & _ & E & C5). injection E as <-.
  exists name. split; [split; [exact Hn | now apply Forall_inClass_word]|].
  rewrite C5 by (cbn; lia). apply lookupCap_setCap_same.
Qed.

Lemma matchAll_matchAt (r : regex) (s : jsstring) (m : rmatch) :
  In m (matchAll r s) -> exists bef aft, rev bef ++ aft = s /\ matchAt r bef aft = Some m.
Proof. intros H. now apply matchAllFrom_sound in H. Qed.

Lemma paramTokens_names (params : jsstring) :
  Forall (fun p => p_name p <> [] /\ p_typeName p <> [])
         (parseParams params).
Proof.
  apply Forall_forall. intros p Hp. unfold parseParams in Hp.
  apply in_map_iff in Hp as (token & <- & Hin).
  destruct (In_nth_error _ _ Hin) as (i & Hi).
  destruct (paramTokens_trimmed params token Hin)
    as [(c & t & Ec & Hc) (t' & c' & Ec' & Hc')].
  destruct (token_first_word token c t Ec Hc) as [Hw Hrest].
  assert (Et : token = takeWord token ++ dropWord token)
    by (symmetry; apply takeWord_dropWord).
  split.
  - destruct (existsb isSpace token) eqn:Hs.
    + destruct (token_last_word token t' c' Ec' Hc' Hs) as (pre & x & El & Hx & Hl).
      unfold parseParam; cbn [p_name].
      rewrite (parts_last token pre x _ [] El Hx Hl). apply Hl.
    + unfold parseParam; cbn [p_name]. rewrite splitRe_spaces.
      rewrite splitWords_word.
      * cbn. rewrite Ec. discriminate.
      * apply Forall_forall. intros y Hy.
        destruct (isSpace y) eqn:Ey; [|reflexivity].
        assert (existsb isSpace token = true)
          by (apply existsb_exists; now exists y).
        congruence.
  - unfold parseParam; cbn [p_typeName].
    rewrite (parts_first token _ _ _ Et Hw Hrest). apply Hw.
Qed.

Lemma visibility_values (s : jsstring) :
  In (orElse (match jsmatch visibilityRe s with
              | Some m => group m 1
              | None => None
              end) (str "public"))
     [str "public"; str "private"; str "internal"; str "external"].
Proof.
  assert (K := keyword_or_default [str "public"; str "private"; str "internal"]
                 (str "external") (str "public") s).
  unfold visibilityRe, L. cbn [map app] in K.
  destruct K as [K | [K | [K | [K | [K | []]]]]];
    try (rewrite <- K; cbn [In]; tauto).
  repeat constructor; discriminate.
Qed.

Lemma mutability_values (s : jsstring) :
  In (orElse (match jsmatch mutabilityRe s with
              | Some m => group m 1
              | None => None
              end) (str "nonpayable"))
     [str "pure"; str "view"; str "payable"; str "nonpayable"].
Proof.
  assert (K := keyword_or_default [str "pure"; str "view"]
                 (str "payable") (str "nonpayable") s).
  unfold mutabilityRe, L. cbn [map app] in K.
  destruct K as [K | [K | [K | [K | []]]]];
    try (rewrite <- K; cbn [In]; tauto).
  repeat constructor; discriminate.
Qed.

Lemma takeWord_all (s : list ascii) : existsb isSpace s = false -> takeWord s = s.
Proof.
  induction s as [|c s IH]; [reflexivity|].
  cbn [existsb takeWord]. destruct (isSpace c); [discriminate|].
  cbn [orb]. intros H. now rewrite IH.
Qed.

(** ** The records of the regex path *)

(** X3: on the regex path a parameter never has an empty name: the
    name is the last word of its token, and for a token of one word the
    name and the type are both that word. *)
Theorem X3_parameter_name_never_empty :
  forall (params : jsstring) (i : nat) (token : jsstring),
    nth_error (paramTokens params) i = Some token ->
    exists p,
      nth_error (parseParams params) i = Some p
      /\ p_name p = lastWord token
      /\ p_name p <> []
      /\ (existsb isSpace token = false -> p_name p = token /\ p_typeName p = token).
Proof.
  intros params i token Hi.
  exists (parseParam token). unfold parseParams. rewrite nth_error_map, Hi.
  split; [reflexivity|].
  assert (Hin : In token (paramTokens params)) by (eapply nth_error_In; eassumption).
  assert (Hp : In (parseParam token) (parseParams params))
    by (unfold parseParams; now apply in_map).
  pose proof (paramTokens_names params) as Hn. rewrite Forall_forall in Hn.
  destruct (Hn _ Hp) as [Hname _].
  destruct (paramTokens_trimmed params token Hin)
    as [(c & t & Ec & Hc) (t' & c' & Ec' & Hc')].
  assert (Hone : existsb isSpace token = false ->
                 p_name (parseParam token) = token /\ p_typeName (parseParam token) = token).
  { intros Hs. unfold parseParam; cbn [p_name p_typeName].
    rewrite splitRe_spaces, splitWords_word.
    - cbn. rewrite Ec. now split.
    - apply Forall_forall. intros y Hy.
      destruct (isSpace y) eqn:Ey; [|reflexivity].
      assert (existsb isSpace token = true) by (apply existsb_exists; now exists y).
      congruence. }
  split; [|split; [exact Hname | exact Hone]].
  destruct (existsb isSpace token) eqn:Hs.
  - destruct (token_last_word token t' c' Ec' Hc' Hs) as (pre & x & El & Hx & Hl).
    unfold parseParam; cbn [p_name]. exact (parts_last token pre x _ [] El Hx Hl).
  - destruct (Hone eq_refl) as [-> _]. unfold lastWord.
    rewrite takeWord_all by (now rewrite existsb_rev).
    now rewrite rev_involutive.
Qed.

Lemma X3_parameter_name_witness :
  let params := str "address, uint256 amount" in
  nth_error (paramTokens params) 0 = Some (str "address")
  /\ exists p,
       nth_error (parseParams params) 0 = Some p
       /\ p_name p = lastWord (str "address")
       /\ p_name p <> []
       /\ (existsb isSpace (str "address") = false ->
           p_name p = str "address" /\ p_typeName p = str "address").
Proof.
  intros params.
  assert (H : nth_error (paramTokens params) 0 = Some (str "address")) by reflexivity.
  split; [exact H|].
  exact (X3_parameter_name_never_empty params 0 (str "address") H).
Defined.

(** X4: every function record of the regex path has a name that is a
    non-empty text of word characters, a visibility among public,
    private, internal and external, a state mutability among pure, view,
    payable and nonpayable, no return parameter, and parameters whose
    names and types are not empty. *)
Theorem X4_function_records :
  forall (source : jsstring) (c : ContractDef) (f : FunctionDef),
    In c (contracts (regexFallbackParser source)) ->
    In f (functions c) ->
    isIdentifier (fn_name f)
    /\ In (fn_visibility f)
          [str "public"; str "private"; str "internal"; str "external"]
    /\ In (fn_stateMutability f)
          [str "pure"; str "view"; str "payable"; str "nonpayable"]
    /\ fn_returnParameters f = []
    /\ Forall (fun p => p_name p <> [] /\ p_typeName p <> []) (fn_parameters f).
Proof.
  intros source c f Hc Hf.
  unfold regexFallbackParser, buildResult in Hc; cbn [contracts] in Hc.
  apply in_map_iff in Hc as (m & <- & _).
  cbn [functions contractOfMatch] in Hf.
  set (body := extractBody source (startIdxOf m)) in *.
  assert (Hfn : forall fm, In fm (matchAll functionRe body) ->
                isIdentifier (fn_name (functionOfMatch fm))
                /\ In (fn_visibility (functionOfMatch fm))
                      [str "public"; str "private"; str "internal"; str "external"]
                /\ In (fn_stateMutability (functionOfMatch fm))
                      [str "pure"; str "view"; str "payable"; str "nonpayable"]
                /\ fn_returnParameters (functionOfMatch fm) = []
                /\ Forall (fun p => p_name p <> [] /\ p_typeName p <> [])
                          (fn_parameters (functionOfMatch fm))).
  { intros fm Hfm. apply matchAll_matchAt in Hfm as (bef & aft & _ & Hm).
    apply functionRe_name in Hm as (name & Hname & Hg).
    unfold functionOfMatch; cbn [fn_name fn_visibility fn_stateMutability
                                 fn_returnParameters fn_parameters].
    split; [unfold group'; now rewrite Hg|].
    split; [apply visibility_values|]. split; [apply mutability_values|].
    split; [reflexivity | apply paramTokens_names]. }
  assert (Hctor : forall cm,
             isIdentifier (fn_name (constructorOfMatch cm))
             /\ In (fn_visibility (constructorOfMatch cm))
                   [str "public"; str "private"; str "internal"; str "external"]
             /\ In (fn_stateMutability (constructorOfMatch cm))
                   [str "pure"; str "view"; str "payable"; str "nonpayable"]
             /\ fn_returnParameters (constructorOfMatch cm) = []
             /\ Forall (fun p => p_name p <> [] /\ p_typeName p <> [])
                       (fn_parameters (constructorOfMatch cm))).
  { intros cm. unfold constructorOfMatch; cbn [fn_name fn_visibility fn_stateMutability
                                                fn_returnParameters fn_parameters].
    split; [split; [discriminate | repeat constructor]|].
    split; [now left|]. split; [do 3 right; now left|].
    split; [reflexivity | apply paramTokens_names]. }
  unfold extractFunctions in Hf.
  destruct (jsmatch constructorRe body) as [cm|].
  - destruct Hf as [<- | Hf]; [apply Hctor|].
    apply in_map_iff in Hf as (fm & <- & Hfm). now apply Hfn.
  - apply in_map_iff in Hf as (fm & <- & Hfm). now apply Hfn.
Qed.

Lemma X4_function_records_witness :
  exists c f,
    In c (contracts (regexFallbackParser scenario4))
    /\ In f (functions c)
    /\ fn_name f = str "foo"
    /\ isIdentifier (fn_name f)
    /\ In (fn_visibility f)
          [str "public"; str "private"; str "internal"; str "external"].
Proof.
  pose (c := nth 0 (contracts (regexFallbackParser scenario4))
                 (mkContractDef [] KContract [] [] [] [])).
  pose (f := nth 1 (functions c) (mkFunctionDef [] [] [] [] [] false false)).
  assert (Hc : In c (contracts (regexFallbackParser scenario4)))
    by (vm_compute; left; reflexivity).
  assert (Hf : In f (functions c)) by (vm_compute; right; left; reflexivity).
  destruct (X4_function_records scenario4 c f Hc Hf) as (Hn & Hv & _).
  exists c, f. split; [exact Hc|]. split; [exact Hf|].
  split; [vm_compute; reflexivity|]. split; [exact Hn | exact Hv].
Defined.

Lemma contract_of_match (source : jsstring) (m : rmatch) :
  In m (matchAll contractRe source) ->
  exists pre kw gap post,
    source = pre ++ kw ++ gap ++ c_name (contractOfMatch source m) ++ post
    /\ In kw [str "contract"; str "interface"; str "library"]
    /\ c_kind (contractOfMatch source m) = kindOfText kw
    /\ gap <> [] /\ Forall (fun c => isSpace c = true) gap
    /\ isIdentifier (c_name (contractOfMatch source m)).
Proof.
  intros Hm. apply matchAll_matchAt in Hm as (bef & aft & Z & Hm).
  apply contractRe_groups in Hm as (pre & kw & gap & name & post & Ea & Hkw & Hg & Hgap
                                    & Hname & G1 & G2).
  cbn [c_name c_kind contractOfMatch]. unfold group'. rewrite G1, G2.
  exists (rev bef ++ pre), kw, gap, post.
  split; [rewrite <- Z, Ea, <- app_assoc; reflexivity|].
  split; [exact Hkw|]. split; [reflexivity|]. split; [exact Hg|].
  split; [exact Hgap | exact Hname].
Qed.

(** X5: every contract record of the regex path has a name that is a
    non-empty text of word characters, and its kind and name are those
    written in the source: the keyword of the kind, white space and the
    name occur there, in that order. *)
Theorem X5_contract_records :
  forall (source : jsstring) (c : ContractDef),
    In c (contracts (regexFallbackParser source)) ->
    isIdentifier (c_name c)
    /\ exists kw gap,
         In kw [str "contract"; str "interface"; str "library"]
         /\ c_kind c = kindOfText kw
         /\ gap <> [] /\ Forall (fun x => isSpace x = true) gap
         /\ includes source (kw ++ gap ++ c_name c) = true.
Proof.
  intros source c Hc.
  unfold regexFallbackParser, buildResult in Hc; cbn [contracts] in Hc.
  apply in_map_iff in Hc as (m & <- & Hm).
  destruct (contract_of_match source m Hm)
    as (pre & kw & gap & post & Es & Hkw & Hk & Hg & Hgap & Hname).
  split; [exact Hname|]. exists kw, gap.
  split; [exact Hkw|]. split; [exact Hk|]. split; [exact Hg|]. split; [exact Hgap|].
  rewrite Es at 1.
  replace (pre ++ kw ++ gap ++ c_name (contractOfMatch source m) ++ post)
    with (pre ++ (kw ++ gap ++ c_name (contractOfMatch source m)) ++ post)
    by (now rewrite <- !app_assoc).
  apply includes_app.
Qed.

Lemma X5_contract_records_witness :
  exists c,
    In c (contracts (regexFallbackParser unterminatedSource))
    /\ c_name c = str "C"
    /\ isIdentifier (c_name c).
Proof.
  pose (c := nth 1 (contracts (regexFallbackParser unterminatedSource))
                 (mkContractDef [] KContract [] [] [] [])).
  assert (Hc : In c (contracts (regexFallbackParser unterminatedSource)))
    by (vm_compute; right; left; reflexivity).
  exists c. split; [exact Hc|]. split; [vm_compute; reflexivity|].
  exact (proj1 (X5_contract_records unterminatedSource c Hc)).
Defined.

(** X6: a source in which none of the words contract, interface and
    library occurs yields no contract record; its complexity is low, and
    it has no events and is not an ERC-20. *)
Theorem X6_no_keyword_no_contract :
  forall (source : jsstring),
    includes source (str "contract") = false ->
    includes source (str "interface") = false ->
    includes source (str "library") = false ->
    let r := parseSolidity None source in
    contracts r = [] /\ complexity r = Low /\ hasEvents r = false /\ isERC20 r = false.
Proof.
  intros source H1 H2 H3 r.
  assert (E : matchAll contractRe source = []).
  { destruct (matchAll contractRe source) as [|m ms] eqn:E; [reflexivity|].
    assert (Hm : In m (matchAll contractRe source)) by (rewrite E; now left).
    destruct (contract_of_match source m Hm) as (pre & kw & gap & post & Es & Hkw & _).
    assert (Hi : includes source kw = true).
    { rewrite Es at 1. apply includes_app. }
    destruct Hkw as [<- | [<- | [<- | []]]]; congruence. }
  subst r. unfold parseSolidity, regexFallbackParser. rewrite E.
  repeat split.
Qed.

Lemma X6_no_keyword_witness :
  let source := str "pragma solidity ^0.8.0;" ++ [nl] ++ str "import './A.sol';" in
  includes source (str "contract") = false
  /\ contracts (parseSolidity None source) = []
  /\ complexity (parseSolidity None source) = Low.
Proof.
  intros source.
  assert (H1 : includes source (str "contract") = false) by reflexivity.
  assert (H2 : includes source (str "interface") = false) by reflexivity.
  assert (H3 : includes source (str "library") = false) by reflexivity.
  destruct (X6_no_keyword_no_contract source H1 H2 H3) as (Hc & Hx & _).
  split; [exact H1|]. split; [exact Hc | exact Hx].
Defined.

(** ** The texts a pattern consumes *)

Lemma mt_lang (r : regex) : forall (k : mstate -> option mstate) (st res : mstate),
  mt r k st = Some res ->
  exists st' mid, advances st st' mid /\ lang r mid /\ k st' = Some res.
Proof.
  induction r as [| c | neg items | r1 IH1 r2 IH2 | r1 IH1 r2 IH2 | r1 IH1
                  | n r1 IH1 | | ]; intros k st res H; cbn [mt] in *.
  - exists st, []. split; [apply advances_refl|]. split; [constructor | exact H].
  - unfold step1 in H. destruct (after st) as [|x rest] eqn:E; [discriminate|].
    destruct (Ascii.eqb c x) eqn:Ec; [|discriminate].
    apply Ascii.eqb_eq in Ec. subst x.
    exists (MState (c :: before st) rest (caps st)), [c].
    split; [split; [reflexivity | exact E]|]. split; [constructor | exact H].
  - unfold step1 in H. destruct (after st) as [|x rest] eqn:E; [discriminate|].
    destruct (inClass neg items x) eqn:Ec; [|discriminate].
    exists (MState (x :: before st) rest (caps st)), [x].
    split; [split; [reflexivity | exact E]|]. split; [now constructor | exact H].
  - apply IH1 in H as (st1 & m1 & A1 & L1 & H).
    apply IH2 in H as (st2 & m2 & A2 & L2 & H).
    exists st2, (m1 ++ m2). split; [now apply (advances_trans _ _ _ _ _ A1)|].
    split; [now constructor | exact H].
  - destruct (mt r1 k st) eqn:E.
    + injection H as ->. apply IH1 in E as (st1 & m1 & A1 & L1 & E).
      exists st1, m1. split; [exact A1|]. split; [now apply lang_AltL | exact E].
    + apply IH2 in H as (st1 & m1 & A1 & L1 & E').
      exists st1, m1. split; [exact A1|]. split; [now apply lang_AltR | exact E'].
  - remember (length (after st)) as fuel eqn:Ef. clear Ef.
    revert st H. induction fuel as [|fuel IHf]; intros st H; cbn [starLoop] in H.
    + exists st, []. split; [apply advances_refl|]. split; [constructor | exact H].
    + match type of H with
      | match ?x with _ => _ end = _ => destruct x eqn:E
      end.
      * injection H as ->. apply IH1 in E as (st1 & m1 & A1 & L1 & E).
        destruct (length (after st1) <? length (after st)); [|discriminate].
        apply IHf in E as (st2 & m2 & A2 & L2 & E).
        exists st2, (m1 ++ m2). split; [now apply (advances_trans _ _ _ _ _ A1)|].
        split; [now constructor | exact E].
      * exists st, []. split; [apply advances_refl|]. split; [constructor | exact H].
  - apply IH1 in H as (st1 & m1 & A1 & L1 & H).
    exists (setCap n (consumed st st1) st1), m1. split; [exact A1|].
    split; [now constructor | exact H].
  - destruct (atLineStart st); [|discriminate].
    exists st, []. split; [apply advances_refl|]. split; [constructor | exact H].
  - destruct (atWordBoundary st); [|discriminate].
    exists st, []. split; [apply advances_refl|]. split; [constructor | exact H].
Qed.

Lemma consumed_advances (st st' : mstate) (mid : list ascii) :
  advances st st' mid -> consumed st st' = mid.
Proof.
  intros [B _]. unfold consumed, position. rewrite B.
  replace (length (rev mid ++ before st) - length (before st)) with (length (rev mid))
    by (rewrite length_app; lia).
  now rewrite firstn_length_app, rev_involutive.
Qed.

(** A group holds a text its pattern can consume. *)
Lemma mt_Group_lang (n : nat) (r : regex) (k : mstate -> option mstate) (st res : mstate) :
  mt (Group n r) k st = Some res ->
  exists st1 mid,
    advances st st1 mid /\ lang r mid /\ k (setCap n mid st1) = Some res.
Proof.
  rewrite mt_Group. intros H.
  apply mt_lang in H as (st1 & mid & A & L1 & H).
  exists st1, mid. split; [exact A|]. split; [exact L1|].
  now rewrite (consumed_advances _ _ _ A) in H.
Qed.

Lemma lang_Alt_inv (r1 r2 : regex) (s : list ascii) :
  lang (Alt r1 r2) s -> lang r1 s \/ lang r2 s.
Proof.
  intros H. inversion H; subst; [now left | now right].
Qed.

Lemma lang_Lit (l s : list ascii) : lang (Lit l) s -> s = l.
Proof.
  revert s. induction l as [|c l IH]; intros s H; cbn [Lit] in H.
  - now inversion H.
  - inversion H as [| | |? ? s1 s2 H1 H2| | | | | | |]; subst.
    inversion H1; subst. apply IH in H2. now subst.
Qed.

Lemma lang_Star_Class (neg : bool) (items : list cset) (s : list ascii) :
  lang (Star (Class neg items)) s -> Forall (fun c => inClass neg items c = true) s.
Proof.
  intros H. remember (Star (Class neg items)) as r eqn:Er.
  induction H; try discriminate; [constructor|].
  injection Er as ->. apply Forall_app. split; [|now apply IHlang2].
  inversion H; subst. now repeat constructor.
Qed.

Lemma isDigit_isTypeChar (c : ascii) : isDigit c = true -> isTypeChar c = true.
Proof.
  unfold isTypeChar, isWord. intros ->. now rewrite orb_true_r.
Qed.

(** A type name is a non-empty text of word characters and dots,
    followed or not by a pair of brackets. *)
Lemma lang_typeRe (t : list ascii) :
  lang typeRe t ->
  exists base suffix,
    t = base ++ suffix /\ base <> []
    /\ Forall (fun c => isTypeChar c = true) base
    /\ (suffix = [] \/ suffix = str "[]").
Proof.
  unfold typeRe, Seqs; cbn [fold_right]. intros H.
  inversion H as [| | |? ? base s2 Hb Hs| | | | | | |]; subst. clear H.
  inversion Hs as [| | |? ? suffix s3 Ho He| | | | | | |]; subst. clear Hs.
  inversion He; subst. clear He. rewrite app_nil_r.
  exists base, suffix. split; [reflexivity|].
  assert (Hsuf : suffix = [] \/ suffix = str "[]").
  { inversion Ho as [| | | |? ? ? Hl|? ? ? Hl| | | | |]; subst.
    - right. now apply lang_Lit in Hl.
    - left. now inversion Hl. }
  assert (Hword : forall l, Forall (fun c => isTypeChar c = true) l -> l <> [] ->
                            forall s, lang (Lit l) s ->
                            s <> [] /\ Forall (fun c => isTypeChar c = true) s).
  { intros l Hl Hne s Hs. apply lang_Lit in Hs. now subst. }
  assert (Hnum : forall l, Forall (fun c => isTypeChar c = true) l -> l <> [] ->
                           forall s, lang (Seq (Lit l) (Star digit)) s ->
                           s <> [] /\ Forall (fun c => isTypeChar c = true) s).
  { intros l Hl Hne s Hs.
    inversion Hs as [| | |? ? s1 s2 H1 H2| | | | | | |]; subst.
    apply lang_Lit in H1. subst s1. apply lang_Star_Class in H2. split.
    - destruct l; [contradiction | discriminate].
    - apply Forall_app. split; [exact Hl|].
      eapply Forall_impl; [|exact H2]. intros c Hc. apply isDigit_isTypeChar.
      unfold inClass in Hc; cbn in Hc. now rewrite orb_false_r in Hc. }
  assert (Hbase : base <> [] /\ Forall (fun c => isTypeChar c = true) base).
  { cbn [Alts] in Hb. unfold L in Hb.
    repeat match type of Hb with
           | lang (Alt _ _) _ =>
               apply lang_Alt_inv in Hb as [Hl|Hb];
               [ first [ refine (Hword _ _ _ _ Hl) | refine (Hnum _ _ _ _ Hl) ];
                 [vm_compute; repeat constructor | discriminate] |]
           end.
    unfold Plus in Hb.
    inversion Hb as [| | |? ? s1 s2 H1 H2| | | | | | |]; subst.
    inversion H1 as [| |? ? c Hc| | | | | | | |]; subst.
    apply lang_Star_Class in H2. split; [discriminate|].
    assert (T : forall x, inClass false [CWord; CChr "."] x = true -> isTypeChar x = true).
    { intros x Hx. unfold inClass in Hx; cbn in Hx. unfold isTypeChar.
      now rewrite orb_false_r in Hx. }
    constructor; [now apply T|]. eapply Forall_impl; [|exact H2]. exact T. }
  destruct Hbase as [Hne Hall]. now repeat split.
Qed.

(** ** The state variables of the regex path *)

Lemma stateVarRe_groups (bef aft : list ascii) (m : rmatch) :
  matchAt stateVarRe bef aft = Some m ->
  exists t name,
    lang typeRe t /\ isIdentifier name
    /\ group m 1 = Some t /\ group m 2 = Some name.
Proof.
  intros H. apply matchAt_caps in H as (st' & E & Hc).
  unfold group. rewrite Hc. clear Hc.
  unfold stateVarRe, Seqs in E; cbn [fold_right] in E.
  rewrite mt_Seq in E. apply mt_sound in E as (st1 & m1 & _ & E).
  rewrite mt_Seq in E. apply mt_sound in E as (st2 & m2 & _ & E).
  rewrite mt_Seq in E. apply mt_Group_lang in E as (st3 & t & _ & Lt & E).
  rewrite mt_Seq in E. apply mt_caps in E as (st4 & m4 & _ & E & C4).
  rewrite mt_Seq in E. apply mt_caps in E as (st5 & m5 & _ & E & C5).
  rewrite mt_Seq in E. unfold wordc in E.
  apply mt_Group_Plus_inv in E as (name & r6 & Hn & _ & Hname & E).
  apply mt_caps in E as (st7 & m7 & _ & E & C7). injection E as <-.
  exists t, name. split; [exact Lt|].
  split; [split; [exact Hn | now apply Forall_inClass_word]|].
  rewrite !C7 by (cbn; tauto). cbn [caps]. split.
  - rewrite lookupCap_setCap_other by discriminate.
    rewrite C5 by (cbn; tauto). rewrite C4 by (cbn; tauto).
    apply lookupCap_setCap_same.
  - apply lookupCap_setCap_same.
Qed.

Lemma varVisibility_values (t body : jsstring) :
  In (orElse (match jsmatch (varVisibilityRe t) body with
              | Some m => group m 1
              | None => None
              end) (str "internal"))
     [str "public"; str "private"; str "internal"].
Proof.
  destruct (jsmatch _ body) as [m|] eqn:E; [|cbn; tauto].
  apply search_sound in E as (pre & _ & _ & _ & H).
  apply matchAt_caps in H as (st' & E & Hc).
  unfold group. rewrite Hc. clear Hc.
  unfold varVisibilityRe, Seqs in E; cbn [fold_right] in E.
  rewrite mt_Seq in E. apply mt_sound in E as (st1 & m1 & _ & E).
  rewrite mt_Seq in E. apply mt_sound in E as (st2 & m2 & _ & E).
  rewrite mt_Seq in E. apply mt_sound in E as (st3 & m3 & _ & E).
  rewrite mt_Seq in E.
  apply (mt_Group_words_inv 1 [str "public"; str "private"] (str "internal")) in E
    as (w & r1 & Hw & _ & E).
  apply mt_caps in E as (st4 & m4 & _ & E & C4). injection E as <-.
  rewrite C4 by (cbn; tauto). cbn [caps]. rewrite lookupCap_setCap_same.
  cbn [app In] in Hw. destruct Hw as [<- | [<- | [<- | []]]]; cbn; tauto.
Qed.

Lemma matchAt_none (r : regex) (bef aft : list ascii) :
  (forall st, mt r (fun st' => Some st') st = None) -> search r bef aft = None.
Proof.
  intros H. revert bef. induction aft as [|c aft IH]; intros bef; cbn [search];
    unfold matchAt; rewrite H; [reflexivity | apply IH].
Qed.

Lemma mt_dead (r : regex) (k : mstate -> option mstate) (st : mstate) :
  (forall st', k st' = None) -> mt r k st = None.
Proof.
  intros H. rewrite (mt_ext r k (fun _ => None) st H). apply mt_no_continuation.
Qed.

(** The pattern built from a type that holds a pair of brackets holds an
    empty class, which no character matches. *)
Lemma typeNamePattern_brackets (k : mstate -> option mstate) :
  forall (base rest : jsstring) (st : mstate),
    mt (typeNamePattern (base ++ str "[]" ++ rest)) k st = None.
Proof.
  assert (Hempty : forall r st, mt (Seq (Class false []) r) k st = None).
  { intros r st. rewrite mt_Seq. cbn [mt]. unfold step1.
    destruct (after st); reflexivity. }
  intros base. remember (length base) as n eqn:En. revert base En.
  induction n as [n IH] using lt_wf_ind. intros base En rest st.
  destruct base as [|c base].
  - cbn [app str]. apply Hempty.
  - assert (Hstep : forall b x r, length b < n ->
                     mt (Seq x (typeNamePattern (b ++ str "[]" ++ r))) k st = None).
    { intros b x r Hb. rewrite mt_Seq. apply mt_dead. intros st'.
      now apply (IH (length b)). }
    cbn [length] in En. cbn [app].
    destruct (Ascii.eqb c "[") eqn:Ec.
    + apply Ascii.eqb_eq in Ec. subst c.
      destruct base as [|d base].
      * change (mt (Seq (Chr "[") (Seq (Class false []) (typeNamePattern rest))) k st
                = None).
        rewrite mt_Seq. apply mt_dead. intros st'. apply Hempty.
      * cbn [length] in En. destruct (Ascii.eqb d "]") eqn:Ed.
        -- apply Ascii.eqb_eq in Ed. subst d.
           change (typeNamePattern ("["%char :: ("]"%char :: base) ++ str "[]" ++ rest))
             with (Seq (Class false [])
                       (typeNamePattern (base ++ str "[]" ++ rest))).
           apply Hstep. lia.
        -- replace (typeNamePattern ("["%char :: (d :: base) ++ str "[]" ++ rest))
             with (Seq (Chr "[") (typeNamePattern ((d :: base) ++ str "[]" ++ rest))).
           ++ apply Hstep. cbn [length]. lia.
           ++ cbn [app typeNamePattern].
              destruct d as [[] [] [] [] [] [] [] []]; try reflexivity; discriminate.
    + replace (typeNamePattern (c :: base ++ str "[]" ++ rest))
        with (Seq (if Ascii.eqb c "." then Class true [CChr nl; CChr "013"] else Chr c)
                  (typeNamePattern (base ++ str "[]" ++ rest))).
      * apply Hstep. lia.
      * destruct c as [[] [] [] [] [] [] [] []]; try reflexivity; discriminate.
Qed.

Lemma isTypeChar_not_paren (s : jsstring) :
  Forall (fun c => isTypeChar c = true) s -> ~ In "("%char s.
Proof.
  intros H Hin. rewrite Forall_forall in H. apply H in Hin. discriminate.
Qed.

(** X7: every state variable record of the regex path has a name that
    is a non-empty text of word characters, a visibility among public,
    private and internal, and a type made of a non-empty text of word
    characters and dots, followed or not by one pair of brackets; so no
    type holds a parenthesis, and none is a full mapping type. *)
Theorem X7_state_variable_records :
  forall (source : jsstring) (c : ContractDef) (v : StateVariable),
    In c (contracts (regexFallbackParser source)) ->
    In v (stateVariables c) ->
    isIdentifier (sv_name v)
    /\ In (sv_visibility v) [str "public"; str "private"; str "internal"]
    /\ (exists base suffix,
          sv_typeName v = base ++ suffix /\ base <> []
          /\ Forall (fun x => isTypeChar x = true) base
          /\ (suffix = [] \/ suffix = str "[]"))
    /\ ~ In "("%char (sv_typeName v).
Proof.
  intros source c v Hc Hv.
  unfold regexFallbackParser, buildResult in Hc; cbn [contracts] in Hc.
  apply in_map_iff in Hc as (m & <- & _).
  cbn [stateVariables contractOfMatch] in Hv.
  apply in_map_iff in Hv as (vm & <- & Hvm).
  apply matchAll_matchAt in Hvm as (bef & aft & _ & Hm).
  apply stateVarRe_groups in Hm as (t & name & Lt & Hname & G1 & G2).
  apply lang_typeRe in Lt as (base & suffix & Et & Hb & Hall & Hs).
  unfold stateVariableOfMatch; cbn [sv_name sv_visibility sv_typeName].
  unfold group'. rewrite G1, G2.
  split; [exact Hname|]. split; [apply varVisibility_values|].
  split; [now exists base, suffix|].
  rewrite Et. intros Hin. apply in_app_or in Hin as [Hin | Hin].
  - now apply (isTypeChar_not_paren base).
  - destruct Hs as [-> | ->]; cbn in Hin; [tauto|].
    destruct Hin as [F | [F | []]]; discriminate.
Qed.

Lemma X7_state_variable_witness :
  exists c v,
    In c (contracts (regexFallbackParser arraySource))
    /\ In v (stateVariables c)
    /\ sv_name v = str "owner"
    /\ sv_typeName v = str "address"
    /\ In (sv_visibility v) [str "public"; str "private"; str "internal"]
    /\ ~ In "("%char (sv_typeName v).
Proof.
  pose (c := nth 0 (contracts (regexFallbackParser arraySource))
                 (mkContractDef [] KContract [] [] [] [])).
  pose (v := nth 1 (stateVariables c) (mkStateVariable [] [] [] false false)).
  assert (Hc : In c (contracts (regexFallbackParser arraySource)))
    by (vm_compute; left; reflexivity).
  assert (Hv : In v (stateVariables c)) by (vm_compute; right; left; reflexivity).
  destruct (X7_state_variable_records arraySource c v Hc Hv) as (_ & Hvis & _ & Hp).
  exists c, v. split; [exact Hc|]. split; [exact Hv|].
  split; [vm_compute; reflexivity|]. split; [vm_compute; reflexivity|].
  split; [exact Hvis | exact Hp].
Defined.

(** X8: a state variable of the regex path whose type ends with a pair
    of brackets is reported with visibility internal, whatever its
    declaration says: the pattern built from the type to look the
    visibility up holds the brackets as an empty class. *)
Theorem X8_array_visibility_internal :
  forall (source : jsstring) (c : ContractDef) (v : StateVariable) (base : jsstring),
    In c (contracts (regexFallbackParser source)) ->
    In v (stateVariables c) ->
    sv_typeName v = base ++ str "[]" ->
    sv_visibility v = str "internal".
Proof.
  intros source c v base Hc Hv Ht.
  unfold regexFallbackParser, buildResult in Hc; cbn [contracts] in Hc.
  apply in_map_iff in Hc as (m & <- & _).
  cbn [stateVariables contractOfMatch] in Hv.
  apply in_map_iff in Hv as (vm & <- & Hvm).
  unfold stateVariableOfMatch in *; cbn [sv_visibility sv_typeName] in *.
  rewrite Ht. unfold jsmatch. rewrite matchAt_none; [reflexivity|].
  intros st. unfold varVisibilityRe, Seqs; cbn [fold_right]. rewrite mt_Seq.
  rewrite <- (app_nil_r (str "[]")). apply typeNamePattern_brackets.
Qed.

Lemma X8_array_visibility_witness :
  exists c v,
    In c (contracts (regexFallbackParser arraySource))
    /\ In v (stateVariables c)
    /\ sv_name v = str "values"
    /\ sv_typeName v = str "uint" ++ str "[]"
    /\ sv_visibility v = str "internal".
Proof.
  pose (c := nth 0 (contracts (regexFallbackParser arraySource))
                 (mkContractDef [] KContract [] [] [] [])).
  pose (v := nth 0 (stateVariables c) (mkStateVariable [] [] [] false false)).
  assert (Hc : In c (contracts (regexFallbackParser arraySource)))
    by (vm_compute; left; reflexivity).
  assert (Hv : In v (stateVariables c)) by (vm_compute; left; reflexivity).
  assert (Ht : sv_typeName v = str "uint" ++ str "[]") by (vm_compute; reflexivity).
  exists c, v. split; [exact Hc|]. split; [exact Hv|].
  split; [vm_compute; reflexivity|]. split; [exact Ht|].
  exact (X8_array_visibility_internal arraySource c v (str "uint") Hc Hv Ht).
Defined.

(** ** The pragma and the imports of the regex path *)

Lemma In_dropSpaces (x : ascii) (s : jsstring) : In x (dropSpaces s) -> In x s.
Proof.
  induction s as [|c s IH]; [easy|]. cbn [dropSpaces].
  destruct (isSpace c); [|easy]. intros H. right. now apply IH.
Qed.

Lemma In_trim (x : ascii) (s : jsstring) : In x (trim s) -> In x s.
Proof.
  unfold trim. intros H. apply in_rev in H. apply In_dropSpaces in H.
  apply in_rev in H. now apply In_dropSpaces in H.
Qed.

Lemma Forall_notc (c : ascii) (s : list ascii) :
  Forall (fun x => inClass true [CChr c] x = true) s -> ~ In c s.
Proof.
  intros H Hin. rewrite Forall_forall in H. apply H in Hin.
  unfold inClass in Hin; cbn in Hin. now rewrite Ascii.eqb_refl in Hin.
Qed.

Lemma pragmaRe_groups (bef aft : list ascii) (m : rmatch) :
  matchAt pragmaRe bef aft = Some m ->
  exists gap1 gap2 raw post,
    aft = str "pragma" ++ gap1 ++ str "solidity" ++ gap2 ++ raw ++ ";"%char :: post
    /\ gap1 <> [] /\ Forall (fun c => isSpace c = true) gap1
    /\ gap2 <> [] /\ Forall (fun c => isSpace c = true) gap2
    /\ raw <> [] /\ ~ In ";"%char raw
    /\ group m 1 = Some raw.
Proof.
  intros H. apply matchAt_caps in H as (st' & E & Hc).
  unfold group. rewrite Hc. clear Hc.
  unfold pragmaRe, Seqs, L in E; cbn [fold_right] in E.
  rewrite mt_Seq in E. apply mt_Lit_inv in E as (r1 & Ea1 & E).
  rewrite mt_Seq in E. unfold ws at 1 in E.
  apply mt_Plus_Class_inv in E as (gap1 & r2 & Hg1 & Ea2 & Hgap1 & E).
  rewrite mt_Seq in E. apply mt_Lit_inv in E as (r3 & Ea3 & E).
  rewrite mt_Seq in E. unfold ws at 1 in E.
  apply mt_Plus_Class_inv in E as (gap2 & r4 & Hg2 & Ea4 & Hgap2 & E).
  rewrite mt_Seq in E. unfold notc in E.
  apply mt_Group_Plus_inv in E as (raw & r5 & Hr & Ea5 & Hraw & E).
  rewrite mt_Seq in E. cbn [mt] in E. unfold step1 in E; cbn [after] in E.
  destruct r5 as [|x post]; [discriminate|].
  destruct (Ascii.eqb ";" x) eqn:Ex; [|discriminate].
  apply Ascii.eqb_eq in Ex. subst x. injection E as <-.
  cbn [after before caps] in *.
  exists gap1, gap2, raw, post.
  split; [now rewrite Ea1, Ea2, Ea3, Ea4, Ea5|].
  split; [exact Hg1|]. split; [now apply Forall_inClass_space|].
  split; [exact Hg2|]. split; [now apply Forall_inClass_space|].
  split; [exact Hr|]. split; [now apply Forall_notc|].
  apply lookupCap_setCap_same.
Qed.

(** X9: the pragma version of the regex path is the text unknown, or
    the trimmed text between the white space after the words pragma and
    solidity and the next semicolon, which is not empty before it is
    trimmed; it never holds a semicolon. *)
Theorem X9_pragma_version :
  forall (source : jsstring),
    let v := pragmaVersion (regexFallbackParser source) in
    (v = str "unknown"
     \/ exists pre gap1 gap2 raw post,
          source = pre ++ str "pragma" ++ gap1 ++ str "solidity" ++ gap2
                       ++ raw ++ ";"%char :: post
          /\ gap1 <> [] /\ Forall (fun c => isSpace c = true) gap1
          /\ gap2 <> [] /\ Forall (fun c => isSpace c = true) gap2
          /\ raw <> [] /\ ~ In ";"%char raw
          /\ v = trim raw)
    /\ ~ In ";"%char v.
Proof.
  intros source v. subst v.
  unfold regexFallbackParser, buildResult; cbn [pragmaVersion].
  destruct (jsmatch pragmaRe source) as [m|] eqn:E.
  - apply search_sound in E as (pre & Es & _ & _ & Hm). cbn [app] in Hm.
    apply pragmaRe_groups in Hm as (gap1 & gap2 & raw & post & Ea & Hg1 & Hgap1 & Hg2
                                    & Hgap2 & Hr & Hraw & G).
    unfold group'. rewrite G. split.
    + right. exists pre, gap1, gap2, raw, post.
      split; [now rewrite Es, Ea|].
      split; [exact Hg1|]. split; [exact Hgap1|]. split; [exact Hg2|].
      split; [exact Hgap2|]. split; [exact Hr|]. split; [exact Hraw | reflexivity].
    + intros Hin. now apply In_trim in Hin.
  - split; [now left|]. cbn. intuition discriminate.
Qed.

Lemma importRe_groups (bef aft : list ascii) (m : rmatch) :
  matchAt importRe bef aft = Some m ->
  exists gap q1 path q2 post,
    aft = str "import" ++ gap ++ q1 :: path ++ q2 :: post
    /\ gap <> [] /\ Forall (fun c => isSpace c = true) gap
    /\ In q1 [dquote; squote] /\ In q2 [dquote; squote]
    /\ path <> [] /\ ~ In dquote path /\ ~ In squote path
    /\ group m 1 = Some path.
Proof.
  assert (Q : forall x, inClass false [CChr dquote; CChr squote] x = true ->
                        In x [dquote; squote]).
  { intros x Hx. unfold inClass in Hx; cbn in Hx. rewrite orb_false_r in Hx.
    apply orb_true_iff in Hx as [Hx | Hx]; apply Ascii.eqb_eq in Hx; subst; cbn; tauto. }
  intros H. apply matchAt_caps in H as (st' & E & Hc).
  unfold group. rewrite Hc. clear Hc.
  unfold importRe, Seqs, L in E; cbn [fold_right] in E.
  rewrite mt_Seq in E. apply mt_Lit_inv in E as (r1 & Ea1 & E).
  rewrite mt_Seq in E. unfold ws at 1 in E.
  apply mt_Plus_Class_inv in E as (gap & r2 & Hg & Ea2 & Hgap & E).
  rewrite mt_Seq in E. apply mt_Class_inv in E as (q1 & r3 & Ea3 & Hq1 & E).
  rewrite mt_Seq in E.
  apply mt_Group_Plus_inv in E as (path & r4 & Hp & Ea4 & Hpath & E).
  rewrite mt_Seq in E. apply mt_Class_inv in E as (q2 & post & Ea5 & Hq2 & E).
  injection E as <-. cbn [after before caps] in *.
  exists gap, q1, path, q2, post.
  split; [now rewrite Ea1, Ea2, Ea3, Ea4, Ea5|].
  split; [exact Hg|]. split; [now apply Forall_inClass_space|].
  split; [now apply Q|]. split; [now apply Q|]. split; [exact Hp|].
  assert (N : forall q, In q [dquote; squote] -> ~ In q path).
  { intros q Hq Hin. rewrite Forall_forall in Hpath. apply Hpath in Hin.
    unfold inClass in Hin; cbn in Hin. rewrite orb_false_r in Hin.
    destruct Hq as [<- | [<- | []]];
      rewrite Ascii.eqb_refl in Hin; cbn in Hin;
      rewrite ?orb_true_r in Hin; discriminate. }
  split; [apply N; cbn; tauto|]. split; [apply N; cbn; tauto|].
  apply lookupCap_setCap_same.
Qed.

(** X10: every import path of the regex path is a non-empty text without
    quote characters that stands in the source between two quote
    characters, single or double and not necessarily the same, after the
    word import and white space. *)
Theorem X10_import_paths :
  forall (source : jsstring),
    Forall (fun path =>
              path <> [] /\ ~ In dquote path /\ ~ In squote path
              /\ exists gap q1 q2,
                   gap <> [] /\ Forall (fun c => isSpace c = true) gap
                   /\ In q1 [dquote; squote] /\ In q2 [dquote; squote]
                   /\ includes source (str "import" ++ gap ++ q1 :: path ++ [q2]) = true)
           (imports (regexFallbackParser source)).
Proof.
  intros source. apply Forall_forall. intros path Hin.
  unfold regexFallbackParser, buildResult in Hin; cbn [imports] in Hin.
  apply in_map_iff in Hin as (m & <- & Hm).
  apply matchAll_matchAt in Hm as (bef & aft & Es & Hm).
  apply importRe_groups in Hm as (gap & q1 & path & q2 & post & Ea & Hg & Hgap & Hq1 & Hq2
                                  & Hp & Hd & Hs & G).
  unfold group'. rewrite G.
  split; [exact Hp|]. split; [exact Hd|]. split; [exact Hs|].
  exists gap, q1, q2. split; [exact Hg|]. split; [exact Hgap|].
  split; [exact Hq1|]. split; [exact Hq2|].
  rewrite <- Es, Ea.
  replace (rev bef ++ str "import" ++ gap ++ q1 :: path ++ q2 :: post)
    with (rev bef ++ (str "import" ++ gap ++ q1 :: path ++ [q2]) ++ post).
  - apply includes_app.
  - rewrite <- !app_assoc. cbn [app]. now rewrite <- !app_assoc.
Qed.

(** ** The fields of the result that do not depend on the parser hook *)

Lemma splitOn_length (sep : ascii) (s : jsstring) :
  length (splitOn sep s) = 1 + occurrencesOf sep s.
Proof.
  induction s as [|c s IH]; [reflexivity|].
  cbn [splitOn occurrencesOf]. destruct (Ascii.eqb c sep).
  - cbn [length]. now rewrite IH.
  - destruct (splitOn sep s) as [|w l]; [discriminate|]. exact IH.
Qed.

(** X11: whatever the parser hook is and does, the result reports no
    error, also when the installed parser throws and its message is
    put in the error list, and the line count is one more than the number
    of line feeds of the source. *)
Theorem X11_no_error_reported :
  forall (hook : option Parser) (source : jsstring),
    let r := parseSolidity hook source in
    errors r = [] /\ lineCount r = 1 + occurrencesOf nl source.
Proof.
  intros hook source r. subst r. unfold parseSolidity.
  destruct hook as [parser|]; [destruct (parser source)|];
    unfold regexFallbackParser, buildResult; cbn [errors lineCount];
    (split; [reflexivity | apply splitOn_length]).
Qed.

(** ** The events of the regex path *)

Lemma startsWith_inv (s n : jsstring) :
  startsWith s n = true -> exists b, s = n ++ b.
Proof.
  revert s. induction n as [|p n IH]; intros s H; [now exists s|].
  destruct s as [|c s]; [discriminate|]. cbn [startsWith] in H.
  apply andb_prop in H as [Hc H]. apply Ascii.eqb_eq in Hc. subst p.
  apply IH in H as (b & ->). now exists b.
Qed.

(** A text includes another when it holds it as a factor. *)
Lemma includes_inv (s n : jsstring) :
  includes s n = true -> exists a b, s = a ++ n ++ b.
Proof.
  induction s as [|c s IH]; cbn [includes]; intros H.
  - rewrite orb_false_r in H. apply startsWith_inv in H as (b & E). now exists [], b.
  - apply orb_prop in H as [H | H].
    + apply startsWith_inv in H as (b & E). now exists [], b.
    + apply IH in H as (a & b & ->). now exists (c :: a), b.
Qed.

Lemma includes_factor (pre s post n : jsstring) :
  includes s n = true -> includes (pre ++ s ++ post) n = true.
Proof.
  intros H. apply includes_inv in H as (a & b & ->).
  replace (pre ++ (a ++ n ++ b) ++ post) with ((pre ++ a) ++ n ++ (b ++ post))
    by (now rewrite <- !app_assoc).
  apply includes_app.
Qed.

(** The fields of the record of a parameter token. *)
Lemma parseParam_fields (params token : jsstring) :
  In token (paramTokens params) ->
  p_typeName (parseParam token) = takeWord token
  /\ p_name (parseParam token) = lastWord token
  /\ takeWord token <> [] /\ lastWord token <> []
  /\ (exists post, token = takeWord token ++ post)
  /\ (exists pre, token = pre ++ lastWord token).
Proof.
  intros Hin.
  destruct (paramTokens_trimmed params token Hin)
    as [(c & t & Ec & Hc) (t' & c' & Ec' & Hc')].
  destruct (token_first_word token c t Ec Hc) as [Hw Hrest].
  assert (Et : token = takeWord token ++ dropWord token)
    by (symmetry; apply takeWord_dropWord).
  split; [exact (parts_first token _ _ _ Et Hw Hrest)|].
  assert (Hlast : p_name (parseParam token) = lastWord token
                  /\ exists pre, token = pre ++ lastWord token).
  { destruct (existsb isSpace token) eqn:Hs.
    - destruct (token_last_word token t' c' Ec' Hc' Hs) as (pre & x & El & Hx & Hl).
      split; [exact (parts_last token pre x _ [] El Hx Hl)|].
      exists (pre ++ [x]). now rewrite <- app_assoc.
    - assert (El : lastWord token = token).
      { unfold lastWord. rewrite takeWord_all by (now rewrite existsb_rev).
        apply rev_involutive. }
      rewrite El. split; [|now exists []].
      unfold parseParam; cbn [p_name]. rewrite splitRe_spaces, splitWords_word.
      + cbn. now rewrite Ec.
      + apply Forall_forall. intros y Hy.
        destruct (isSpace y) eqn:Ey; [|reflexivity].
        assert (existsb isSpace token = true) by (apply existsb_exists; now exists y).
        congruence. }
  destruct Hlast as [Hn Hpre]. split; [exact Hn|]. split; [apply Hw|].
  split; [|split; [now exists (dropWord token) | exact Hpre]].
  rewrite <- Hn.
  assert (Hp : In (parseParam token) (parseParams params))
    by (unfold parseParams; now apply in_map).
  pose proof (paramTokens_names params) as Hall. rewrite Forall_forall in Hall.
  now destruct (Hall _ Hp).
Qed.

Lemma eventRe_name (bef aft : list ascii) (m : rmatch) :
  matchAt eventRe bef aft = Some m ->
  exists name, isIdentifier name /\ group m 1 = Some name.
Proof.
  intros H. apply matchAt_caps in H as (st' & E & Hc).
  unfold group. rewrite Hc. clear Hc.
  unfold eventRe, Seqs in E; cbn [fold_right] in E.
  rewrite mt_Seq in E. apply mt_sound in E as (st1 & m1 & _ & E).
  rewrite mt_Seq in E. apply mt_sound in E as (st2 & m2 & _ & E).
  rewrite mt_Seq in E. unfold wordc in E.
  apply mt_Group_Plus_inv in E as (name & r3 & Hn & _ & Hname & E).
  apply mt_caps in E as (st5 & m5 & _ & E & C5). injection E as <-.
  exists name. split; [split; [exact Hn | now apply Forall_inClass_word]|].
  rewrite C5 by (cbn; lia). apply lookupCap_setCap_same.
Qed.

(** X12: every event record of the regex path has a name that is a
    non-empty text of word characters and parameters whose names and
    types are not empty; a parameter is flagged indexed as soon as its
    name or its type holds the text indexed. *)
Theorem X12_event_records :
  forall (source : jsstring) (c : ContractDef) (e : EventDef),
    In c (contracts (regexFallbackParser source)) ->
    In e (events c) ->
    isIdentifier (ev_name e)
    /\ Forall (fun p =>
                 ep_name p <> [] /\ ep_typeName p <> []
                 /\ (includes (ep_name p) (str "indexed")
                     || includes (ep_typeName p) (str "indexed") = true ->
                     ep_indexed p = true))
              (ev_parameters e).
Proof.
  intros source c e Hc He.
  unfold regexFallbackParser, buildResult in Hc; cbn [contracts] in Hc.
  apply in_map_iff in Hc as (m & <- & _).
  cbn [events contractOfMatch] in He.
  apply in_map_iff in He as (em & <- & Hem).
  apply matchAll_matchAt in Hem as (bef & aft & _ & Hm).
  apply eventRe_name in Hm as (name & Hname & G).
  unfold eventOfMatch; cbn [ev_name ev_parameters]. unfold group' at 1. rewrite G.
  split; [exact Hname|].
  apply Forall_forall. intros p Hp. unfold parseEventParams in Hp.
  apply in_map_iff in Hp as (token & <- & Hin).
  destruct (parseParam_fields _ token Hin)
    as (Ht & Hn & Htne & Hnne & (post & Epost) & (pre & Epre)).
  change (ep_name (parseEventParam token)) with (p_name (parseParam token)).
  change (ep_typeName (parseEventParam token)) with (p_typeName (parseParam token)).
  rewrite Ht, Hn. split; [exact Hnne|]. split; [exact Htne|].
  cbn [ep_indexed parseEventParam]. intros H. apply orb_prop in H as [H | H].
  - rewrite Epre at 1. rewrite <- (app_nil_r (lastWord token)).
    now apply includes_factor.
  - rewrite Epost at 1. now apply (includes_factor []).
Qed.

Lemma X12_event_records_witness :
  exists c e p,
    In c (contracts (regexFallbackParser eventSource))
    /\ In e (events c)
    /\ In p (ev_parameters e)
    /\ ev_name e = str "Sent"
    /\ ep_typeName p = str "uint"
    /\ ep_name p = str "indexedAmount"
    /\ ep_indexed p = true.
Proof.
  pose (c := nth 0 (contracts (regexFallbackParser eventSource))
                 (mkContractDef [] KContract [] [] [] [])).
  pose (e := nth 0 (events c) (mkEventDef [] [])).
  pose (p := nth 1 (ev_parameters e) (mkEventParam [] [] false)).
  assert (Hc : In c (contracts (regexFallbackParser eventSource)))
    by (vm_compute; left; reflexivity).
  assert (He : In e (events c)) by (vm_compute; left; reflexivity).
  assert (Hp : In p (ev_parameters e)) by (vm_compute; right; left; reflexivity).
  destruct (X12_event_records eventSource c e Hc He) as (_ & Hall).
  rewrite Forall_forall in Hall. destruct (Hall p Hp) as (_ & _ & Hidx).
  exists c, e, p. split; [exact Hc|]. split; [exact He|]. split; [exact Hp|].
  split; [vm_compute; reflexivity|]. split; [vm_compute; reflexivity|].
  split; [vm_compute; reflexivity|].
  apply Hidx. vm_compute. reflexivity.
Defined.

(** ** What the capture groups hold *)

Lemma factorOf_refl (s : list ascii) : factorOf s s.
Proof. exists [], []. now rewrite app_nil_r. Qed.

Lemma factorOf_trans (a b c : list ascii) : factorOf a b -> factorOf b c -> factorOf a c.
Proof.
  intros (p1 & q1 & ->) (p2 & q2 & ->). exists (p2 ++ p1), (q1 ++ q2).
  now rewrite <- !app_assoc.
Qed.

Lemma factorOf_app_l (a s t : list ascii) : factorOf a s -> factorOf a (s ++ t).
Proof.
  intros (p & q & ->). exists p, (q ++ t). now rewrite <- !app_assoc.
Qed.

Lemma factorOf_app_r (a s t : list ascii) : factorOf a t -> factorOf a (s ++ t).
Proof.
  intros (p & q & ->). exists (s ++ p), q. now rewrite <- !app_assoc.
Qed.

Lemma factorOf_includes (n s : jsstring) : factorOf n s <-> includes s n = true.
Proof.
  split.
  - intros (a & b & ->). apply includes_app.
  - intros H. apply includes_inv in H as (a & b & ->). now exists a, b.
Qed.

(** After a run of the matcher over a text that its pattern can
    consume, a group holds what it held before, or a text that its own
    pattern can consume and that is part of the text the run went
    through. *)
Lemma mt_groups (r : regex) : forall (k : mstate -> option mstate) (st res : mstate),
  mt r k st = Some res ->
  exists st' mid,
    advances st st' mid /\ lang r mid /\ k st' = Some res
    /\ forall n,
         lookupCap n (caps st') = lookupCap n (caps st)
         \/ exists r' s,
              In (n, r') (groupBodies r) /\ lang r' s /\ factorOf s mid
              /\ lookupCap n (caps st') = Some s.
Proof.
  induction r as [| c | neg items | r1 IH1 r2 IH2 | r1 IH1 r2 IH2 | r1 IH1
                  | g r1 IH1 | | ]; intros k st res H; cbn [mt groupBodies] in *.
  - exists st, []. split; [apply advances_refl|]. split; [constructor|].
    split; [exact H | now left].
  - unfold step1 in H. destruct (after st) as [|x rest] eqn:E; [discriminate|].
    destruct (Ascii.eqb c x) eqn:Ec; [|discriminate].
    apply Ascii.eqb_eq in Ec. subst x.
    exists (MState (c :: before st) rest (caps st)), [c].
    split; [split; [reflexivity | exact E]|]. split; [constructor|].
    split; [exact H | now left].
  - unfold step1 in H. destruct (after st) as [|x rest] eqn:E; [discriminate|].
    destruct (inClass neg items x) eqn:Ec; [|discriminate].
    exists (MState (x :: before st) rest (caps st)), [x].
    split; [split; [reflexivity | exact E]|]. split; [now constructor|].
    split; [exact H | now left].
  - apply IH1 in H as (st1 & m1 & A1 & L1 & H & C1).
    apply IH2 in H as (st2 & m2 & A2 & L2 & H & C2).
    exists st2, (m1 ++ m2). split; [now apply (advances_trans _ _ _ _ _ A1)|].
    split; [now constructor|]. split; [exact H|]. intros n.
    destruct (C2 n) as [E2 | (r' & s & Hin & Hl & Hf & E2)].
    + destruct (C1 n) as [E1 | (r' & s & Hin & Hl & Hf & E1)].
      * left. congruence.
      * right. exists r', s. split; [apply in_or_app; now left|].
        split; [exact Hl|]. split; [now apply factorOf_app_l | congruence].
    + right. exists r', s. split; [apply in_or_app; now right|].
      split; [exact Hl|]. split; [now apply factorOf_app_r | exact E2].
  - destruct (mt r1 k st) eqn:E.
    + injection H as ->. apply IH1 in E as (st1 & m1 & A1 & L1 & E & C1).
      exists st1, m1. split; [exact A1|]. split; [now apply lang_AltL|].
      split; [exact E|]. intros n.
      destruct (C1 n) as [E1 | (r' & s & Hin & Hl & Hf & E1)]; [now left|].
      right. exists r', s. split; [apply in_or_app; now left | easy].
    + apply IH2 in H as (st1 & m1 & A1 & L1 & E' & C1).
      exists st1, m1. split; [exact A1|]. split; [now apply lang_AltR|].
      split; [exact E'|]. intros n.
      destruct (C1 n) as [E1 | (r' & s & Hin & Hl & Hf & E1)]; [now left|].
      right. exists r', s. split; [apply in_or_app; now right | easy].
  - remember (length (after st)) as fuel eqn:Ef. clear Ef.
    revert st H. induction fuel as [|fuel IHf]; intros st H; cbn [starLoop] in H.
    + exists st, []. split; [apply advances_refl|]. split; [constructor|].
      split; [exact H | now left].
    + match type of H with
      | match ?x with _ => _ end = _ => destruct x eqn:E
      end.
      * injection H as ->. apply IH1 in E as (st1 & m1 & A1 & L1 & E & C1).
        destruct (length (after st1) <? length (after st)); [|discriminate].
        apply IHf in E as (st2 & m2 & A2 & L2 & E & C2).
        exists st2, (m1 ++ m2). split; [now apply (advances_trans _ _ _ _ _ A1)|].
        split; [now constructor|]. split; [exact E|]. intros n.
        destruct (C2 n) as [E2 | (r' & s & Hin & Hl & Hf & E2)].
        -- destruct (C1 n) as [E1 | (r' & s & Hin & Hl & Hf & E1)].
           ++ left. congruence.
           ++ right. exists r', s. split; [exact Hin|].
              split; [exact Hl|]. split; [now apply factorOf_app_l | congruence].
        -- right. exists r', s. split; [exact Hin|].
           split; [exact Hl|]. split; [now apply factorOf_app_r | exact E2].
      * exists st, []. split; [apply advances_refl|]. split; [constructor|].
        split; [exact H | now left].
  - apply IH1 in H as (st1 & m1 & A1 & L1 & H & C1).
    rewrite (consumed_advances _ _ _ A1) in H.
    exists (setCap g m1 st1), m1. split; [exact A1|]. split; [now constructor|].
    split; [exact H|]. intros n. cbn [setCap caps].
    destruct (Nat.eq_dec g n) as [<- | Hn].
    + right. exists r1, m1. split; [now left|]. split; [exact L1|].
      split; [apply factorOf_refl | apply lookupCap_setCap_same].
    + rewrite lookupCap_setCap_other by exact Hn.
      destruct (C1 n) as [E1 | (r' & s & Hin & Hl & Hf & E1)]; [now left|].
      right. exists r', s. split; [now right | easy].
  - destruct (atLineStart st); [|discriminate].
    exists st, []. split; [apply advances_refl|]. split; [constructor|].
    split; [exact H | now left].
  - destruct (atWordBoundary st); [|discriminate].
    exists st, []. split; [apply advances_refl|]. split; [constructor|].
    split; [exact H | now left].
Qed.

(** The groups of a match: a group took no part in it, or holds a text
    that its pattern can consume and that is part of the matched text. *)
Lemma matchAt_groups (r : regex) (bef aft : list ascii) (m : rmatch) :
  matchAt r bef aft = Some m ->
  lang r (m_text m)
  /\ forall n,
       group m n = None
       \/ exists r' s,
            In (n, r') (groupBodies r) /\ lang r' s /\ factorOf s (m_text m)
            /\ group m n = Some s.
Proof.
  unfold matchAt. destruct (mt r _ _) as [st'|] eqn:E; [|discriminate].
  intros H. injection H as <-. unfold group; cbn [m_text m_caps].
  apply mt_groups in E as (st1 & mid & A & L1 & E & C). injection E as ->.
  rewrite (consumed_advances _ _ _ A). split; [exact L1|]. intros n.
  destruct (C n) as [E | H]; [left; exact E | right; exact H].
Qed.

(** ** The base contracts of the regex path *)

Lemma factorOf_Forall (P : ascii -> Prop) (b s : list ascii) :
  factorOf b s -> Forall P s -> Forall P b.
Proof.
  intros (pre & post & ->) H. apply Forall_app in H as [_ H].
  now apply Forall_app in H as [H _].
Qed.

Lemma factorOf_toLowerCase (b s : jsstring) :
  factorOf b s -> factorOf (toLowerCase b) (toLowerCase s).
Proof.
  intros (pre & post & ->). exists (toLowerCase pre), (toLowerCase post).
  unfold toLowerCase. now rewrite !map_app.
Qed.

Lemma dropSpaces_factor (s : jsstring) : factorOf (dropSpaces s) s.
Proof.
  exists (takeSpaces s), []. rewrite app_nil_r. symmetry. apply takeSpaces_dropSpaces.
Qed.

Lemma factorOf_rev (b s : list ascii) : factorOf b s -> factorOf (rev b) (rev s).
Proof.
  intros (pre & post & ->). exists (rev post), (rev pre).
  now rewrite !rev_app_distr, <- app_assoc.
Qed.

Lemma trim_factor (s : jsstring) : factorOf (trim s) s.
Proof.
  unfold trim. apply (factorOf_trans _ (dropSpaces s)); [|apply dropSpaces_factor].
  rewrite <- (rev_involutive (dropSpaces s)) at 2.
  apply factorOf_rev, dropSpaces_factor.
Qed.

Lemma splitOn_head (sep : ascii) (s : jsstring) :
  exists w l post,
    splitOn sep s = w :: l /\ ~ In sep w /\ s = w ++ post
    /\ forall piece, In piece l -> ~ In sep piece /\ factorOf piece post.
Proof.
  induction s as [|c s (w & l & post & E & Hw & Es & Hl)]; cbn [splitOn].
  - exists [], [], []. repeat split; easy.
  - rewrite E. destruct (Ascii.eqb c sep) eqn:Ec.
    + exists [], (w :: l), (c :: s). split; [reflexivity|]. split; [easy|].
      split; [reflexivity|]. intros piece [<- | H].
      * split; [exact Hw|]. apply (factorOf_app_r _ [c]).
        rewrite Es. apply factorOf_app_l, factorOf_refl.
      * destruct (Hl _ H) as [Hn Hf]. split; [exact Hn|].
        apply (factorOf_app_r _ [c]). rewrite Es. now apply factorOf_app_r.
    + exists (c :: w), l, post. split; [reflexivity|]. split.
      * intros [-> | H]; [now rewrite Ascii.eqb_refl in Ec | now apply Hw].
      * split; [now rewrite Es | exact Hl].
Qed.

(** A piece of a text split at a character is a part of the text
    without that character. *)
Lemma splitOn_pieces (sep : ascii) (s : jsstring) (piece : jsstring) :
  In piece (splitOn sep s) -> factorOf piece s /\ ~ In sep piece.
Proof.
  destruct (splitOn_head sep s) as (w & l & post & E & Hw & Es & Hl).
  rewrite E. intros [<- | H].
  - split; [|exact Hw]. rewrite Es. apply factorOf_app_l, factorOf_refl.
  - destruct (Hl _ H) as [Hn Hf]. split; [|exact Hn].
    rewrite Es. now apply factorOf_app_r.
Qed.

Lemma lang_Plus_Class (neg : bool) (items : list cset) (s : list ascii) :
  lang (Plus (Class neg items)) s ->
  s <> [] /\ Forall (fun c => inClass neg items c = true) s.
Proof.
  unfold Plus. intros H.
  inversion H as [| | |? ? s1 s2 H1 H2| | | | | | |]; subst.
  inversion H1; subst. apply lang_Star_Class in H2.
  split; [discriminate | now constructor].
Qed.

(** What the third group of a match of the contract pattern holds, and
    the base contracts read from it. *)
Lemma base_contract_shape (source : jsstring) (m : rmatch) (b : jsstring) :
  In m (matchAll contractRe source) ->
  In b (basesOfMatch m) ->
  factorOf b source
  /\ Forall (fun x => isWord x || isSpace x = true) b
  /\ (exists x t, b = x :: t /\ isWord x = true)
  /\ (exists t x, b = t ++ [x] /\ isWord x = true).
Proof.
  intros Hm Hb. apply matchAll_matchAt in Hm as (bef & aft & Es & Hm).
  pose proof (matchAt_sound _ _ _ _ Hm) as (_ & _ & Ea).
  apply matchAt_groups in Hm as [_ Hg]. unfold basesOfMatch in Hb.
  destruct (Hg 3) as [E | (r' & s & Hin & Hl & Hf & E)]; rewrite E in Hb; [easy|].
  assert (Hr : r' = Plus (Class false [CWord; CSpace; CChr ","])).
  { cbn in Hin.
    repeat (destruct Hin as [Hin | Hin]; [try discriminate; now injection Hin|]).
    easy. }
  subst r'. apply lang_Plus_Class in Hl as [Hne Hall].
  destruct s as [|c s]; [contradiction|].
  unfold filterBoolean in Hb. apply filter_In in Hb as [Hb Ht].
  apply in_map_iff in Hb as (piece & <- & Hp).
  apply splitOn_pieces in Hp as [Hpf Hpn].
  assert (Hbs : factorOf (trim piece) (c :: s))
    by (eapply factorOf_trans; [apply trim_factor | exact Hpf]).
  assert (Hchars : Forall (fun x => isWord x || isSpace x = true) (trim piece)).
  { apply Forall_forall. intros x Hx.
    assert (Hxp : In x piece) by (now apply In_trim).
    assert (Hxs : In x (c :: s)).
    { destruct Hpf as (pre & post & ->). apply in_or_app. right.
      apply in_or_app. now left. }
    rewrite Forall_forall in Hall. specialize (Hall x Hxs).
    unfold inClass in Hall; cbn in Hall. rewrite orb_false_r in Hall.
    destruct (Ascii.eqb x ",") eqn:Ex.
    - apply Ascii.eqb_eq in Ex. subst x. contradiction.
    - now rewrite orb_false_r in Hall. }
  split.
  - apply (factorOf_trans _ (c :: s)); [exact Hbs|].
    apply (factorOf_trans _ (m_text m)); [exact Hf|].
    rewrite <- Es, Ea. apply factorOf_app_r, factorOf_app_l, factorOf_refl.
  - split; [exact Hchars|].
    assert (Hne' : trim piece <> []) by (destruct (trim piece); [discriminate | easy]).
    destruct (trim_shape piece Hne') as [(x & t & Ex & Hx) (t' & x' & Ex' & Hx')].
    rewrite Forall_forall in Hchars. split.
    + exists x, t. split; [exact Ex|].
      assert (H := Hchars x). rewrite Ex in H. specialize (H (or_introl eq_refl)).
      rewrite Hx in H. now rewrite orb_false_r in H.
    + exists t', x'. split; [exact Ex'|].
      assert (H := Hchars x'). rewrite Ex' in H.
      assert (Hlast : In x' (t' ++ [x'])) by (apply in_or_app; right; now left).
      specialize (H Hlast).
      rewrite Hx' in H. now rewrite orb_false_r in H.
Qed.

(** X13: every base contract of a contract record of the regex path is
    a part of the source made of word characters and white space that
    starts and ends with a word character. *)
Theorem X13_base_contracts :
  forall (source : jsstring) (c : ContractDef) (b : jsstring),
    In c (contracts (regexFallbackParser source)) ->
    In b (baseContracts c) ->
    factorOf b source
    /\ Forall (fun x => isWord x || isSpace x = true) b
    /\ (exists x t, b = x :: t /\ isWord x = true)
    /\ (exists t x, b = t ++ [x] /\ isWord x = true).
Proof.
  intros source c b Hc Hb.
  unfold regexFallbackParser, buildResult in Hc; cbn [contracts] in Hc.
  apply in_map_iff in Hc as (m & <- & Hm).
  cbn [baseContracts contractOfMatch] in Hb.
  now apply (base_contract_shape source m).
Qed.

Lemma X13_base_contracts_witness :
  exists c,
    In c (contracts (regexFallbackParser ownedSource))
    /\ baseContracts c = [str "Ownable"; str "Pausable"]
    /\ factorOf (str "Pausable") ownedSource.
Proof.
  pose (c := nth 0 (contracts (regexFallbackParser ownedSource))
                 (mkContractDef [] KContract [] [] [] [])).
  assert (Hc : In c (contracts (regexFallbackParser ownedSource)))
    by (vm_compute; left; reflexivity).
  assert (Hb : In (str "Pausable") (baseContracts c))
    by (vm_compute; right; left; reflexivity).
  exists c. split; [exact Hc|]. split; [vm_compute; reflexivity|].
  exact (proj1 (X13_base_contracts ownedSource c (str "Pausable") Hc Hb)).
Defined.

(** X14: on the regex path the Ownable flag is a search of the text
    ownable in the lower-cased source and nothing more: a base contract
    is a part of the source, so the look at the base contracts adds
    nothing. *)
Theorem X14_hasOwnable_text_search :
  forall (source : jsstring),
    hasOwnable (regexFallbackParser source)
    = includes (toLowerCase source) (str "ownable").
Proof.
  intros source. unfold regexFallbackParser, buildResult; cbn [hasOwnable].
  destruct (includes (toLowerCase source) (str "ownable")) eqn:E;
    [apply orb_true_r|].
  rewrite orb_false_r.
  match goal with |- ?x = false => destruct x eqn:Ex; [|reflexivity] end.
  apply existsb_exists in Ex as (lb & Hlb & Hi).
  apply in_flat_map in Hlb as (c & Hc & Hlb).
  apply in_map_iff in Hlb as (b & <- & Hb).
  apply in_map_iff in Hc as (m & <- & Hm).
  cbn [baseContracts contractOfMatch] in Hb.
  destruct (base_contract_shape source m b Hm Hb) as [Hf _].
  apply factorOf_toLowerCase in Hf. apply factorOf_includes in Hi.
  assert (Hs : factorOf (str "ownable") (toLowerCase source))
    by (eapply factorOf_trans; eassumption).
  apply factorOf_includes in Hs. congruence.
Qed.

(** ** The rule list of the mapping-rule engine *)

Lemma str_inj (a b : string) : str a = str b -> a = b.
Proof.
  unfold str. intros H. apply (f_equal string_of_list_ascii) in H.
  now rewrite !string_of_list_ascii_of_string in H.
Qed.

Lemma showNat_inj (n m : nat) : showNat n = showNat m -> n = m.
Proof.
  unfold showNat. intros H. apply str_inj in H.
  apply (f_equal NilEmpty.uint_of_string) in H. rewrite !NilEmpty.usu in H.
  injection H as H. apply (f_equal Nat.of_uint) in H.
  now rewrite !DecimalNat.Unsigned.of_to in H.
Qed.

Lemma ruleId_inj (n m : nat) : ruleId n = ruleId m -> n = m.
Proof.
  unfold ruleId. intros H. apply app_inv_head in H. now apply showNat_inj.
Qed.

Lemma NoDup_map_injective {A B} (f : A -> B) (l : list A) :
  (forall x y, f x = f y -> x = y) -> NoDup l -> NoDup (map f l).
Proof.
  intros Hf H. induction H as [|x l Hx Hl IH]; cbn [map]; constructor; [|exact IH].
  intros Hin. apply in_map_iff in Hin as (y & E & Hy). apply Hf in E. now subst y.
Qed.

Lemma numbered_push (r : MappingRule) (st : RuleState) :
  numbered st -> numbered (push r st).
Proof.
  intros [Hn Hi]. unfold numbered, push; cbn [fst snd]. split.
  - rewrite length_app. cbn [length]. lia.
  - rewrite map_app, Hi, seq_S, map_app. reflexivity.
Qed.

Lemma numbered_pushAll {A} (f : A -> MappingRule) (l : list A) : forall st : RuleState,
  numbered st -> numbered (fold_left (fun st x => push (f x) st) l st).
Proof.
  induction l as [|x l IH]; intros st H; cbn [fold_left]; [exact H|].
  now apply IH, numbered_push.
Qed.

Lemma numbered_contractRules (c : ContractDef) (st : RuleState) :
  numbered st -> numbered (contractRules c st).
Proof.
  intros H. unfold contractRules.
  destruct (0 <? length (filter isPublicFn (functions c)));
    destruct (0 <? length (events c));
    repeat apply numbered_push;
    apply (numbered_pushAll ruleOfStateVariable); now apply numbered_push.
Qed.

Lemma numbered_applyMappingRules (parsed : ParsedContract) :
  exists st, numbered st /\ applyMappingRules parsed = snd st.
Proof.
  unfold applyMappingRules.
  eexists. split; [|reflexivity].
  apply (numbered_pushAll (fun r => r)).
  destruct (hasAccessControl parsed); [apply numbered_push|];
    (match goal with
     | |- numbered (if ?b then _ else _) => destruct b; [apply numbered_push|]
     end);
    (destruct (isERC721 parsed); [apply numbered_push|]);
    (destruct (isERC20 parsed); [apply numbered_push|]);
    (destruct (mainContractOf parsed); [apply numbered_contractRules|]);
    (split; reflexivity).
Qed.

(** X15: the ids of the rules are rule-1, rule-2 and so on in the order
    of the list, for every analysis result; no two rules share an id. *)
Theorem X15_rule_ids :
  forall (parsed : ParsedContract),
    let rules := applyMappingRules parsed in
    map id rules = map ruleId (seq 1 (length rules))
    /\ NoDup (map id rules).
Proof.
  intros parsed rules. subst rules.
  destruct (numbered_applyMappingRules parsed) as (st & [Hn Hi] & ->).
  rewrite <- Hn. split; [exact Hi|].
  rewrite Hi. apply NoDup_map_injective; [apply ruleId_inj | apply seq_NoDup].
Qed.

Ltac eval_categories :=
  repeat match goal with
         | |- context [category_eqb (category ?r) ?c] =>
             let v := eval vm_compute in (category_eqb (category r) c) in
             change (category_eqb (category r) c) with v
         end.

Lemma rulesOfCategory_push (cat : MappingCategory) (r : MappingRule) (st : RuleState) :
  rulesOfCategory cat (snd (push r st))
  = rulesOfCategory cat (snd st)
    ++ (if category_eqb (category r) cat then [(evmConcept r, solanaConcept r)] else []).
Proof.
  unfold rulesOfCategory, push; cbn [snd].
  rewrite filter_app, map_app. f_equal.
  cbn [filter category]. now destruct (category_eqb (category r) cat).
Qed.

Lemma rulesOfCategory_push_other (cat : MappingCategory) (r : MappingRule)
    (st : RuleState) :
  category_eqb (category r) cat = false ->
  rulesOfCategory cat (snd (push r st)) = rulesOfCategory cat (snd st).
Proof. intros H. rewrite rulesOfCategory_push, H. apply app_nil_r. Qed.

Lemma rulesOfCategory_pushAll {A} (cat : MappingCategory) (f : A -> MappingRule)
    (l : list A) : forall st : RuleState,
  Forall (fun x => category_eqb (category (f x)) cat = false) l ->
  rulesOfCategory cat (snd (fold_left (fun st x => push (f x) st) l st))
  = rulesOfCategory cat (snd st).
Proof.
  induction l as [|x l IH]; intros st H; cbn [fold_left]; [reflexivity|].
  inversion H as [|? ? Hx Hl]; subst.
  rewrite IH by assumption. now apply rulesOfCategory_push_other.
Qed.

Lemma ruleOfStateVariable_category (v : StateVariable) :
  In (category (ruleOfStateVariable v)) [CatStorage; CatAccess; CatState].
Proof.
  unfold ruleOfStateVariable. destruct (isMappingVar v); [now left|].
  destruct (includes (toLowerCase (sv_name v)) (str "owner")
            && jseq (sv_typeName v) (str "address")); cbn; tauto.
Qed.

Lemma pattern_rules_category (p : MappingRule -> bool) (cat : MappingCategory) :
  category_eqb CatPattern cat = false ->
  Forall (fun r => category_eqb (category r) cat = false)
         (filter (fun r => category_eqb (category r) CatPattern && p r) STATIC_RULES).
Proof.
  intros Hcat. apply Forall_forall. intros r Hr. apply filter_In in Hr as [_ Hc].
  apply andb_prop in Hc as [Hc _].
  destruct (category r); try discriminate. exact Hcat.
Qed.

(** X16: the token rules of the list are the ERC-20 rule of the
    catalogue when the analysis detected ERC-20, then the ERC-721 rule of
    the catalogue when it detected ERC-721, and no other; the event rules
    are the one rule that gives the number of events of the main
    contract when it has events, and none otherwise. *)
Theorem X16_token_and_event_rules :
  forall (parsed : ParsedContract),
    let rules := applyMappingRules parsed in
    rulesOfCategory CatToken rules
    = (if isERC20 parsed
       then [(str "ERC-20 token", str "SPL Token program")] else [])
      ++ (if isERC721 parsed
          then [(str "ERC-721 NFT", str "SPL Token (supply=1) + Metaplex")] else [])
    /\ rulesOfCategory CatEvent rules
       = match mainContractOf parsed with
         | Some c =>
             if 0 <? length (events c)
             then [(showNat (length (events c)) ++ str " events",
                    str "Anchor #[event] + emit!()")]
             else []
         | None => []
         end.
Proof.
  intros parsed rules. subst rules. unfold applyMappingRules.
  set (st1 := match mainContractOf parsed with
              | Some c => contractRules c (0, [])
              | None => (0, [])
              end).
  assert (E1 : rulesOfCategory CatToken (snd st1) = []
               /\ rulesOfCategory CatEvent (snd st1)
                  = match mainContractOf parsed with
                    | Some c =>
                        if 0 <? length (events c)
                        then [(showNat (length (events c)) ++ str " events",
                               str "Anchor #[event] + emit!()")]
                        else []
                    | None => []
                    end).
  { subst st1. destruct (mainContractOf parsed) as [c|]; [|now split].
    unfold contractRules.
    set (st0 := push _ (0, [])).
    set (st2 := fold_left _ (stateVariables c) st0).
    assert (E2 : rulesOfCategory CatToken (snd st2) = []
                 /\ rulesOfCategory CatEvent (snd st2) = []).
    { subst st2. split;
        (rewrite (rulesOfCategory_pushAll _ ruleOfStateVariable);
         [reflexivity|]);
        apply Forall_forall; intros v _;
        destruct (ruleOfStateVariable_category v) as [<- | [<- | [<- | []]]];
        reflexivity. }
    destruct E2 as [T2 V2].
    destruct (0 <? length (filter isPublicFn (functions c)));
      destruct (0 <? length (events c));
      rewrite ?rulesOfCategory_push; unfold withConcept;
      cbn [category evmConcept solanaConcept];
      rewrite ?T2, ?V2; split; reflexivity. }
  destruct E1 as [T1 V1]. rewrite <- V1. clearbody st1.
  set (st2 := if isERC20 parsed then _ else st1).
  assert (E2 : rulesOfCategory CatToken (snd st2)
               = (if isERC20 parsed
                  then [(str "ERC-20 token", str "SPL Token program")] else [])
               /\ rulesOfCategory CatEvent (snd st2) = rulesOfCategory CatEvent (snd st1)).
  { subst st2. destruct (isERC20 parsed); [|now split].
    rewrite !rulesOfCategory_push, T1. eval_categories.
    split; [reflexivity | apply app_nil_r]. }
  destruct E2 as [T2 V2]. rewrite <- V2. clear T1 V1 V2. clearbody st2.
  set (st3 := if isERC721 parsed then _ else st2).
  assert (E3 : rulesOfCategory CatToken (snd st3)
               = (if isERC20 parsed
                  then [(str "ERC-20 token", str "SPL Token program")] else [])
                 ++ (if isERC721 parsed
                     then [(str "ERC-721 NFT", str "SPL Token (supply=1) + Metaplex")]
                     else [])
               /\ rulesOfCategory CatEvent (snd st3) = rulesOfCategory CatEvent (snd st2)).
  { subst st3. destruct (isERC721 parsed).
    - rewrite !rulesOfCategory_push, T2. eval_categories.
      split; [reflexivity | apply app_nil_r].
    - rewrite app_nil_r. now split. }
  destruct E3 as [T3 V3]. rewrite <- V3, <- T3. clear T2 T3 V3. clearbody st3.
  set (st4 := if hasOwnable parsed && _ then _ else st3).
  assert (E4 : rulesOfCategory CatToken (snd st4) = rulesOfCategory CatToken (snd st3)
               /\ rulesOfCategory CatEvent (snd st4) = rulesOfCategory CatEvent (snd st3)).
  { subst st4. destruct (hasOwnable parsed && _); [|now split].
    split; now apply rulesOfCategory_push_other. }
  destruct E4 as [T4 V4]. rewrite <- V4, <- T4. clear T4 V4. clearbody st4.
  set (st5 := if hasAccessControl parsed then _ else st4).
  assert (E5 : rulesOfCategory CatToken (snd st5) = rulesOfCategory CatToken (snd st4)
               /\ rulesOfCategory CatEvent (snd st5) = rulesOfCategory CatEvent (snd st4)).
  { subst st5. destruct (hasAccessControl parsed); [|now split].
    split; now apply rulesOfCategory_push_other. }
  destruct E5 as [T5 V5]. rewrite <- V5, <- T5. clear T5 V5. clearbody st5.
  split; apply (rulesOfCategory_pushAll _ (fun r => r)), pattern_rules_category;
    reflexivity.
Qed.

Lemma concepts_push (r : MappingRule) (st : RuleState) :
  map evmConcept (snd (push r st)) = map evmConcept (snd st) ++ [evmConcept r].
Proof. unfold push; cbn [snd]. now rewrite map_app. Qed.

Lemma concepts_pushAll (l : list MappingRule) : forall st : RuleState,
  map evmConcept (snd (fold_left (fun st rule => push rule st) l st))
  = map evmConcept (snd st) ++ map evmConcept l.
Proof.
  induction l as [|r l IH]; intros st; cbn [fold_left map].
  - now rewrite app_nil_r.
  - rewrite IH, concepts_push, <- app_assoc. reflexivity.
Qed.

(** X17: whatever the analysis result, every common pattern of the
    catalogue is the EVM concept of some rule of the list, which
    therefore holds five rules at least. *)
Theorem X17_common_patterns_present :
  forall (parsed : ParsedContract),
    let rules := applyMappingRules parsed in
    incl patternConcepts (map evmConcept rules)
    /\ length patternConcepts = 5
    /\ 5 <= length rules.
Proof.
  intros parsed rules.
  assert (Hincl : incl patternConcepts (map evmConcept rules)).
  { subst rules. unfold applyMappingRules.
    match goal with
    | |- incl _ (map evmConcept (snd (fold_left _ _ ?st))) => generalize st
    end.
    intros st. rewrite concepts_pushAll.
    intros concept Hc. unfold patternConcepts in Hc.
    apply in_map_iff in Hc as (r & <- & Hr). apply filter_In in Hr as [Hin Hcat].
    destruct (existsb (fun x => jseq (evmConcept x) (evmConcept r)) (snd st)) eqn:Ex.
    - apply existsb_exists in Ex as (x & Hx & Hj). apply jseq_eq in Hj.
      apply in_or_app. left. rewrite <- Hj. now apply in_map.
    - apply in_or_app. right. apply in_map, filter_In.
      split; [exact Hin|]. now rewrite Hcat, Ex. }
  split; [exact Hincl|]. split; [reflexivity|].
  rewrite <- (length_map evmConcept rules).
  change 5 with (length patternConcepts).
  apply NoDup_incl_length; [|exact Hincl].
  unfold patternConcepts. cbn.
  repeat (constructor; [cbn; intuition discriminate|]). constructor.
Qed.

(** ** The records of the AST path *)

Lemma orElse_default_nonempty (a : option jsstring) (d : jsstring) :
  d <> [] -> orElse a d <> [].
Proof.
  intros Hd. destruct a as [[|c s]|]; cbn [orElse]; [exact Hd | discriminate | exact Hd].
Qed.

(** What holds of the records gathered from the sub-nodes of a contract
    definition. *)
Lemma addSubNode_records (nodes : list SubNode) :
  forall acc : list StateVariable * list FunctionDef * list EventDef,
    let good (acc : list StateVariable * list FunctionDef * list EventDef) :=
      Forall (fun v => sv_visibility v <> []) (fst (fst acc))
      /\ Forall (fun f => fn_name f <> [] /\ fn_visibility f <> []
                          /\ fn_stateMutability f <> [] /\ isModifier f = false)
                (snd (fst acc)) in
    good acc -> good (fold_left addSubNode nodes acc).
Proof.
  induction nodes as [|node nodes IH]; intros acc good H; [exact H|].
  cbn [fold_left]. apply IH. clear IH.
  destruct acc as [[vars fns] evs]. destruct H as [Hv Hf]. cbn [fst snd] in *.
  destruct node as [variables | name isCtor vis mut params rets | name params |];
    cbn [addSubNode fst snd]; split; try assumption.
  - apply Forall_app. split; [exact Hv|].
    apply Forall_forall. intros v Hin. apply in_map_iff in Hin as (av & <- & _).
    cbn [sv_visibility]. now apply orElse_default_nonempty.
  - apply Forall_app. split; [exact Hf|]. constructor; [|constructor].
    cbn [fn_name fn_visibility fn_stateMutability isModifier].
    split; [apply orElse_default_nonempty; now destruct isCtor|].
    split; [now apply orElse_default_nonempty|].
    split; [now apply orElse_default_nonempty | reflexivity].
Qed.

(** X18: when the installed parser returns a tree, the result holds one
    contract for each contract definition of the tree, in the order of
    the tree and under its name; every function record has a name, a
    visibility and a state mutability that are not empty and is no
    modifier, every state variable has a visibility that is not empty,
    and the pragma version is not empty. *)
Theorem X18_ast_records :
  forall (parser : Parser) (source : jsstring) (ast : Ast),
    parser source = Parsed ast ->
    let r := parseSolidity (Some parser) source in
    map c_name (contracts r)
    = flat_map (fun n => match n with
                         | ContractDefinition name _ _ _ => [name]
                         | _ => []
                         end) ast
    /\ Forall (fun c =>
                 Forall (fun f => fn_name f <> [] /\ fn_visibility f <> []
                                  /\ fn_stateMutability f <> []
                                  /\ isModifier f = false) (functions c)
                 /\ Forall (fun v => sv_visibility v <> []) (stateVariables c))
              (contracts r)
    /\ pragmaVersion r <> [].
Proof.
  intros parser source ast Hp r. subst r. unfold parseSolidity. rewrite Hp.
  unfold buildResult; cbn [contracts pragmaVersion]. split; [|split].
  - clear Hp. unfold contractsOfAst. induction ast as [|n ast IH]; [reflexivity|].
    cbn [flat_map]. rewrite map_app, IH. f_equal.
    destruct n as [| |name kind bases subNodes|]; try reflexivity.
    now destruct (fold_left addSubNode subNodes ([], [], [])) as [[vars fns] evs].
  - apply Forall_forall. intros c Hc. unfold contractsOfAst in Hc.
    apply in_flat_map in Hc as (n & _ & Hc).
    destruct n as [| |name kind bases subNodes|]; try easy.
    pose proof (addSubNode_records subNodes ([], [], [])) as H. cbn zeta in H.
    destruct (fold_left addSubNode subNodes ([], [], [])) as [[vars fns] evs].
    destruct Hc as [<- | []]. cbn [functions stateVariables fst snd] in *.
    destruct H as [Hv Hf]; [split; constructor|]. now split.
  - unfold pragmaOfAst.
    destruct (find _ ast) as [[value| | |]|]; try discriminate.
    now apply orElse_default_nonempty.
Qed.

Lemma X18_ast_records_witness :
  let r := parseSolidity (Some (fun _ => Parsed scenario1Ast)) scenario1 in
  map c_name (contracts r) = [str "T"]
  /\ pragmaVersion r <> [].
Proof.
  intros r.
  destruct (X18_ast_records (fun _ => Parsed scenario1Ast) scenario1 scenario1Ast eq_refl)
    as (Hn & _ & Hp).
  split; [exact Hn | exact Hp].
Defined.

(** ** The name helper of the Anchor skeleton generator *)

Lemma inClass_upper (c : ascii) :
  inClass false (map CChr (str "ABCDEFGHIJKLMNOPQRSTUVWXYZ")) c = isUpperAscii c.
Proof. destruct c as [[] [] [] [] [] [] [] []]; reflexivity. Qed.

Lemma lowerChar_not_upper (c : ascii) : isUpperAscii (lowerChar c) = false.
Proof. destruct c as [[] [] [] [] [] [] [] []]; reflexivity. Qed.

Lemma lowerChar_underscore (c : ascii) :
  lowerChar c = "_"%char -> c = "_"%char.
Proof. destruct c as [[] [] [] [] [] [] [] []]; try reflexivity; discriminate. Qed.

Lemma matchAt_upper (bef aft : list ascii) :
  matchAt upperRe bef aft
  = match aft with
    | c :: rest =>
        if isUpperAscii c
        then Some (RMatch (length bef) [c] [(1, [c])] (c :: bef) rest)
        else None
    | [] => None
    end.
Proof.
  unfold matchAt, upperRe. rewrite mt_Group. cbn [mt]. unfold step1; cbn [after].
  destruct aft as [|c rest]; [reflexivity|].
  rewrite inClass_upper. destruct (isUpperAscii c); [|reflexivity].
  unfold consumed, position, setCap; cbn [before after caps length].
  replace (S (length bef) - length bef) with 1 by lia. reflexivity.
Qed.

(** The text with an underscore before each letter from A to Z. *)
Lemma replaceAllFrom_upper : forall (fuel : nat) (aft bef : list ascii),
  length aft < fuel ->
  replaceAllFrom fuel upperRe (fun m => "_"%char :: group' m 1) bef aft
  = flat_map (fun c => if isUpperAscii c then ["_"%char; c] else [c]) aft.
Proof.
  assert (Hplain : forall l : list ascii,
             Forall (fun c => isUpperAscii c = false) l ->
             flat_map (fun c => if isUpperAscii c then ["_"%char; c] else [c]) l = l).
  { induction l as [|c l IH]; intros H; [reflexivity|].
    inversion H as [|? ? Hc Hl]; subst. cbn [flat_map]. rewrite Hc, IH by assumption.
    reflexivity. }
  induction fuel as [|fuel IH]; intros aft bef Hl; [lia|].
  cbn [replaceAllFrom]. destruct (search upperRe bef aft) as [m|] eqn:E.
  - apply search_leftmost in E as (pre & rest & Ea & Hm & Hbefore).
    rewrite matchAt_upper in Hm. destruct rest as [|c rest]; [discriminate|].
    destruct (isUpperAscii c) eqn:Hc; [|discriminate]. injection Hm as <-.
    cbn [m_index m_text m_after m_before]. unfold group', group; cbn [m_caps lookupCap].
    cbn [Nat.eqb]. rewrite length_app, length_rev.
    replace (length pre + length bef - length bef) with (length pre) by lia.
    subst aft. rewrite firstn_app, firstn_all, Nat.sub_diag. cbn [firstn].
    rewrite app_nil_r, flat_map_app. cbn [flat_map]. rewrite Hc.
    rewrite IH by (rewrite length_app in Hl; cbn [length] in Hl; lia).
    rewrite (Hplain pre); [reflexivity|].
    apply Forall_forall. intros x Hx.
    apply in_split in Hx as (p & q & ->).
    specialize (Hbefore p (x :: q ++ c :: rest)).
    rewrite matchAt_upper in Hbefore.
    destruct (isUpperAscii x); [|reflexivity].
    rewrite <- app_assoc in Hbefore. cbn [app] in Hbefore.
    assert (F : Some (RMatch (length (rev p ++ bef)) [x] [(1, [x])]
                             (x :: rev p ++ bef) (q ++ c :: rest)) = None).
    { apply Hbefore; [reflexivity|]. rewrite length_app. cbn [length]. lia. }
    discriminate.
  - symmetry. apply Hplain, Forall_forall. intros x Hx.
    apply in_split in Hx as (p & q & ->).
    destruct (isUpperAscii x) eqn:Hx; [|reflexivity].
    exfalso. apply (search_some upperRe p bef (x :: q)); [|exact E].
    rewrite matchAt_upper, Hx. discriminate.
Qed.

Lemma toSnakeCase_chars (s : jsstring) : toSnakeCase s = dropUnderscore (snakeChars s).
Proof.
  unfold toSnakeCase, replaceAll. rewrite replaceAllFrom_upper by lia.
  assert (E : toLowerCase (flat_map (fun c => if isUpperAscii c then ["_"%char; c] else [c]) s)
              = snakeChars s).
  { unfold toLowerCase, snakeChars. induction s as [|c s IH]; [reflexivity|].
    cbn [flat_map]. rewrite map_app, IH. now destruct (isUpperAscii c). }
  rewrite E. unfold matchAt. cbn [mt]. unfold step1; cbn [after].
  destruct (snakeChars s) as [|c t]; [reflexivity|]. cbn [dropUnderscore].
  rewrite Ascii.eqb_sym. destruct (Ascii.eqb c "_"); reflexivity.
Qed.

Lemma snakeChars_no_upper (s : jsstring) :
  Forall (fun c => isUpperAscii c = false) (snakeChars s).
Proof.
  unfold snakeChars. induction s as [|c s IH]; [constructor|].
  cbn [flat_map]. apply Forall_app. split; [|exact IH].
  destruct (isUpperAscii c); repeat constructor; apply lowerChar_not_upper.
Qed.

(** X19: [toSnakeCase] turns every letter from A to Z into an
    underscore and the lower-case letter, lower-cases the other
    characters and drops one leading underscore; no letter from A to Z
    is left, and the result is empty for the empty text and for a lone
    underscore only. *)
Theorem X19_toSnakeCase :
  forall (s : jsstring),
    toSnakeCase s = dropUnderscore (snakeChars s)
    /\ Forall (fun c => isUpperAscii c = false) (toSnakeCase s)
    /\ (toSnakeCase s = [] <-> s = [] \/ s = str "_").
Proof.
  intros s. rewrite toSnakeCase_chars. split; [reflexivity|]. split.
  - pose proof (snakeChars_no_upper s) as H.
    destruct (snakeChars s) as [|c t]; [constructor|]. cbn [dropUnderscore].
    destruct (Ascii.eqb c "_"); [now inversion H | exact H].
  - split.
    + destruct s as [|c s]; [now left|]. intros H. right.
      unfold snakeChars in H. cbn [flat_map] in H.
      destruct (isUpperAscii c) eqn:Hc.
      * cbn [app dropUnderscore] in H. rewrite Ascii.eqb_refl in H. discriminate.
      * cbn [app dropUnderscore] in H.
        destruct (Ascii.eqb (lowerChar c) "_") eqn:El; [|discriminate].
        apply Ascii.eqb_eq, lowerChar_underscore in El. subst c.
        destruct s as [|d s]; [reflexivity|]. cbn [flat_map] in H.
        destruct (isUpperAscii d); discriminate.
    + intros [-> | ->]; reflexivity.
Qed.

(** ** The Anchor skeleton and the rule list *)

Lemma mainContractOf_none (parsed : ParsedContract) :
  mainContractOf parsed = None <-> contracts parsed = [].
Proof.
  unfold mainContractOf. destruct (contracts parsed) as [|c cs]; [easy|].
  cbn [find]. destruct (kind_is_contract c); [easy|].
  destruct (find kind_is_contract cs); easy.
Qed.

(** The concepts of the rules pushed so far stay in the list. *)
Lemma concepts_kept_push (concept : jsstring) (r : MappingRule) (st : RuleState) :
  In concept (map evmConcept (snd st)) ->
  In concept (map evmConcept (snd (push r st))).
Proof. intros H. rewrite concepts_push. apply in_or_app. now left. Qed.

Lemma concepts_kept_applyMappingRules (parsed : ParsedContract) (c : ContractDef)
    (concept : jsstring) :
  mainContractOf parsed = Some c ->
  In concept (map evmConcept (snd (contractRules c (0, [])))) ->
  In concept (map evmConcept (applyMappingRules parsed)).
Proof.
  intros Hc Hin. unfold applyMappingRules. rewrite Hc.
  rewrite concepts_pushAll. apply in_or_app. left.
  destruct (hasAccessControl parsed); [apply concepts_kept_push|];
    (match goal with
     | |- In _ (map evmConcept (snd (if ?b then _ else _))) =>
         destruct b; [apply concepts_kept_push|]
     end);
    (destruct (isERC721 parsed); [apply concepts_kept_push|]);
    (destruct (isERC20 parsed); [apply concepts_kept_push|]);
    exact Hin.
Qed.

Lemma public_functions_concept (c : ContractDef) (st : RuleState) :
  0 < length (filter isPublicFn (functions c)) ->
  In (showNat (length (filter isPublicFn (functions c)))
      ++ str " public/external functions")
     (map evmConcept (snd (contractRules c st))).
Proof.
  intros H. unfold contractRules. apply Nat.ltb_lt in H. rewrite H.
  destruct (0 <? length (events c)); [apply concepts_kept_push|];
    rewrite concepts_push; apply in_or_app; right; now left.
Qed.

(** X20: the skeleton and the rule list agree. Without a contract the
    skeleton has no file and no account struct; otherwise it has four
    files, and one account struct more than the rule list has PDA rules.
    When the skeleton has instructions, the rule list holds the rule
    that announces their number. No letter from A to Z is left in the
    program name and in the instruction names. *)
Theorem X20_skeleton_and_rules :
  forall (toUpperCase : jsstring -> jsstring) (parsed : ParsedContract),
    let sk := generateAnchorSkeleton toUpperCase parsed in
    let rules := applyMappingRules parsed in
    length (files sk) = match contracts parsed with [] => 0 | _ :: _ => 4 end
    /\ length (accountStructs sk)
       = match contracts parsed with [] => 0 | _ :: _ => 1 + pdaRuleCount rules end
    /\ (0 < length (instructions sk) ->
        In (showNat (length (instructions sk)) ++ str " public/external functions")
           (map evmConcept rules))
    /\ Forall (Forall (fun c => isUpperAscii c = false))
              (programName sk :: instructions sk).
Proof.
  intros toUpperCase parsed sk rules. subst sk rules.
  rewrite pdaRuleCount_applyMappingRules. unfold generateAnchorSkeleton.
  destruct (mainContractOf parsed) as [c|] eqn:Hc.
  - assert (Hne : contracts parsed <> []).
    { intros E. apply mainContractOf_none in E. congruence. }
    destruct (contracts parsed) as [|c0 cs] eqn:Ecs; [contradiction|].
    cbn [files accountStructs instructions programName].
    split; [reflexivity|]. split.
    + unfold buildAccountStructNames. cbn [length]. now rewrite length_map.
    + rewrite length_map. split.
      * intros H. apply (concepts_kept_applyMappingRules parsed c _ Hc).
        now apply public_functions_concept.
      * assert (T : forall s, Forall (fun x => isUpperAscii x = false) (toSnakeCase s)).
        { intros s. rewrite toSnakeCase_chars.
          pose proof (snakeChars_no_upper s) as H.
          destruct (snakeChars s) as [|x t]; [constructor|]. cbn [dropUnderscore].
          destruct (Ascii.eqb x "_"); [now inversion H | exact H]. }
        constructor; [apply T|].
        apply Forall_forall. intros i Hi. apply in_map_iff in Hi as (f & <- & _).
        apply T.
  - apply mainContractOf_none in Hc. rewrite Hc.
    cbn [files accountStructs instructions programName length].
    split; [reflexivity|]. split; [reflexivity|].
    split; [intros H; inversion H|].
    constructor; [|constructor]. vm_compute. repeat constructor.
Qed.

Lemma X20_skeleton_witness :
  let parsed := parseSolidity (Some (fun _ => Parsed scenario1Ast)) scenario1 in
  let sk := generateAnchorSkeleton upperAscii parsed in
  instructions sk = [str "transfer"; str "approve"; str "transfer_from"]
  /\ In (str "3 public/external functions") (map evmConcept (applyMappingRules parsed)).
Proof.
  intros parsed sk.
  assert (Hi : instructions sk = [str "transfer"; str "approve"; str "transfer_from"])
    by (vm_compute; reflexivity).
  split; [exact Hi|].
  destruct (X20_skeleton_and_rules upperAscii parsed) as (_ & _ & H & _).
  fold sk in H. rewrite Hi in H. apply H. cbn [length]. lia.
Defined.

(** ** The gas estimate *)

Lemma parseSolidity_buildResult (hook : option Parser) (source : jsstring) :
  exists cs pv im, parseSolidity hook source = buildResult cs pv im source [].
Proof.
  unfold parseSolidity, regexFallbackParser.
  destruct hook as [parser|]; [destruct (parser source)|]; now eexists _, _, _.
Qed.

Lemma fold_left_add_N {A B} (f : A -> list B) (l : list A) (n : N) :
  fold_left (fun s c => s + N.of_nat (length (f c)))%N l n
  = (n + N.of_nat (list_sum (map (fun c => length (f c)) l)))%N.
Proof.
  revert n; induction l as [|a l IH]; intros n; cbn [fold_left map].
  - cbn. lia.
  - rewrite IH. unfold list_sum; cbn [fold_right]. lia.
Qed.

(** X21: the deployment gas estimated for the result of an analysis is
    read off the line count and the totals of functions and state
    variables; it is 61000 at least, the size term stays the same from
    123 lines on, and a result of low complexity is estimated at
    5076200 at most. *)
Theorem X21_deploy_gas :
  forall (hook : option Parser) (source : jsstring),
    let r := parseSolidity hook source in
    (deployGas source r
     = 21000 + 200 * N.min (200 * N.of_nat (lineCount r)) 24576
       + 15000 * N.of_nat (totalFunctions (contracts r))
       + 5000 * N.of_nat (totalStateVariables (contracts r)))%N
    /\ (61000 <= deployGas source r)%N
    /\ (123 <= lineCount r -> estimatedBytecode source = 24576%N)
    /\ (complexity r = Low -> (deployGas source r <= 5076200)%N).
Proof.
  intros hook source r. subst r.
  destruct (parseSolidity_buildResult hook source) as (cs & pv & im & ->).
  rewrite complexity_buildResult.
  unfold deployGas, estimatedBytecode, sourceLines, fnCount, stateVarCount.
  unfold buildResult; cbn [contracts lineCount].
  rewrite !fold_left_add_N.
  fold (totalFunctions cs). fold (totalStateVariables cs).
  pose proof (splitOn_length nl source) as Hl.
  set (n := length (splitOn nl source)) in *.
  split; [lia|]. split; [lia|]. split; [intros H; lia|].
  destruct (15 <? totalFunctions cs) eqn:E1; [discriminate|].
  destruct (10 <? totalStateVariables cs) eqn:E2; [discriminate|].
  destruct (6 <? totalFunctions cs) eqn:E3; [discriminate|]. intros _.
  apply Nat.ltb_ge in E2, E3. lia.
Qed.

Lemma X21_deploy_gas_witness :
  let r := parseSolidity None scenario1 in
  complexity r = Low /\ (deployGas scenario1 r <= 5076200)%N.
Proof.
  intros r.
  assert (H : complexity r = Low) by (vm_compute; reflexivity).
  split; [exact H|].
  destruct (X21_deploy_gas None scenario1) as (_ & _ & _ & Hlow).
  exact (Hlow H).
Defined.

(** ** Function declarations and opening braces *)

Lemma occurrencesOf_app (c : ascii) (a b : list ascii) :
  occurrencesOf c (a ++ b) = occurrencesOf c a + occurrencesOf c b.
Proof.
  induction a as [|x a IH]; [reflexivity|]. cbn [app occurrencesOf]. rewrite IH. lia.
Qed.

(** A greedy star over a class that ends a pattern stops at the end of
    the text or before a character that is not of the class. *)
Lemma starLoop_Class_maximal (neg : bool) (items : list cset) :
  forall (fuel : nat) (st res : mstate),
    length (after st) <= fuel ->
    starLoop (mt (Class neg items)) (fun st' => Some st') fuel st = Some res ->
    after res = [] \/ exists c rest, after res = c :: rest /\ inClass neg items c = false.
Proof.
  induction fuel as [|fuel IH]; intros st res Hl H; cbn [starLoop] in H.
  - injection H as <-. left. destruct (after st); [reflexivity | cbn in Hl; lia].
  - cbn [mt] in H. unfold step1 in H.
    destruct (after st) as [|c rest] eqn:Ea.
    + injection H as <-. now left.
    + destruct (inClass neg items c) eqn:Hc.
      * cbn [after] in H. cbn [length] in *.
        replace (length rest <? S (length rest)) with true in H
          by (symmetry; apply Nat.ltb_lt; lia).
        destruct (starLoop _ _ fuel _) as [x|] eqn:E.
        -- injection H as <-. apply IH in E; [exact E | cbn [after]; lia].
        -- injection H as <-. right. exists c, rest. rewrite Ea.
           exfalso. clear -E.
           assert (T : forall f s, starLoop (mt (Class neg items))
                                     (fun st' => Some st') f s <> None).
           { induction f as [|f IHf]; intros s; cbn [starLoop]; [discriminate|].
             destruct (mt _ _ s); discriminate. }
           now apply T in E.
      * injection H as <-. right. exists c, rest. now split.
Qed.

(** A match of the function pattern starts with the word function and
    runs to the end of the text or to the next opening brace. *)
Lemma lang_Seq_inv (r1 r2 : regex) (s : list ascii) :
  lang (Seq r1 r2) s -> exists s1 s2, s = s1 ++ s2 /\ lang r1 s1 /\ lang r2 s2.
Proof.
  intros H. inversion H as [| | |? ? s1 s2 H1 H2| | | | | | |]; subst.
  now exists s1, s2.
Qed.

Lemma functionRe_match (bef aft : list ascii) (m : rmatch) :
  matchAt functionRe bef aft = Some m ->
  (exists rest, aft = str "function" ++ rest)
  /\ m_text m <> []
  /\ (m_after m = [] \/ exists rest, m_after m = "{"%char :: rest).
Proof.
  intros H. pose proof (matchAt_sound _ _ _ _ H) as (_ & _ & Ha).
  pose proof (matchAt_groups _ _ _ _ H) as [Hlang _].
  assert (Ht : exists t, m_text m = str "function" ++ t).
  { unfold functionRe, Seqs, L in Hlang; cbn [fold_right] in Hlang.
    apply lang_Seq_inv in Hlang as (s1 & s2 & Es & H1 & _).
    apply lang_Lit in H1. subst s1. now exists s2. }
  destruct Ht as (t & Et).
  split; [exists (t ++ m_after m); now rewrite Ha, Et, <- app_assoc|].
  split; [rewrite Et; discriminate|].
  unfold matchAt in H. destruct (mt functionRe _ _) as [st'|] eqn:E; [|discriminate].
  injection H as <-. cbn [m_after].
  unfold functionRe, Seqs in E; cbn [fold_right] in E.
  do 9 (rewrite mt_Seq in E; apply mt_sound in E as (? & ? & _ & E)).
  rewrite mt_Seq in E. cbn [mt] in E.
  apply starLoop_Class_maximal in E; [|lia].
  destruct E as [E | (c & rest & E & Hc)]; [now left|].
  right. exists rest. rewrite E. f_equal.
  unfold inClass in Hc; cbn in Hc. rewrite orb_false_r in Hc.
  apply negb_false_iff, Ascii.eqb_eq in Hc. exact Hc.
Qed.

Lemma functionRe_needs_text (bef : list ascii) : search functionRe bef [] = None.
Proof.
  cbn [search]. destruct (matchAt functionRe bef []) as [m|] eqn:E; [|reflexivity].
  apply functionRe_match in E as ((rest & E) & _). discriminate.
Qed.

(** The matches of the function pattern are one more than the opening
    braces of the text at most, and no more than them when the text
    starts with one. *)
Lemma functionRe_count : forall (fuel : nat) (bef aft : list ascii),
  let n := length (matchAllFrom fuel functionRe bef aft) in
  n <= 1 + occurrencesOf "{" aft
  /\ (forall rest, aft = "{"%char :: rest -> n <= occurrencesOf "{" aft).
Proof.
  induction fuel as [|fuel IH]; intros bef aft n; subst n; cbn [matchAllFrom].
  - cbn [length]. split; [lia | intros; lia].
  - destruct (search functionRe bef aft) as [m|] eqn:E;
      [|cbn [length]; split; [lia | intros; lia]].
    apply search_sound in E as (pre & Ea & _ & _ & Hm).
    pose proof (functionRe_match _ _ _ Hm) as ((r0 & Ef) & Hne & Hend).
    destruct (m_text m) as [|x t] eqn:Et; [contradiction|]. cbn [length].
    assert (Hrest : length (matchAllFrom fuel functionRe (m_before m) (m_after m))
                    <= occurrencesOf "{" (m_after m)).
    { destruct Hend as [-> | (rest & Er)].
      - destruct fuel; cbn [matchAllFrom]; [cbn; lia|].
        rewrite functionRe_needs_text. cbn. lia.
      - destruct (IH (m_before m) (m_after m)) as [_ H]. now apply (H rest). }
    rewrite Ea, !occurrencesOf_app. split; [lia|].
    intros rest Er. destruct pre as [|p pre].
    + change ((x :: t) ++ m_after m = "{"%char :: rest) in Er.
      rewrite Ef in Er. discriminate.
    + cbn [app] in Er. injection Er as -> _.
      cbn [app occurrencesOf]. rewrite Ascii.eqb_refl. lia.
Qed.

(** X22: a contract record of the regex path has no more functions
    that are not the constructor than the source has opening braces: a
    function declaration takes the text up to the next opening brace, so
    declarations without a body that follow it are not recorded. *)
Theorem X22_functions_bounded_by_braces :
  forall (source : jsstring) (c : ContractDef),
    In c (contracts (regexFallbackParser source)) ->
    length (filter (fun f => negb (isConstructor f)) (functions c))
    <= occurrencesOf "{" source.
Proof.
  intros source c Hc.
  unfold regexFallbackParser, buildResult in Hc; cbn [contracts] in Hc.
  apply in_map_iff in Hc as (m & <- & Hm).
  cbn [functions contractOfMatch].
  set (body := extractBody source (startIdxOf m)).
  assert (Hf : filter (fun f => negb (isConstructor f)) (extractFunctions body)
               = map functionOfMatch (matchAll functionRe body)).
  { assert (Hplain : forall l, filter (fun f => negb (isConstructor f))
                                      (map functionOfMatch l) = map functionOfMatch l).
    { induction l as [|x l IH]; [reflexivity|]. cbn [map filter].
      cbn [isConstructor functionOfMatch negb]. now rewrite IH. }
    unfold extractFunctions. destruct (jsmatch constructorRe body); [|apply Hplain].
    cbn [filter isConstructor constructorOfMatch negb]. apply Hplain. }
  rewrite Hf, length_map.
  destruct (functionRe_count (S (length body)) [] body) as [Hn _].
  fold (matchAll functionRe body) in Hn.
  destruct (contractRe_opening_brace source m Hm) as (decl & Hd & _).
  assert (Hs : source = decl ++ ["{"%char] ++ body
                        ++ skipn (length body) (skipn (startIdxOf m) source)).
  { rewrite <- (firstn_skipn (startIdxOf m) source) at 1. rewrite Hd, <- app_assoc.
    f_equal. f_equal. subst body. unfold extractBody, slice.
    set (rest := skipn (startIdxOf m) source). set (k := _ - _).
    rewrite <- (firstn_skipn k rest) at 1. f_equal.
    destruct (Nat.le_gt_cases k (length rest)) as [Hk | Hk].
    - now rewrite length_firstn, Nat.min_l.
    - rewrite firstn_all2 by lia. rewrite !skipn_all2; [reflexivity | lia | lia]. }
  clearbody body. remember (skipn (length body) (skipn (startIdxOf m) source)) as tail.
  rewrite Hs, !occurrencesOf_app. cbn [occurrencesOf].
  rewrite Ascii.eqb_refl. lia.
Qed.

Lemma X22_functions_witness :
  exists c,
    In c (contracts (regexFallbackParser interfaceSource))
    /\ occurrencesOf "{" interfaceSource = 1
    /\ map fn_name (functions c) = [str "transfer"]
    /\ length (filter (fun f => negb (isConstructor f)) (functions c)) <= 1.
Proof.
  pose (c := nth 0 (contracts (regexFallbackParser interfaceSource))
                 (mkContractDef [] KContract [] [] [] [])).
  assert (Hc : In c (contracts (regexFallbackParser interfaceSource)))
    by (vm_compute; left; reflexivity).
  assert (Ho : occurrencesOf "{" interfaceSource = 1) by (vm_compute; reflexivity).
  exists c. split; [exact Hc|]. split; [exact Ho|].
  split; [vm_compute; reflexivity|].
  rewrite <- Ho. exact (X22_functions_bounded_by_braces interfaceSource c Hc).
Defined.

(** ** The access rules of the rule list *)

Lemma existsb_concepts (w : jsstring) (l : list MappingRule) :
  existsb (fun r => includes (evmConcept r) w) l
  = existsb (fun c => includes c w) (map evmConcept l).
Proof.
  induction l as [|r l IH]; [reflexivity|]. cbn [map existsb]. now rewrite IH.
Qed.

(** X23: when the analysis flags the source as ownable, the rule list
    holds a rule whose EVM concept holds the text owner; when it flags
    access control, the rule list holds the rule of the roles. *)
Theorem X23_access_rules :
  forall (parsed : ParsedContract),
    let rules := applyMappingRules parsed in
    (hasOwnable parsed = true ->
     existsb (fun r => includes (evmConcept r) (str "owner")) rules = true)
    /\ (hasAccessControl parsed = true ->
        In (str "AccessControl (roles)") (map evmConcept rules)).
Proof.
  intros parsed rules. subst rules. unfold applyMappingRules.
  set (st3 := if isERC721 parsed then _ else _).
  clearbody st3.
  set (st4 := if hasOwnable parsed && _ then _ else st3).
  assert (H4 : hasOwnable parsed = true ->
               existsb (fun c => includes c (str "owner")) (map evmConcept (snd st4))
               = true).
  { intros Ho. subst st4. rewrite Ho. cbn [andb].
    destruct (existsb _ (snd st3)) eqn:E; cbn [negb].
    - now rewrite <- existsb_concepts.
    - rewrite concepts_push, existsb_app. apply orb_true_iff. right. reflexivity. }
  clearbody st4.
  set (st5 := if hasAccessControl parsed then _ else st4).
  assert (K5 : forall c, In c (map evmConcept (snd st4)) ->
                         In c (map evmConcept (snd st5))).
  { intros c Hc. subst st5. destruct (hasAccessControl parsed); [|exact Hc].
    now apply concepts_kept_push. }
  assert (H5 : hasAccessControl parsed = true ->
               In (str "AccessControl (roles)") (map evmConcept (snd st5))).
  { intros Ha. subst st5. rewrite Ha. rewrite concepts_push.
    apply in_or_app. right. now left. }
  clearbody st5. split.
  - intros Ho. rewrite existsb_concepts, concepts_pushAll, existsb_app.
    apply orb_true_iff. left.
    apply existsb_exists. apply H4 in Ho. apply existsb_exists in Ho as (c & Hc & Hi).
    exists c. split; [now apply K5 | exact Hi].
  - intros Ha. rewrite concepts_pushAll. apply in_or_app. left. now apply H5.
Qed.

Lemma X23_access_rules_witness :
  let parsed := parseSolidity None ownedSource in
  hasOwnable parsed = true
  /\ existsb (fun r => includes (evmConcept r) (str "owner")) (applyMappingRules parsed)
     = true.
Proof.
  intros parsed.
  assert (Ho : hasOwnable parsed = true) by (vm_compute; reflexivity).
  split; [exact Ho|].
  exact (proj1 (X23_access_rules parsed) Ho).
Defined.
